(** * rspamd key/value storage: a shallow embedding of [src/kvstorage.c]

    The storage façade, the LRU expire queue and the hashed and radix
    caches are embedded as pure functions over an explicit state.  The
    element records live in a heap indexed by address, because the cache
    index, the expire queue and the caller all hold pointers to the same
    record and the code updates flags through them. *)

From Stdlib Require Import ZArith Lia.
From Stdlib Require Import Strings.Byte Strings.Ascii Strings.String.
From stdpp Require Import base option list gmap strings.

Local Open Scope Z_scope.

(** ** Machine integers *)

(** [gsize] is an unsigned 64-bit integer and [guint] an unsigned 32-bit
    one; arithmetic on them wraps around. *)
Definition to_gsize (z : Z) : Z := z mod 2 ^ 64.
Definition to_guint (z : Z) : Z := z mod 2 ^ 32.

Definition Z_of_byte (b : byte) : Z := Z.of_N (Byte.to_N b).

Definition byte_of_Z (z : Z) : byte :=
  match Byte.of_N (Z.to_N (z mod 256)) with
  | Some b => b
  | None => x00
  end.

(** [sizeof (guint)] *)
Definition sizeof_guint : Z := 4.

(** A [guint] stored through a [guint *], little-endian as on x86. *)
Definition guint_bytes (z : Z) : list byte :=
  [byte_of_Z z; byte_of_Z (z ≫ 8); byte_of_Z (z ≫ 16); byte_of_Z (z ≫ 24)].

(** Reading a [guint] through a [guint *]: four bytes must be there. *)
Definition read_guint (l : list byte) : option Z :=
  match l with
  | b0 :: b1 :: b2 :: b3 :: _ =>
      Some (Z_of_byte b0 + Z_of_byte b1 ≪ 8 + Z_of_byte b2 ≪ 16
            + Z_of_byte b3 ≪ 24)
  | _ => None
  end.

(** [memcpy (dst + off, src, n)] on a buffer given by its contents. *)
Definition memcpy (dst : list byte) (off : nat) (src : list byte) (n : nat)
  : list byte :=
  take off dst ++ take n src ++ drop (off + n) dst.

(** ** Element records *)

(** The flag bits.  [kvstorage.h] is not among the sources; what the code
    uses is that they are distinct single bits of [elt->flags]. *)
Definition KV_ELT_ARRAY : Z := 1.
Definition KV_ELT_PERSISTENT : Z := 2.
Definition KV_ELT_DIRTY : Z := 4.
Definition KV_ELT_NEED_FREE : Z := 16.

(** [struct rspamd_kv_element].  The single allocation holding the header,
    the NUL-terminated key and the payload is kept as three fields:
    [elt_key] is [ELT_KEY (elt)] and [elt_data] is [ELT_DATA (elt)].  The
    cached [hash] is never read by the code embedded here and is left out,
    as is the queue linkage, which the expire queue below carries. *)
Record rspamd_kv_element := mk_element {
  elt_age : Z;              (* time_t age *)
  elt_expire : Z;           (* guint32 expire *)
  elt_flags : Z;            (* gint flags *)
  elt_size : Z;             (* gsize size *)
  elt_keylen : Z;           (* guint keylen *)
  elt_key : string;
  elt_data : list byte
}.

Definition set_flags (f : Z) (e : rspamd_kv_element) : rspamd_kv_element :=
  {| elt_age := elt_age e; elt_expire := elt_expire e; elt_flags := f;
     elt_size := elt_size e; elt_keylen := elt_keylen e;
     elt_key := elt_key e; elt_data := elt_data e |}.

Definition set_size (n : Z) (e : rspamd_kv_element) : rspamd_kv_element :=
  {| elt_age := elt_age e; elt_expire := elt_expire e;
     elt_flags := elt_flags e; elt_size := n; elt_keylen := elt_keylen e;
     elt_key := elt_key e; elt_data := elt_data e |}.

Definition set_expire (x : Z) (e : rspamd_kv_element) : rspamd_kv_element :=
  {| elt_age := elt_age e; elt_expire := x; elt_flags := elt_flags e;
     elt_size := elt_size e; elt_keylen := elt_keylen e;
     elt_key := elt_key e; elt_data := elt_data e |}.

Definition set_data (d : list byte) (e : rspamd_kv_element)
  : rspamd_kv_element :=
  {| elt_age := elt_age e; elt_expire := elt_expire e;
     elt_flags := elt_flags e; elt_size := elt_size e;
     elt_keylen := elt_keylen e; elt_key := elt_key e; elt_data := d |}.

(** [(elt->flags & mask) != 0] *)
Definition has_flag (mask : Z) (e : rspamd_kv_element) : bool :=
  negb (Z.land (elt_flags e) mask =? 0).

(** The size of the record header depends on the platform's layout of
    [struct rspamd_kv_element], whose declaration is not among the
    sources: it is a parameter of the development, a positive [gsize]. *)
Class Layout := {
  sizeof_elt : Z;
  sizeof_elt_range : 0 < sizeof_elt < 2 ^ 32
}.

(** Modelled from the spec: the macro [ELT_SIZE] of the absent
    [kvstorage.h].  A single allocation contains the record header
    followed by the NUL-terminated key bytes and then the payload; this is
    the amount the cache insert functions pass to [g_slice_alloc0]. *)
Definition ELT_SIZE `{Layout} (e : rspamd_kv_element) : Z :=
  to_gsize (elt_size e + sizeof_elt + elt_keylen e + 1).

(** ** The storage *)

(** An address of an element record: its index in the heap. *)
Definition addr := nat.

(** The backend is an opaque plug-in.  Its hooks are modelled by what the
    façade can observe of them: the boolean they return and, for the two
    hooks that receive the element, whether they defer the write, which
    leaves [KV_ELT_DIRTY] on the element. *)
Record rspamd_kv_backend := mk_backend {
  insert_func : string → rspamd_kv_element → bool * bool;
  replace_func : string → rspamd_kv_element → bool * bool;
  lookup_func : string → option rspamd_kv_element;
  delete_func : string → bool
}.

(** The two caches of the default build: [struct rspamd_kv_hash_cache],
    a [GHashTable] under [rspamd_strcase_hash] and [rspamd_strcase_equal],
    indexed here by the case-folded key, and [struct rspamd_kv_radix_cache],
    a 32-bit radix tree. *)
Inductive rspamd_kv_cache :=
  | HashCache (hash : gmap string addr)
  | RadixCache (tree : gmap Z addr).

(** [struct rspamd_kv_lru_expire]: the [TAILQ] of elements, head first. *)
Inductive rspamd_kv_expire :=
  | LruExpire (head : list addr).

(** [struct rspamd_kv_storage] (without [id], [name] and the lock, which
    only logging and threads use), together with the memory the code
    manages: [heap] holds every record ever allocated, by address, and
    [freed] the addresses handed to [g_slice_free1]. *)
Record rspamd_kv_storage := mk_storage {
  cache : rspamd_kv_cache;
  backend : option rspamd_kv_backend;
  expire : option rspamd_kv_expire;
  elts : Z;
  memory : Z;
  max_elts : Z;
  max_memory : Z;
  heap : list rspamd_kv_element;
  freed : list addr
}.

Definition set_cache (c : rspamd_kv_cache) (st : rspamd_kv_storage) :=
  {| cache := c; backend := backend st; expire := expire st;
     elts := elts st; memory := memory st; max_elts := max_elts st;
     max_memory := max_memory st; heap := heap st; freed := freed st |}.

Definition set_queue (x : option rspamd_kv_expire) (st : rspamd_kv_storage) :=
  {| cache := cache st; backend := backend st; expire := x;
     elts := elts st; memory := memory st; max_elts := max_elts st;
     max_memory := max_memory st; heap := heap st; freed := freed st |}.

Definition set_elts (n : Z) (st : rspamd_kv_storage) :=
  {| cache := cache st; backend := backend st; expire := expire st;
     elts := n; memory := memory st; max_elts := max_elts st;
     max_memory := max_memory st; heap := heap st; freed := freed st |}.

Definition set_memory (n : Z) (st : rspamd_kv_storage) :=
  {| cache := cache st; backend := backend st; expire := expire st;
     elts := elts st; memory := n; max_elts := max_elts st;
     max_memory := max_memory st; heap := heap st; freed := freed st |}.

Definition set_heap (h : list rspamd_kv_element) (st : rspamd_kv_storage) :=
  {| cache := cache st; backend := backend st; expire := expire st;
     elts := elts st; memory := memory st; max_elts := max_elts st;
     max_memory := max_memory st; heap := h; freed := freed st |}.

Definition set_freed (l : list addr) (st : rspamd_kv_storage) :=
  {| cache := cache st; backend := backend st; expire := expire st;
     elts := elts st; memory := memory st; max_elts := max_elts st;
     max_memory := max_memory st; heap := heap st; freed := l |}.

(** [g_slice_alloc0] followed by the field assignments: the new record
    gets the next address. *)
Definition alloc (e : rspamd_kv_element) (st : rspamd_kv_storage)
  : rspamd_kv_storage * addr :=
  (set_heap (heap st ++ [e]) st, length (heap st)).

(** [g_slice_free1 (ELT_SIZE (elt), elt)] *)
Definition g_slice_free1 (a : addr) (st : rspamd_kv_storage)
  : rspamd_kv_storage :=
  set_freed (a :: freed st) st.

(** An assignment through the pointer [a]. *)
Definition update_elt (a : addr) (f : rspamd_kv_element → rspamd_kv_element)
  (st : rspamd_kv_storage) : rspamd_kv_storage :=
  match heap st !! a with
  | Some e => set_heap (<[a := f e]> (heap st)) st
  | None => st
  end.

(** The disposal every removal path is meant to follow: a [DIRTY] element
    is in the backend's queue and only marked, any other is freed. *)
Definition dispose (a : addr) (st : rspamd_kv_storage) : rspamd_kv_storage :=
  match heap st !! a with
  | Some e =>
      if has_flag KV_ELT_DIRTY e
      then update_elt a (set_flags (Z.lor (elt_flags e) KV_ELT_NEED_FREE)) st
      else g_slice_free1 a st
  | None => st
  end.

(** ** The hashed cache *)

Definition ascii_tolower (c : ascii) : ascii :=
  let n := Ascii.nat_of_ascii c in
  if ((65 <=? n) && (n <=? 90))%nat then Ascii.ascii_of_nat (n + 32) else c.

(** Modelled from the spec: [rspamd_strcase_hash] and
    [rspamd_strcase_equal], which are not among the sources.  The hashed
    cache indexes by a case-insensitive hash of the key bytes: two keys
    name the same slot when their case foldings agree. *)
Fixpoint strcase_fold (s : string) : string :=
  match s with
  | EmptyString => EmptyString
  | String c s' => String (ascii_tolower c) (strcase_fold s')
  end.

(** [strlen] *)
Definition strlen (s : string) : Z := Z.of_nat (String.length s).

(** The record both branches of [rspamd_kv_hash_insert] build: zeroed,
    then [age], [keylen] and [size] set, key and value copied in. *)
Definition hash_new_element (key : string) (value : list byte) (len now : Z)
  : rspamd_kv_element :=
  {| elt_age := now; elt_expire := 0; elt_flags := 0; elt_size := len;
     elt_keylen := to_guint (strlen key); elt_key := key;
     elt_data := take (Z.to_nat len) value |}.

(** [g_hash_table_steal (cache->hash, key)] *)
Definition g_hash_table_steal (key : string) (h : gmap string addr)
  : gmap string addr :=
  delete (strcase_fold key) h.

Definition rspamd_kv_hash_insert (h : gmap string addr) (key : string)
  (value : list byte) (len now : Z) (st : rspamd_kv_storage)
  : rspamd_kv_storage * option addr :=
  match h !! strcase_fold key with
  | None =>
      let '(st1, a) := alloc (hash_new_element key value len now) st in
      (set_cache (HashCache (<[strcase_fold key := a]> h)) st1, Some a)
  | Some old =>
      let h1 :=
        match heap st !! old with
        | Some e => g_hash_table_steal (elt_key e) h
        | None => h
        end in
      let st1 := dispose old st in
      let '(st2, a) := alloc (hash_new_element key value len now) st1 in
      (set_cache (HashCache (<[strcase_fold key := a]> h1)) st2, Some a)
  end.

Definition rspamd_kv_hash_lookup (h : gmap string addr) (key : string)
  : option addr :=
  h !! strcase_fold key.

Definition rspamd_kv_hash_replace (h : gmap string addr) (key : string)
  (elt : addr) (st : rspamd_kv_storage) : rspamd_kv_storage * bool :=
  match h !! strcase_fold key with
  | Some oldelt =>
      let h1 := g_hash_table_steal key h in
      let st1 := dispose oldelt st in
      match heap st1 !! elt with
      | Some e =>
          (set_cache (HashCache (<[strcase_fold (elt_key e) := elt]> h1)) st1,
           true)
      | None => (set_cache (HashCache h1) st1, true)
      end
  | None => (st, false)
  end.

Definition rspamd_kv_hash_delete (h : gmap string addr) (key : string)
  (st : rspamd_kv_storage) : rspamd_kv_storage * option addr :=
  match h !! strcase_fold key with
  | Some a => (set_cache (HashCache (g_hash_table_steal key h)) st, Some a)
  | None => (st, None)
  end.

Definition rspamd_kv_hash_steal (h : gmap string addr) (elt : addr)
  (st : rspamd_kv_storage) : rspamd_kv_storage :=
  match heap st !! elt with
  | Some e => set_cache (HashCache (g_hash_table_steal (elt_key e) h)) st
  | None => st
  end.

(** [rspamd_kv_hash_new] *)
Definition rspamd_kv_hash_new : rspamd_kv_cache := HashCache ∅.

(** ** The radix cache *)

(** [inet_aton] of the C library, as the GNU C library implements it: one
    to four numbers separated by dots, each read by [strtoul] with base 0,
    so decimal, octal (leading [0]) or hexadecimal (leading [0x] before a
    hexadecimal digit); every number must start with a decimal digit; the
    character after the last number must be the end of the string or white
    space, and what follows that character is not looked at; the last
    number fills the remaining bytes of the address.  The result is the
    address in host order, [None] when the string is not an address.
    Keys are C strings: they hold no NUL character. *)
Definition digit_value (base : Z) (c : ascii) : option Z :=
  let n := Z.of_nat (Ascii.nat_of_ascii c) in
  if (48 <=? n) && (n <=? 57) then
    (if n - 48 <? base then Some (n - 48) else None)
  else if (base =? 16) && (97 <=? n) && (n <=? 102) then Some (n - 87)
  else if (base =? 16) && (65 <=? n) && (n <=? 70) then Some (n - 55)
  else None.

(** [isspace] in the C locale: space, [\t], [\n], [\v], [\f], [\r]. *)
Definition isspace (c : ascii) : bool :=
  let n := Z.of_nat (Ascii.nat_of_ascii c) in
  (n =? 32) || ((9 <=? n) && (n <=? 13)).

(** The digits of one number: the value read so far and the rest. *)
Fixpoint aton_digits (base acc : Z) (s : string) : Z * string :=
  match s with
  | EmptyString => (acc, s)
  | String c s' =>
      match digit_value base c with
      | Some d => aton_digits base (acc * base + d) s'
      | None => (acc, s)
      end
  end.

(** Whether the string starts with a hexadecimal digit. *)
Definition starts_with_xdigit (s : string) : bool :=
  match s with
  | String c _ =>
      match digit_value 16 c with Some _ => true | None => false end
  | EmptyString => false
  end.

(** One number: it must start with a decimal digit and is then read as
    [strtoul (cp, &endp, 0)] reads it.  The prefix [0x] counts only before
    a hexadecimal digit; otherwise the number is the [0] and the rest
    starts at the [x]. *)
Definition aton_number (s : string) : option (Z * string) :=
  match s with
  | String "0"%char (String x s') =>
      if (Ascii.eqb x "x"%char || Ascii.eqb x "X"%char)
         && starts_with_xdigit s'
      then Some (aton_digits 16 0 s')
      else Some (aton_digits 8 0 (String x s'))
  | String c _ =>
      match digit_value 10 c with
      | Some _ => Some (aton_digits 10 0 s)
      | None => None
      end
  | EmptyString => None
  end.

(** The numbers of the address, at most four; [fuel] is the number of
    parts still allowed. *)
Fixpoint aton_parts (fuel : nat) (s : string) : option (list Z) :=
  match fuel with
  | O => None
  | S fuel' =>
      match aton_number s with
      | None => None
      | Some (v, EmptyString) => Some [v]
      | Some (v, String "."%char s') =>
          if 255 <? v then None
          else match aton_parts fuel' s' with
               | Some l => Some (v :: l)
               | None => None
               end
      | Some (v, String c _) =>
          (* one white space character ends the address *)
          if isspace c then Some [v] else None
      end
  end.

Definition inet_aton (s : string) : option Z :=
  match aton_parts 4 s with
  | Some [a] => if a <? 2 ^ 32 then Some a else None
  | Some [a; b] => if b <? 2 ^ 24 then Some (a ≪ 24 + b) else None
  | Some [a; b; c] => if c <? 2 ^ 16 then Some (a ≪ 24 + b ≪ 16 + c) else None
  | Some [a; b; c; d] =>
      if d <? 2 ^ 8 then Some (a ≪ 24 + b ≪ 16 + c ≪ 8 + d) else None
  | _ => None
  end.

(** [htonl] on a little-endian host: [s_addr] holds the address in
    network byte order. *)
Definition htonl (v : Z) : Z :=
  Z.land v 255 ≪ 24 + Z.land (v ≫ 8) 255 ≪ 16
  + Z.land (v ≫ 16) 255 ≪ 8 + Z.land (v ≫ 24) 255.

Definition rspamd_kv_radix_validate (key : string) : Z :=
  match inet_aton key with
  | None => 0
  | Some v => htonl v
  end.

(** Modelled from the spec: the radix tree of the absent [radix.h], with
    [find], [insert], [replace] and [delete].  The cache only uses the
    full mask [0xffffffff], under which the tree is a finite map from
    32-bit keys to values; [RADIX_NO_VALUE] is the absent binding. *)
Definition radix32tree_find (t : gmap Z addr) (k : Z) : option addr := t !! k.
Definition radix32tree_insert (t : gmap Z addr) (k : Z) (v : addr)
  : gmap Z addr :=
  match t !! k with
  | None => <[k := v]> t
  | Some _ => t
  end.
Definition radix32tree_replace (t : gmap Z addr) (k : Z) (v : addr)
  : gmap Z addr := <[k := v]> t.
Definition radix32tree_delete (t : gmap Z addr) (k : Z) : gmap Z addr :=
  delete k t.

(** The C string at the start of a buffer: the bytes before the first
    NUL. *)
Fixpoint c_string (l : list byte) : string :=
  match l with
  | [] => EmptyString
  | b :: l' =>
      if Byte.eqb b x00 then EmptyString
      else String (ascii_of_byte b) (c_string l')
  end.

(** The flexible array [elt->data] as [rspamd_kv_radix_insert] leaves it.
    The function allocates [len + keylen + 1] zeroed bytes for its local
    [keylen = strlen (key)], copies the key with its NUL to the start, and
    then copies the value to [ELT_DATA (elt)].  It never assigns
    [elt->keylen], which stays 0, so [ELT_DATA (elt)] is [elt->data + 1]
    and the value lands on the key from its second byte on. *)
Definition radix_elt_bytes (key : string) (value : list byte) (len : Z)
  : list byte :=
  let keyb := list_byte_of_string key ++ [x00] in
  let zeroed := replicate (Z.to_nat len + length keyb) x00 in
  let with_key := memcpy zeroed 0 keyb (length keyb) in
  memcpy with_key 1 value (Z.to_nat len).

(** The record [rspamd_kv_radix_insert] builds; [keylen] is left at the
    zero of [g_slice_alloc0].  [ELT_KEY (elt)] is the C string at
    [elt->data], and [ELT_DATA (elt)] holds the [len] bytes of the value
    just copied there. *)
Definition radix_new_element (key : string) (value : list byte) (len now : Z)
  : rspamd_kv_element :=
  {| elt_age := now; elt_expire := 0; elt_flags := 0; elt_size := len;
     elt_keylen := 0; elt_key := c_string (radix_elt_bytes key value len);
     elt_data := take (Z.to_nat len) value |}.

Definition rspamd_kv_radix_insert (t : gmap Z addr) (key : string)
  (value : list byte) (len now : Z) (st : rspamd_kv_storage)
  : rspamd_kv_storage * option addr :=
  let rkey := rspamd_kv_radix_validate key in
  if rkey =? 0 then (st, None)
  else
    match radix32tree_find t rkey with
    | None =>
        let '(st1, a) := alloc (radix_new_element key value len now) st in
        (set_cache (RadixCache (radix32tree_insert t rkey a)) st1, Some a)
    | Some elt => (st, Some elt)
    end.

Definition rspamd_kv_radix_lookup (t : gmap Z addr) (key : string)
  : option addr :=
  radix32tree_find t (rspamd_kv_radix_validate key).

Definition rspamd_kv_radix_replace (t : gmap Z addr) (key : string)
  (elt : addr) (st : rspamd_kv_storage) : rspamd_kv_storage * bool :=
  let rkey := rspamd_kv_radix_validate key in
  (set_cache (RadixCache (radix32tree_replace t rkey elt)) st, true).

Definition rspamd_kv_radix_delete (t : gmap Z addr) (key : string)
  (st : rspamd_kv_storage) : rspamd_kv_storage * option addr :=
  let rkey := rspamd_kv_radix_validate key in
  match radix32tree_find t rkey with
  | Some elt =>
      (set_cache (RadixCache (radix32tree_delete t rkey)) st, Some elt)
  | None => (st, None)
  end.

Definition rspamd_kv_radix_steal (t : gmap Z addr) (elt : addr)
  (st : rspamd_kv_storage) : rspamd_kv_storage :=
  match heap st !! elt with
  | Some e =>
      let rkey := rspamd_kv_radix_validate (elt_key e) in
      set_cache (RadixCache (radix32tree_delete t rkey)) st
  | None => st
  end.

(** [rspamd_kv_radix_new] *)
Definition rspamd_kv_radix_new : rspamd_kv_cache := RadixCache ∅.

(** ** Dispatch through the cache's function pointers *)

Definition cache_insert (key : string) (value : list byte) (len now : Z)
  (st : rspamd_kv_storage) : rspamd_kv_storage * option addr :=
  match cache st with
  | HashCache h => rspamd_kv_hash_insert h key value len now st
  | RadixCache t => rspamd_kv_radix_insert t key value len now st
  end.

Definition cache_lookup (key : string) (st : rspamd_kv_storage)
  : option addr :=
  match cache st with
  | HashCache h => rspamd_kv_hash_lookup h key
  | RadixCache t => rspamd_kv_radix_lookup t key
  end.

Definition cache_replace (key : string) (elt : addr) (st : rspamd_kv_storage)
  : rspamd_kv_storage * bool :=
  match cache st with
  | HashCache h => rspamd_kv_hash_replace h key elt st
  | RadixCache t => rspamd_kv_radix_replace t key elt st
  end.

Definition cache_delete (key : string) (st : rspamd_kv_storage)
  : rspamd_kv_storage * option addr :=
  match cache st with
  | HashCache h => rspamd_kv_hash_delete h key st
  | RadixCache t => rspamd_kv_radix_delete t key st
  end.

Definition cache_steal (elt : addr) (st : rspamd_kv_storage)
  : rspamd_kv_storage :=
  match cache st with
  | HashCache h => rspamd_kv_hash_steal h elt st
  | RadixCache t => rspamd_kv_radix_steal t elt st
  end.

(** ** The LRU expire queue *)

(** [TAILQ_INSERT_TAIL] *)
Definition rspamd_lru_insert (elt : addr) (q : list addr) : list addr :=
  q ++ [elt].

(** [TAILQ_REMOVE] *)
Definition rspamd_lru_delete (elt : addr) (q : list addr) : list addr :=
  filter (λ x, x ≠ elt) q.

(** [storage->expire->insert_func] and [delete_func], under the test
    [if (storage->expire)] of their callers. *)
Definition expire_insert (elt : addr) (st : rspamd_kv_storage)
  : rspamd_kv_storage :=
  match expire st with
  | Some (LruExpire q) =>
      set_queue (Some (LruExpire (rspamd_lru_insert elt q))) st
  | None => st
  end.

Definition expire_delete (elt : addr) (st : rspamd_kv_storage)
  : rspamd_kv_storage :=
  match expire st with
  | Some (LruExpire q) =>
      set_queue (Some (LruExpire (rspamd_lru_delete elt q))) st
  | None => st
  end.

Definition queue (st : rspamd_kv_storage) : list addr :=
  match expire st with
  | Some (LruExpire q) => q
  | None => []
  end.

(** [(elt->flags & (KV_ELT_PERSISTENT|KV_ELT_DIRTY)) != 0] *)
Definition pinned (e : rspamd_kv_element) : bool :=
  has_flag (Z.lor KV_ELT_PERSISTENT KV_ELT_DIRTY) e.

Section Storage.
Context `{Layout}.

(** The body of the [TAILQ_FOREACH_SAFE] loop of [rspamd_lru_expire_step],
    run over the queue as it stands after the head was removed.  The test
    that leaves the loop is the source's:
    [(flags & (PERSISTENT|DIRTY)) != 0 || elt->expire < (now - elt->age)]. *)
Fixpoint lru_sweep (l : list addr) (now : Z) (st : rspamd_kv_storage)
  : rspamd_kv_storage :=
  match l with
  | [] => st
  | elt :: l' =>
      match heap st !! elt with
      | None => st
      | Some e =>
          if pinned e || (elt_expire e <? now - elt_age e) then st
          else
            let st1 := set_memory (to_gsize (memory st - ELT_SIZE e)) st in
            let st2 := set_elts (to_gsize (elts st1 - 1)) st1 in
            let st3 := cache_steal elt st2 in
            let st4 := expire_delete elt st3 in
            lru_sweep l' now (g_slice_free1 elt st4)
      end
  end.

(** [rspamd_lru_expire_step].  It returns [TRUE] whatever it did and its
    callers drop the result, so the embedding returns the storage only. *)
Definition rspamd_lru_expire_step (q : list addr) (now forced : Z)
  (st : rspamd_kv_storage) : rspamd_kv_storage :=
  match q with
  | [] => st
  | elt :: _ =>
      match heap st !! elt with
      | None => st
      | Some e =>
          if negb (forced =? 0) || negb (pinned e) then
            let diff := elt_expire e - (now - elt_age e) in
            if diff >? 0 then
              (* oldest_elt = elt, released by the second block *)
              let st1 := set_memory (to_gsize (memory st - ELT_SIZE e)) st in
              let st2 := set_elts (to_gsize (elts st1 - 1)) st1 in
              let st3 := cache_steal elt st2 in
              let st4 := expire_delete elt st3 in
              dispose elt st4
            else
              (* This element is already expired *)
              let st1 := cache_steal elt st in
              let st2 := set_memory (to_gsize (memory st1 - ELT_SIZE e)) st1 in
              let st3 := set_elts (to_gsize (elts st2 - 1)) st2 in
              let st4 := expire_delete elt st3 in
              let st5 := g_slice_free1 elt st4 in
              (* the other elements in this queue *)
              lru_sweep (queue st5) now st5
          else st
      end
  end.

(** [storage->expire->step_func (storage->expire, storage, now, steps)] *)
Definition expire_step (now forced : Z) (st : rspamd_kv_storage)
  : rspamd_kv_storage :=
  match expire st with
  | Some (LruExpire q) => rspamd_lru_expire_step q now forced st
  | None => st
  end.

(** ** The storage façade *)

Definition MAX_EXPIRE_STEPS : nat := 10.

(** [rspamd_kv_storage_new] *)
Definition rspamd_kv_storage_new (c : rspamd_kv_cache)
  (b : option rspamd_kv_backend) (e : option rspamd_kv_expire)
  (max_elts max_memory : Z) : rspamd_kv_storage :=
  {| cache := c; backend := b; expire := e; elts := 0; memory := 0;
     max_elts := max_elts; max_memory := max_memory; heap := [];
     freed := [] |}.

(** [rspamd_lru_expire_new] *)
Definition rspamd_lru_expire_new : rspamd_kv_expire := LruExpire [].

(** The [while] loop under "Now check limits".  [steps] counts up from 0
    and is what the step receives as [forced]; [left] is the number of
    further rounds before [++steps > MAX_EXPIRE_STEPS] returns [FALSE].
    [clock] is what [time (NULL)] returns during the call. *)
Fixpoint limit_loop (breach : rspamd_kv_storage → bool) (clock : Z)
  (left : nat) (steps : Z) (st : rspamd_kv_storage)
  : rspamd_kv_storage * bool :=
  if breach st then
    let st1 := expire_step clock steps st in
    match left with
    | O => (st1, false)
    | S left' => limit_loop breach clock left' (steps + 1) st1
    end
  else (st, true).

(** The block under "Hard limit": [false] is its [return FALSE]. *)
Definition check_limits (breach : rspamd_kv_storage → bool) (len clock : Z)
  (st : rspamd_kv_storage) : rspamd_kv_storage * bool :=
  if max_memory st >? 0 then
    if len >? max_memory st then (st, false)
    else limit_loop breach clock MAX_EXPIRE_STEPS 0 st
  else (st, true).

(** [storage->memory + len > storage->max_memory
     || storage->elts >= storage->max_elts] *)
Definition insert_breach (len : Z) (st : rspamd_kv_storage) : bool :=
  (to_gsize (memory st + len) >? max_memory st)
  || (elts st >=? max_elts st).

(** [storage->memory + elt->size > storage->max_memory] *)
Definition replace_breach (len : Z) (st : rspamd_kv_storage) : bool :=
  to_gsize (memory st + len) >? max_memory st.

(** The backend hooks that receive the element, under [if (storage->backend)]. *)
Definition backend_insert (key : string) (elt : addr)
  (st : rspamd_kv_storage) : rspamd_kv_storage * bool :=
  match backend st, heap st !! elt with
  | Some b, Some e =>
      let '(res, deferred) := insert_func b key e in
      (if deferred
       then update_elt elt (set_flags (Z.lor (elt_flags e) KV_ELT_DIRTY)) st
       else st, res)
  | _, _ => (st, true)
  end.

Definition backend_replace (key : string) (elt : addr)
  (st : rspamd_kv_storage) : rspamd_kv_storage * bool :=
  match backend st, heap st !! elt with
  | Some b, Some e =>
      let '(res, deferred) := replace_func b key e in
      (if deferred
       then update_elt elt (set_flags (Z.lor (elt_flags e) KV_ELT_DIRTY)) st
       else st, res)
  | _, _ => (st, true)
  end.

(** [rspamd_kv_storage_insert_internal]: the result is [*pelt] on [TRUE]
    and [None] on [FALSE]. *)
Definition rspamd_kv_storage_insert_internal (key : string)
  (data : list byte) (len flags expire clock : Z) (st : rspamd_kv_storage)
  : rspamd_kv_storage * option addr :=
  match check_limits (insert_breach len) len clock st with
  | (st1, false) => (st1, None)
  | (st1, true) =>
      match cache_insert key data len clock st1 with
      | (st2, None) => (st2, None)
      | (st2, Some elt) =>
          let st3 :=
            update_elt elt (λ e, set_expire expire (set_flags flags e)) st2 in
          let st4 := expire_insert elt st3 in
          let size := from_option elt_size 0 (heap st4 !! elt) in
          let st5 := set_elts (to_gsize (elts st4 + 1)) st4 in
          (set_memory (to_gsize (memory st5 + (size + sizeof_elt))) st5,
           Some elt)
      end
  end.

(** The statements of [rspamd_kv_storage_insert] that follow the limits
    block, from "First try to search it in cache" on. *)
Definition insert_after_limits (key : string) (data : list byte)
  (len flags expire clock : Z) (st1 : rspamd_kv_storage)
  : rspamd_kv_storage * bool :=
  let st2 :=
    match cache_lookup key st1 with
    | Some elt => dispose elt (cache_steal elt (expire_delete elt st1))
    | None => st1
    end in
  match cache_insert key data len clock st2 with
  | (st3, None) => (st3, false)
  | (st3, Some elt) =>
      let st4 :=
        update_elt elt
          (λ e,
             let e1 := set_expire expire (set_size len (set_flags flags e)) in
             if expire =? 0
             then set_flags (Z.lor (elt_flags e1) KV_ELT_PERSISTENT) e1
             else e1) st3 in
      let '(st5, res) := backend_insert key elt st4 in
      let st6 := expire_insert elt st5 in
      let st7 := set_elts (to_gsize (elts st6 + 1)) st6 in
      (set_memory (to_gsize (memory st7 + (len + sizeof_elt))) st7, res)
  end.

(** [rspamd_kv_storage_insert] *)
Definition rspamd_kv_storage_insert (key : string) (data : list byte)
  (len flags expire clock : Z) (st : rspamd_kv_storage)
  : rspamd_kv_storage * bool :=
  match check_limits (insert_breach len) len clock st with
  | (st1, false) => (st1, false)
  | (st1, true) => insert_after_limits key data len flags expire clock st1
  end.

(** [rspamd_kv_storage_replace] *)
Definition rspamd_kv_storage_replace (key : string) (elt : addr)
  (clock : Z) (st : rspamd_kv_storage) : rspamd_kv_storage * bool :=
  let size := from_option elt_size 0 (heap st !! elt) in
  match check_limits (replace_breach size) size clock st with
  | (st1, false) => (st1, false)
  | (st1, true) =>
      match cache_replace key elt st1 with
      | (st2, true) => backend_replace key elt st2
      | (st2, false) => (st2, false)
      end
  end.

(** [rspamd_kv_storage_lookup].  [now] is the argument of that name and
    [clock] the [time (NULL)] of the insertion from the backend; the
    backend's own copy [belt] is outside the heap of the model. *)
Definition rspamd_kv_storage_lookup (key : string) (now clock : Z)
  (st : rspamd_kv_storage) : rspamd_kv_storage * option addr :=
  let '(st1, elt) :=
    match cache_lookup key st, backend st with
    | None, Some b =>
        match lookup_func b key with
        | Some belt =>
            rspamd_kv_storage_insert_internal (elt_key belt) (elt_data belt)
              (elt_size belt) (elt_flags belt) (elt_expire belt) clock st
        | None => (st, None)
        end
    | elt, _ => (st, elt)
    end in
  match elt with
  | Some a =>
      match heap st1 !! a with
      | Some e =>
          if negb (has_flag KV_ELT_PERSISTENT e) && (elt_expire e >? 0)
             && (now - elt_age e >? elt_expire e)
          then (st1, None)
          else (st1, Some a)
      | None => (st1, Some a)
      end
  | None => (st1, None)
  end.

(** [rspamd_kv_storage_delete]; the backend's answer is dropped. *)
Definition rspamd_kv_storage_delete (key : string) (st : rspamd_kv_storage)
  : rspamd_kv_storage * option addr :=
  match cache_delete key st with
  | (st1, Some elt) =>
      let st2 := expire_delete elt st1 in
      let st3 := set_elts (to_gsize (elts st2 - 1)) st2 in
      let size := from_option elt_size 0 (heap st3 !! elt) in
      (set_memory (to_gsize (memory st3 - size)) st3, Some elt)
  | (st1, None) => (st1, None)
  end.

(** ** Array elements *)

(** What C leaves undefined and the array functions can reach. *)
Inductive fault :=
  | DivisionByZero
  | OutOfBounds.

Inductive result (A : Type) :=
  | Done (x : A)
  | Undefined (f : fault).
#[global] Arguments Done {A} x.
#[global] Arguments Undefined {A} f.

(** [rspamd_kv_storage_insert_array].  [esize] is the parameter
    [elt_size].  [data] holds the caller's [len] bytes, [past] the bytes
    that follow them in memory and [junk] the contents of the block
    [g_slice_alloc] returns.  The temporary copy is built as the code
    builds it: the stride is stored at the start of [arr_data], then
    [memcpy] from [data + sizeof (guint)] to the start of [arr_data]. *)
Definition rspamd_kv_storage_insert_array (key : string) (esize : Z)
  (data past junk : list byte) (len flags expire clock : Z)
  (st : rspamd_kv_storage) : rspamd_kv_storage * bool :=
  let total := to_gsize (len + sizeof_guint) in
  let arr0 := resize (Z.to_nat total) x00 junk in
  let arr1 := memcpy arr0 0 (guint_bytes esize) 4 in
  let arr_data :=
    memcpy arr1 0 (drop (Z.to_nat sizeof_guint) (data ++ past))
      (Z.to_nat len) in
  match rspamd_kv_storage_insert_internal key arr_data total flags expire
          clock st with
  | (st1, None) => (st1, false)
  | (st1, Some elt) =>
      (* Now set special data of element *)
      let st2 :=
        update_elt elt
          (λ e, set_flags (Z.lor (elt_flags e) KV_ELT_ARRAY) e) st1 in
      backend_insert key elt st2
  end.

(** The test of both array functions:
    [elt_num > (elt->size - sizeof (guint)) / es], for a stride [es]
    that is not zero. *)
Definition invalid_index (e : rspamd_kv_element) (es elt_num : Z) : bool :=
  elt_num >? to_gsize (elt_size e - sizeof_guint) / es.

(** The offset of [target] from [ELT_DATA (elt)]. *)
Definition target_offset (es elt_num : Z) : Z :=
  sizeof_guint + to_guint (es * elt_num).

(** [rspamd_kv_storage_set_array] *)
Definition rspamd_kv_storage_set_array (key : string) (elt_num : Z)
  (data : list byte) (len now clock : Z) (st : rspamd_kv_storage)
  : rspamd_kv_storage * result bool :=
  match rspamd_kv_storage_lookup key now clock st with
  | (st1, None) => (st1, Done false)
  | (st1, Some elt) =>
      match heap st1 !! elt with
      | None => (st1, Done false)
      | Some e =>
          if negb (has_flag KV_ELT_ARRAY e) then (st1, Done false)
          else
            match read_guint (elt_data e) with
            | None => (st1, Undefined OutOfBounds)
            | Some es =>
                if es =? 0 then (st1, Undefined DivisionByZero)
                else if invalid_index e es elt_num then (st1, Done false)
                else
                  let target := target_offset es elt_num in
                  if negb (len =? es) then (st1, Done false)
                  else if target + len >? elt_size e
                  then (st1, Undefined OutOfBounds)
                  else
                    let st2 :=
                      update_elt elt
                        (set_data (memcpy (elt_data e) (Z.to_nat target)
                                     data (Z.to_nat len))) st1 in
                    let '(st3, res) := backend_replace key elt st2 in
                    (st3, Done res)
            end
      end
  end.

(** [rspamd_kv_storage_get_array]: on [TRUE] the element, the offset of
    [*data] from its payload and [*len]. *)
Definition rspamd_kv_storage_get_array (key : string) (elt_num : Z)
  (now clock : Z) (st : rspamd_kv_storage)
  : rspamd_kv_storage * result (option (addr * Z * Z)) :=
  match rspamd_kv_storage_lookup key now clock st with
  | (st1, None) => (st1, Done None)
  | (st1, Some elt) =>
      match heap st1 !! elt with
      | None => (st1, Done None)
      | Some e =>
          if negb (has_flag KV_ELT_ARRAY e) then (st1, Done None)
          else
            match read_guint (elt_data e) with
            | None => (st1, Undefined OutOfBounds)
            | Some es =>
                if es =? 0 then (st1, Undefined DivisionByZero)
                else if invalid_index e es elt_num then (st1, Done None)
                else (st1, Done (Some (elt, target_offset es elt_num, es)))
            end
      end
  end.

(** The bytes a caller finds at the pointer [rspamd_kv_storage_get_array]
    returned, when they lie inside the payload. *)
Definition read_slot (e : rspamd_kv_element) (off len : Z)
  : option (list byte) :=
  if (0 <=? off) && (off + len <=? elt_size e)
  then Some (take (Z.to_nat len) (drop (Z.to_nat off) (elt_data e)))
  else None.

End Storage.

(** ** Instances used by the examples *)

(** A layout of the record header with 56 bytes. *)
#[export] Instance example_layout : Layout :=
  {| sizeof_elt := 56; sizeof_elt_range := conj eq_refl eq_refl |}.

(** The storage of the end-to-end scenarios: hashed cache, LRU expire, no
    backend. *)
Definition hash_lru_storage `{Layout} (max_elts max_memory : Z)
  : rspamd_kv_storage :=
  rspamd_kv_storage_new rspamd_kv_hash_new None (Some rspamd_lru_expire_new)
    max_elts max_memory.

(** A backend that accepts every write and defers it. *)
Definition deferring_backend : rspamd_kv_backend :=
  {| insert_func := λ _ _, (true, true);
     replace_func := λ _ _, (true, true);
     lookup_func := λ _, None;
     delete_func := λ _, true |}.

(** The payload the façade finds under a key, if any. *)
Definition lookup_value `{Layout} (key : string) (now clock : Z)
  (st : rspamd_kv_storage) : option (list byte) :=
  match rspamd_kv_storage_lookup key now clock st with
  | (st1, Some elt) => elt_data <$> heap st1 !! elt
  | (_, None) => None
  end.

(** An array element with stride 4 and two slots, as its payload is laid
    out: the stride, then the slots. *)
Definition array_payload : list byte :=
  guint_bytes 4 ++ [x00; x00; x00; x01; x00; x00; x00; x02].

Definition array_storage : rspamd_kv_storage :=
  fst (rspamd_kv_storage_insert "arr" array_payload 12 KV_ELT_ARRAY 10 0
         (hash_lru_storage 0 0)).

(** An array element whose stride field is zero. *)
Definition zero_stride_storage : rspamd_kv_storage :=
  fst (rspamd_kv_storage_insert "z"
         [x00; x00; x00; x00; x01; x02; x03; x04] 8 KV_ELT_ARRAY 10 0
         (hash_lru_storage 0 0)).

(** The records these two insertions leave in the heap. *)
Definition array_element : rspamd_kv_element :=
  {| elt_age := 0; elt_expire := 10; elt_flags := KV_ELT_ARRAY;
     elt_size := 12; elt_keylen := 3; elt_key := "arr";
     elt_data := array_payload |}.

Definition zero_stride_element : rspamd_kv_element :=
  {| elt_age := 0; elt_expire := 10; elt_flags := KV_ELT_ARRAY;
     elt_size := 8; elt_keylen := 1; elt_key := "z";
     elt_data := [x00; x00; x00; x00; x01; x02; x03; x04] |}.

(** A radix storage holding the address 10.0.0.1, whose [s_addr] is
    16777226 on a little-endian host. *)
Definition radix_storage : rspamd_kv_storage :=
  fst (rspamd_kv_storage_insert "10.0.0.1" [x76] 1 0 10 0
         (rspamd_kv_storage_new rspamd_kv_radix_new None
            (Some rspamd_lru_expire_new) 0 0)).

(** ** Predicates of the proofs *)

(** [index_shrinks st st']: from [st] to [st'] no record was allocated and
    no key was added to the cache index. *)
Definition index_shrinks (st st' : rspamd_kv_storage) : Prop :=
  length (heap st') = length (heap st)
  ∧ match cache st, cache st' with
    | HashCache h, HashCache h' => h' ⊆ h
    | RadixCache t, RadixCache t' => t' ⊆ t
    | _, _ => False
    end.

(** [same_limits st st']: the step from [st] to [st'] touched neither the
    counters, nor the bounds, nor the backend. *)
Definition same_limits (st st' : rspamd_kv_storage) : Prop :=
  elts st' = elts st ∧ memory st' = memory st
  ∧ max_elts st' = max_elts st ∧ max_memory st' = max_memory st
  ∧ backend st' = backend st.

(** Two records that differ in their flags at most. *)
Definition same_but_flags (e e' : rspamd_kv_element) : Prop :=
  elt_age e' = elt_age e ∧ elt_expire e' = elt_expire e
  ∧ elt_size e' = elt_size e ∧ elt_keylen e' = elt_keylen e
  ∧ elt_key e' = elt_key e ∧ elt_data e' = elt_data e.

(** The arguments of one call of Insert; [arg_time] is what [time (NULL)]
    returns during the call. *)
Record insert_args := mk_insert_args {
  arg_key : string;
  arg_data : list byte;
  arg_len : Z;
  arg_flags : Z;
  arg_expire : Z;
  arg_time : Z
}.

Definition insert_with `{Layout} (c : insert_args) (st : rspamd_kv_storage)
  : rspamd_kv_storage * bool :=
  rspamd_kv_storage_insert (arg_key c) (arg_data c) (arg_len c) (arg_flags c)
    (arg_expire c) (arg_time c) st.

(** Three Inserts in a row into the empty storage of the end-to-end
    scenarios; the final storage and the three results. *)
Definition three_inserts `{Layout} (max_elts max_memory : Z)
  (c1 c2 c3 : insert_args) : rspamd_kv_storage * (bool * bool * bool) :=
  let i1 := insert_with c1 (hash_lru_storage max_elts max_memory) in
  let i2 := insert_with c2 i1.1 in
  let i3 := insert_with c3 i2.1 in
  (i3.1, (i1.2, i2.2, i3.2)).

(** The three calls of scenario 1. *)
Definition scenario_a : insert_args :=
  {| arg_key := "a"; arg_data := [x31]; arg_len := 1; arg_flags := 0;
     arg_expire := 10; arg_time := 0 |}.
Definition scenario_b : insert_args :=
  {| arg_key := "b"; arg_data := [x32]; arg_len := 1; arg_flags := 0;
     arg_expire := 10; arg_time := 0 |}.
Definition scenario_c : insert_args :=
  {| arg_key := "c"; arg_data := [x33]; arg_len := 1; arg_flags := 0;
     arg_expire := 10; arg_time := 0 |}.

(** Two calls whose keys the hashed cache tells apart: the keys differ
    even when letter case is ignored. *)
Definition distinct_keys (c1 c2 : insert_args) : Prop :=
  strcase_fold (arg_key c1) ≠ strcase_fold (arg_key c2).

(** The element a call stored has not run out at [now], by the test of
    Lookup: it has no lifetime, or at most its lifetime has passed. *)
Definition live_at (c : insert_args) (now : Z) : Prop :=
  0 < arg_expire c → now - arg_time c ≤ arg_expire c.

(** Lookup at [now] returns the value the call stored. *)
Definition finds `{Layout} (c : insert_args) (now clock : Z)
  (st : rspamd_kv_storage) : Prop :=
  lookup_value (arg_key c) now clock st
  = Some (take (Z.to_nat (arg_len c)) (arg_data c)).

(** A storage whose queue holds an element that expires at time 5 and,
    behind it, one that expires at time 1000; and its two records. *)
Definition two_ages_storage : rspamd_kv_storage :=
  (rspamd_kv_storage_insert "new" [x32] 1 0 1000 0
     (rspamd_kv_storage_insert "old" [x31] 1 0 5 0
        (hash_lru_storage 0 0)).1).1.

Definition old_element : rspamd_kv_element :=
  {| elt_age := 0; elt_expire := 5; elt_flags := 0; elt_size := 1;
     elt_keylen := 3; elt_key := "old"; elt_data := [x31] |}.

Definition new_element : rspamd_kv_element :=
  {| elt_age := 0; elt_expire := 1000; elt_flags := 0; elt_size := 1;
     elt_keylen := 3; elt_key := "new"; elt_data := [x32] |}.

(** A storage with at most one element and a deferring backend, after the
    Insert of a key at time 0 that expires at time 5: the backend left
    the record [DIRTY]. *)
Definition dirty_storage : rspamd_kv_storage :=
  (rspamd_kv_storage_insert "k1" [x31] 1 0 5 0
     (rspamd_kv_storage_new rspamd_kv_hash_new (Some deferring_backend)
        (Some rspamd_lru_expire_new) 1 1000)).1.

Definition dirty_element : rspamd_kv_element :=
  {| elt_age := 0; elt_expire := 5; elt_flags := KV_ELT_DIRTY;
     elt_size := 1; elt_keylen := 2; elt_key := "k1"; elt_data := [x31] |}.

(** Scenario 4: the two slots the caller passes to InsertArray with
    stride 4, and the storage after that call on the empty store.  [past]
    is what memory holds behind the caller's buffer and [junk] what the
    fresh block held. *)
Definition scenario_array_data : list byte :=
  [x00; x00; x00; x01; x00; x00; x00; x02].

Definition inserted_array `{Layout} (past junk : list byte) (expire : Z)
  : rspamd_kv_storage * bool :=
  rspamd_kv_storage_insert_array "arr" 4 scenario_array_data past junk 8 0
    expire 0 (hash_lru_storage 0 0).

(** The stride field of the record at an address. *)
Definition stored_stride (st : rspamd_kv_storage) (a : addr) : option Z :=
  heap st !! a ≫= λ e, read_guint (elt_data e).

(** The flags and the lifetime of the record at an address. *)
Definition stored_flags (st : rspamd_kv_storage) (a : addr)
  : option (Z * Z) :=
  (λ e, (elt_flags e, elt_expire e)) <$> heap st !! a.

(** [same_bounds st st']: the step from [st] to [st'] kept the two bounds
    and the backend. *)
Definition same_bounds (st st' : rspamd_kv_storage) : Prop :=
  max_elts st' = max_elts st ∧ max_memory st' = max_memory st
  ∧ backend st' = backend st.

(** The flags Insert leaves on a record before the backend sees it. *)
Definition insert_flags (flags expire : Z) : Z :=
  if expire =? 0 then Z.lor flags KV_ELT_PERSISTENT else flags.

(** A storage with one element, room for one and no expire plug-in. *)
Definition full_storage : rspamd_kv_storage :=
  (rspamd_kv_storage_insert "a" [x31] 1 0 10 0
     (rspamd_kv_storage_new rspamd_kv_hash_new None None 1 1000)).1.

(** A backend that holds one record under the key [b1], stored at time 7
    with a lifetime of 5, and a storage over it whose cache is empty. *)
Definition backend_record : rspamd_kv_element :=
  {| elt_age := 7; elt_expire := 5; elt_flags := 0; elt_size := 1;
     elt_keylen := 2; elt_key := "b1"; elt_data := [x42] |}.

Definition serving_backend : rspamd_kv_backend :=
  {| insert_func := λ _ _, (true, false);
     replace_func := λ _ _, (true, false);
     lookup_func := λ k, if String.eqb k "b1" then Some backend_record
                         else None;
     delete_func := λ _, true |}.

Definition backed_storage : rspamd_kv_storage :=
  rspamd_kv_storage_new rspamd_kv_hash_new (Some serving_backend)
    (Some rspamd_lru_expire_new) 0 0.

(** The record a call of Insert leaves in a hashed cache without backend:
    everything as the caller gave it, the age at the clock and
    [PERSISTENT] added for a lifetime of zero. *)
Definition stored_element (c : insert_args) : rspamd_kv_element :=
  {| elt_age := arg_time c; elt_expire := arg_expire c;
     elt_flags := insert_flags (arg_flags c) (arg_expire c);
     elt_size := arg_len c; elt_keylen := to_guint (strlen (arg_key c));
     elt_key := arg_key c;
     elt_data := take (Z.to_nat (arg_len c)) (arg_data c) |}.

(** The storage an Insert leaves when the hashed cache, with index [h],
    did not hold the key, the queue was [q] and there is no backend: a
    new record at the next address, bound, queued at the tail and
    counted. *)
Definition after_fresh_insert `{Layout} (c : insert_args)
  (h : gmap string addr) (q : list addr) (st : rspamd_kv_storage)
  : rspamd_kv_storage :=
  {| cache := HashCache (<[strcase_fold (arg_key c) := length (heap st)]> h);
     backend := None;
     expire := Some (LruExpire (q ++ [length (heap st)]));
     elts := to_gsize (elts st + 1);
     memory := to_gsize (memory st + (arg_len c + sizeof_elt));
     max_elts := max_elts st; max_memory := max_memory st;
     heap := heap st ++ [stored_element c]; freed := freed st |}.

(** * Properties *)

(** ** What the primitives leave alone *)

Section Frame.
Context `{Layout}.

Lemma heap_cache_steal a st : heap (cache_steal a st) = heap st.
Proof.
  unfold cache_steal, rspamd_kv_hash_steal, rspamd_kv_radix_steal.
  repeat case_match; reflexivity.
Qed.

Lemma heap_expire_delete a st : heap (expire_delete a st) = heap st.
Proof. unfold expire_delete. repeat case_match; reflexivity. Qed.

Lemma heap_expire_insert a st : heap (expire_insert a st) = heap st.
Proof. unfold expire_insert. repeat case_match; reflexivity. Qed.

Lemma heap_lru_sweep l now st : heap (lru_sweep l now st) = heap st.
Proof.
  revert st. induction l as [|a l IH]; intros st; simpl; [done|].
  repeat case_match; try done.
  rewrite IH. simpl. by rewrite heap_expire_delete, heap_cache_steal.
Qed.

Lemma freed_cache_steal a st : freed (cache_steal a st) = freed st.
Proof.
  unfold cache_steal, rspamd_kv_hash_steal, rspamd_kv_radix_steal.
  repeat case_match; reflexivity.
Qed.

Lemma freed_expire_delete a st : freed (expire_delete a st) = freed st.
Proof. unfold expire_delete. repeat case_match; reflexivity. Qed.

Lemma queue_cache_steal a st : queue (cache_steal a st) = queue st.
Proof.
  unfold cache_steal, rspamd_kv_hash_steal, rspamd_kv_radix_steal.
  repeat case_match; reflexivity.
Qed.

Lemma queue_expire_delete a st :
  queue (expire_delete a st) = rspamd_lru_delete a (queue st).
Proof.
  unfold expire_delete, queue.
  destruct (expire st) as [[q]|] eqn:E; simpl; [done|by rewrite E].
Qed.

(** The sweep only ever adds to the freed addresses... *)
Lemma freed_lru_sweep l now st a :
  a ∈ freed st → a ∈ freed (lru_sweep l now st).
Proof.
  revert st. induction l as [|x l IH]; intros st Ha; simpl; [done|].
  repeat case_match; try done.
  apply IH. simpl. rewrite freed_expire_delete, freed_cache_steal. simpl.
  by apply elem_of_cons; right.
Qed.

(** ... and only ever takes elements off the queue. *)
Lemma queue_lru_sweep l now st a :
  a ∈ queue (lru_sweep l now st) → a ∈ queue st.
Proof.
  revert st. induction l as [|x l IH]; intros st; simpl; [done|].
  repeat case_match; try done.
  intros Ha. apply IH in Ha. revert Ha.
  change (queue (g_slice_free1 x ?s)) with (queue s).
  rewrite queue_expire_delete, queue_cache_steal.
  unfold rspamd_lru_delete. rewrite list_elem_of_filter. by intros [_ ?].
Qed.

End Frame.

(** ** Array elements *)

(** C10: for an [ARRAY] element whose stored stride is 0 both array
    functions reach the division by the stride, whatever the index: they
    have no test for a zero stride of their own. *)
Theorem array_zero_stride_divides_by_zero `{Layout}
  (key : string) (elt_num : Z) (data : list byte) (len now clock : Z)
  (st st1 : rspamd_kv_storage) (elt : addr) (e : rspamd_kv_element) :
  rspamd_kv_storage_lookup key now clock st = (st1, Some elt) →
  heap st1 !! elt = Some e →
  has_flag KV_ELT_ARRAY e = true →
  read_guint (elt_data e) = Some 0 →
  rspamd_kv_storage_get_array key elt_num now clock st
    = (st1, Undefined DivisionByZero)
  ∧ rspamd_kv_storage_set_array key elt_num data len now clock st
    = (st1, Undefined DivisionByZero).
Proof.
  intros Hl He Ha Hs.
  unfold rspamd_kv_storage_get_array, rspamd_kv_storage_set_array.
  rewrite Hl, He, Ha, Hs. simpl. done.
Qed.

Lemma array_zero_stride_divides_by_zero_witness :
  heap zero_stride_storage !! 0%nat = Some zero_stride_element
  ∧ rspamd_kv_storage_get_array "z" 1 0 0 zero_stride_storage
    = (zero_stride_storage, Undefined DivisionByZero)
  ∧ rspamd_kv_storage_set_array "z" 1 [x09] 1 0 0 zero_stride_storage
    = (zero_stride_storage, Undefined DivisionByZero).
Proof.
  split; [reflexivity|].
  apply (array_zero_stride_divides_by_zero "z" 1 [x09] 1 0 0
           zero_stride_storage zero_stride_storage 0%nat
           zero_stride_element);
    reflexivity.
Defined.

(** C6 (what the code does at the bound): the index test is [>], so the
    index equal to the number of slots [(size - 4) / stride] passes it;
    the slot it addresses ends past the payload.  [GetArray] returns a
    pointer to it and [SetArray] copies [stride] bytes there. *)
Theorem array_index_at_slot_count_accepted `{Layout}
  (key : string) (data : list byte) (now clock : Z)
  (st st1 : rspamd_kv_storage) (elt : addr) (e : rspamd_kv_element)
  (es : Z) :
  rspamd_kv_storage_lookup key now clock st = (st1, Some elt) →
  heap st1 !! elt = Some e →
  has_flag KV_ELT_ARRAY e = true →
  read_guint (elt_data e) = Some es →
  0 < es →
  sizeof_guint ≤ elt_size e < 2 ^ 64 →
  es * ((elt_size e - sizeof_guint) / es) < 2 ^ 32 →
  let n := (elt_size e - sizeof_guint) / es in
  rspamd_kv_storage_get_array key n now clock st
    = (st1, Done (Some (elt, sizeof_guint + es * n, es)))
  ∧ elt_size e < (sizeof_guint + es * n) + es
  ∧ rspamd_kv_storage_set_array key n data es now clock st
    = (st1, Undefined OutOfBounds).
Proof.
  intros Hl He Ha Hs Hes Hsz Hmul n.
  unfold sizeof_guint in *.
  assert (Hn : 0 ≤ n) by (apply Z.div_pos; lia).
  assert (Hg : to_gsize (elt_size e - 4) = elt_size e - 4).
  { unfold to_gsize. apply Z.mod_small. lia. }
  assert (Hidx : invalid_index e es n = false).
  { unfold invalid_index, sizeof_guint. rewrite Hg. fold n. rewrite Z.gtb_ltb.
    apply Z.ltb_irrefl. }
  assert (Hoff : target_offset es n = 4 + es * n).
  { unfold target_offset, to_guint, sizeof_guint. rewrite Z.mod_small; [done|].
    split; [apply Z.mul_nonneg_nonneg; lia|done]. }
  assert (Hout : elt_size e < 4 + es * n + es).
  { pose proof (Z.mul_succ_div_gt (elt_size e - 4) es Hes).
    fold n in H0. lia. }
  assert (Hz : (es =? 0) = false) by (apply Z.eqb_neq; lia).
  unfold rspamd_kv_storage_get_array, rspamd_kv_storage_set_array.
  rewrite Hl, He, Ha, Hs. simpl. rewrite Hz, Hidx, Hoff, Z.eqb_refl. simpl.
  split; [done|]. split; [done|].
  replace (4 + es * n + es >? elt_size e) with true; [done|].
  symmetry. rewrite Z.gtb_ltb. by apply Z.ltb_lt.
Qed.

Lemma array_index_at_slot_count_accepted_witness :
  rspamd_kv_storage_get_array "arr" 2 0 0 array_storage
    = (array_storage, Done (Some (0%nat, 12, 4)))
  ∧ rspamd_kv_storage_set_array "arr" 2 [x09; x09; x09; x09] 4 0 0
      array_storage
    = (array_storage, Undefined OutOfBounds).
Proof.
  edestruct (array_index_at_slot_count_accepted "arr" [x09; x09; x09; x09]
               0 0 array_storage array_storage 0%nat array_element 4)
    as (Hget & _ & Hset).
  - reflexivity.
  - reflexivity.
  - reflexivity.
  - reflexivity.
  - lia.
  - unfold sizeof_guint; simpl; lia.
  - reflexivity.
  - split; [exact Hget | exact Hset].
Defined.

(** ** The radix cache and the key 0.0.0.0 *)

Section IndexShrinks.
Context `{Layout}.

Lemma index_shrinks_refl st : index_shrinks st st.
Proof. split; [done|]. by destruct (cache st). Qed.

Lemma index_shrinks_trans st1 st2 st3 :
  index_shrinks st1 st2 → index_shrinks st2 st3 → index_shrinks st1 st3.
Proof.
  intros [Hl1 Hc1] [Hl2 Hc2]. split; [congruence|].
  destruct (cache st1), (cache st2), (cache st3); try done;
    by etrans.
Qed.

Lemma index_shrinks_same st st' :
  length (heap st') = length (heap st) → cache st' = cache st →
  index_shrinks st st'.
Proof. intros Hl Hc. split; [done|]. rewrite Hc. by destruct (cache st). Qed.

Lemma cache_expire_delete a st : cache (expire_delete a st) = cache st.
Proof. unfold expire_delete. repeat case_match; reflexivity. Qed.

Lemma cache_update_elt a f st : cache (update_elt a f st) = cache st.
Proof. unfold update_elt. repeat case_match; reflexivity. Qed.

Lemma length_heap_update_elt a f st :
  length (heap (update_elt a f st)) = length (heap st).
Proof.
  unfold update_elt. destruct (heap st !! a); simpl; [|done].
  by rewrite length_insert.
Qed.

Lemma index_shrinks_dispose a st : index_shrinks st (dispose a st).
Proof.
  apply index_shrinks_same; unfold dispose; repeat case_match;
    rewrite ?length_heap_update_elt, ?cache_update_elt; done.
Qed.

Lemma index_shrinks_cache_steal a st : index_shrinks st (cache_steal a st).
Proof.
  split; [by rewrite heap_cache_steal|].
  unfold cache_steal, rspamd_kv_hash_steal, rspamd_kv_radix_steal.
  destruct (cache st) as [h|t] eqn:Hc; destruct (heap st !! a); simpl;
    rewrite ?Hc; try done; apply delete_subseteq.
Qed.

Lemma index_shrinks_expire_delete a st : index_shrinks st (expire_delete a st).
Proof.
  apply index_shrinks_same;
    [by rewrite heap_expire_delete | apply cache_expire_delete].
Qed.

(** The four assignments around a steal in the expire step. *)
Lemma index_shrinks_release a m n st :
  index_shrinks st
    (expire_delete a (cache_steal a (set_elts n (set_memory m st)))).
Proof.
  eapply index_shrinks_trans; [|apply index_shrinks_expire_delete].
  eapply index_shrinks_trans; [|apply index_shrinks_cache_steal].
  by apply index_shrinks_same.
Qed.

Lemma index_shrinks_lru_sweep l now st : index_shrinks st (lru_sweep l now st).
Proof.
  revert st. induction l as [|a l IH]; intros st; simpl;
    [apply index_shrinks_refl|].
  repeat case_match; try apply index_shrinks_refl.
  eapply index_shrinks_trans; [|apply IH].
  eapply index_shrinks_trans; [apply index_shrinks_release|].
  by apply index_shrinks_same.
Qed.

Lemma index_shrinks_expire_step now forced st :
  index_shrinks st (expire_step now forced st).
Proof.
  unfold expire_step, rspamd_lru_expire_step.
  repeat case_match; try apply index_shrinks_refl.
  - eapply index_shrinks_trans; [apply index_shrinks_release|].
    apply index_shrinks_dispose.
  - eapply index_shrinks_trans; [|apply index_shrinks_lru_sweep].
    eapply index_shrinks_trans; [apply index_shrinks_cache_steal|].
    eapply index_shrinks_trans; [|apply index_shrinks_same; reflexivity].
    eapply index_shrinks_trans; [|apply index_shrinks_expire_delete].
    by apply index_shrinks_same.
Qed.

Lemma index_shrinks_limit_loop breach clock left steps st :
  index_shrinks st (limit_loop breach clock left steps st).1.
Proof.
  revert steps st. induction left as [|left IH]; intros steps st; simpl.
  - destruct (breach st); simpl;
      [apply index_shrinks_expire_step | apply index_shrinks_refl].
  - destruct (breach st); simpl; [|apply index_shrinks_refl].
    eapply index_shrinks_trans; [apply index_shrinks_expire_step | apply IH].
Qed.

Lemma index_shrinks_check_limits breach len clock st :
  index_shrinks st (check_limits breach len clock st).1.
Proof.
  unfold check_limits.
  destruct (max_memory st >? 0); [|apply index_shrinks_refl].
  destruct (len >? max_memory st); [apply index_shrinks_refl|].
  apply index_shrinks_limit_loop.
Qed.

End IndexShrinks.

Lemma rspamd_kv_radix_validate_zero : rspamd_kv_radix_validate "0.0.0.0" = 0.
Proof. reflexivity. Qed.

(** C9: in the radix cache the key 0.0.0.0 is a well-formed address whose
    value 0 is also what the validator returns for a key it rejects: the
    cache insert returns no element, the façade's Insert returns false, no
    record is allocated and the index gains no entry. *)
Theorem radix_insert_zero_address_refused `{Layout}
  (t : gmap Z addr) (data : list byte) (len flags expire clock : Z)
  (st : rspamd_kv_storage) :
  cache st = RadixCache t →
  inet_aton "0.0.0.0" = Some 0
  ∧ rspamd_kv_radix_validate "0.0.0.0" = 0
  ∧ rspamd_kv_radix_insert t "0.0.0.0" data len clock st = (st, None)
  ∧ ∃ st', rspamd_kv_storage_insert "0.0.0.0" data len flags expire clock st
           = (st', false)
     ∧ length (heap st') = length (heap st)
     ∧ ∃ t', cache st' = RadixCache t' ∧ t' ⊆ t.
Proof.
  intros Hc. split; [reflexivity|]. split; [reflexivity|].
  split; [reflexivity|].
  unfold rspamd_kv_storage_insert.
  pose proof (index_shrinks_check_limits (insert_breach len) len clock st)
    as Hs.
  destruct (check_limits (insert_breach len) len clock st) as [st1 [|]];
    simpl in Hs.
  - unfold insert_after_limits.
    set (st2 := match cache_lookup "0.0.0.0" st1 with
                | Some elt =>
                    dispose elt (cache_steal elt (expire_delete elt st1))
                | None => st1
                end).
    assert (Hs2 : index_shrinks st st2).
    { eapply index_shrinks_trans; [exact Hs|]. unfold st2.
      destruct (cache_lookup "0.0.0.0" st1); [|apply index_shrinks_refl].
      eapply index_shrinks_trans; [apply index_shrinks_expire_delete|].
      eapply index_shrinks_trans; [apply index_shrinks_cache_steal|].
      apply index_shrinks_dispose. }
    destruct Hs2 as [Hl2 Hc2]. rewrite Hc in Hc2.
    destruct (cache st2) as [|t2] eqn:Hst2; [done|].
    exists st2. unfold cache_insert. rewrite Hst2. simpl.
    split; [done|]. split; [done|]. by exists t2.
  - destruct Hs as [Hl1 Hc1]. rewrite Hc in Hc1.
    destruct (cache st1) as [|t1] eqn:Hst1; [done|].
    exists st1. split; [done|]. split; [done|]. by exists t1.
Qed.

Lemma radix_insert_zero_address_refused_witness :
  cache radix_storage = RadixCache {[ 16777226 := 0%nat ]}
  ∧ (rspamd_kv_storage_insert "0.0.0.0" [x76] 1 0 10 0 radix_storage).2
    = false.
Proof.
  split; [reflexivity|].
  destruct (radix_insert_zero_address_refused {[ 16777226 := 0%nat ]}
              [x76] 1 0 10 0 radix_storage eq_refl)
    as (_ & _ & _ & st' & Hi & _).
  by rewrite Hi.
Defined.

(** ** The counters *)

Section Counters.
Context `{Layout}.

Lemma check_limits_disabled breach len clock st :
  max_memory st = 0 → check_limits breach len clock st = (st, true).
Proof. intros Hm. unfold check_limits. by rewrite Hm. Qed.

Lemma same_limits_refl st : same_limits st st.
Proof. by repeat split. Qed.

Lemma same_limits_trans st1 st2 st3 :
  same_limits st1 st2 → same_limits st2 st3 → same_limits st1 st3.
Proof.
  unfold same_limits. intros (?&?&?&?&?) (?&?&?&?&?).
  repeat split; congruence.
Qed.

Lemma same_limits_update_elt a f st : same_limits st (update_elt a f st).
Proof. unfold update_elt. by destruct (heap st !! a). Qed.

Lemma same_limits_dispose a st : same_limits st (dispose a st).
Proof.
  unfold dispose. destruct (heap st !! a); [|apply same_limits_refl].
  destruct (has_flag _ _); [apply same_limits_update_elt|done].
Qed.

Lemma same_limits_cache_steal a st : same_limits st (cache_steal a st).
Proof.
  unfold cache_steal, rspamd_kv_hash_steal, rspamd_kv_radix_steal.
  by destruct (cache st), (heap st !! a).
Qed.

Lemma same_limits_expire_delete a st : same_limits st (expire_delete a st).
Proof. unfold expire_delete. by destruct (expire st) as [[q]|]. Qed.

Lemma same_limits_expire_insert a st : same_limits st (expire_insert a st).
Proof. unfold expire_insert. by destruct (expire st) as [[q]|]. Qed.

Lemma same_limits_backend_insert key a st :
  same_limits st (backend_insert key a st).1.
Proof.
  unfold backend_insert.
  destruct (backend st), (heap st !! a); try apply same_limits_refl.
  destruct (insert_func _ _ _) as [res [|]]; simpl;
    [apply same_limits_update_elt | apply same_limits_refl].
Qed.

Lemma update_elt_lookup a f st e :
  heap st !! a = Some e → heap (update_elt a f st) !! a = Some (f e).
Proof.
  intros He. unfold update_elt. rewrite He. simpl.
  apply list_lookup_insert_eq. by eapply lookup_lt_Some.
Qed.

Lemma backend_insert_lookup key a st e :
  heap st !! a = Some e →
  ∃ e', heap (backend_insert key a st).1 !! a = Some e'
        ∧ same_but_flags e e'.
Proof.
  intros He. unfold backend_insert. rewrite He.
  destruct (backend st) as [b|]; [|by exists e].
  destruct (insert_func b key e) as [res [|]]; simpl; [|by exists e].
  eexists. split; [by apply update_elt_lookup|done].
Qed.

Lemma cache_backend_insert key a st :
  cache (backend_insert key a st).1 = cache st.
Proof.
  unfold backend_insert.
  destruct (backend st), (heap st !! a); try done.
  destruct (insert_func _ _ _) as [res [|]]; simpl; [|done].
  apply cache_update_elt.
Qed.

Lemma cache_expire_insert a st : cache (expire_insert a st) = cache st.
Proof. unfold expire_insert. by destruct (expire st) as [[q]|]. Qed.

(** The hashed cache always inserts: the key is bound to a new record
    holding the key and the first [len] bytes of the value. *)
Lemma cache_insert_hash key data len clock st h :
  cache st = HashCache h →
  ∃ st' a h',
    cache_insert key data len clock st = (st', Some a)
    ∧ cache st' = HashCache h'
    ∧ h' !! strcase_fold key = Some a
    ∧ heap st' !! a = Some (hash_new_element key data len clock)
    ∧ same_limits st st'.
Proof.
  intros Hc. unfold cache_insert, rspamd_kv_hash_insert. rewrite Hc.
  destruct (h !! strcase_fold key) as [old|].
  - eexists _, _, _. unfold alloc. simpl. split; [done|].
    split; [done|]. split; [apply lookup_insert_eq|].
    split; [by apply list_lookup_middle|].
    apply (same_limits_dispose old st).
  - eexists _, _, _. unfold alloc. simpl. split; [done|].
    split; [done|]. split; [apply lookup_insert_eq|].
    split; [by apply list_lookup_middle|done].
Qed.

(** The façade's removal of a duplicate keeps the kind of the cache. *)
Lemma duplicate_removal_frame key st :
  let st2 := match cache_lookup key st with
             | Some elt => dispose elt (cache_steal elt (expire_delete elt st))
             | None => st
             end in
  same_limits st st2 ∧ index_shrinks st st2.
Proof.
  simpl. destruct (cache_lookup key st) as [elt|];
    [|split; [apply same_limits_refl | apply index_shrinks_refl]].
  split.
  - eapply same_limits_trans; [apply same_limits_expire_delete|].
    eapply same_limits_trans; [apply same_limits_cache_steal|].
    apply same_limits_dispose.
  - eapply index_shrinks_trans; [apply index_shrinks_expire_delete|].
    eapply index_shrinks_trans; [apply index_shrinks_cache_steal|].
    apply index_shrinks_dispose.
Qed.

(** Past the limits block, Insert on a hashed cache binds the key to a
    new record and counts it, whether or not the key was there. *)
Lemma insert_after_limits_hash key data len flags expire clock st h :
  cache st = HashCache h →
  ∃ st' res a e h',
    insert_after_limits key data len flags expire clock st = (st', res)
    ∧ elts st' = to_gsize (elts st + 1)
    ∧ memory st' = to_gsize (memory st + (len + sizeof_elt))
    ∧ max_memory st' = max_memory st
    ∧ max_elts st' = max_elts st
    ∧ cache st' = HashCache h'
    ∧ h' !! strcase_fold key = Some a
    ∧ heap st' !! a = Some e
    ∧ elt_size e = len
    ∧ elt_data e = take (Z.to_nat len) data
    ∧ (backend st = None → res = true).
Proof.
  intros Hc. unfold insert_after_limits.
  destruct (duplicate_removal_frame key st) as [Hl2 Hs2].
  set (st2 := match cache_lookup key st with
              | Some elt => dispose elt (cache_steal elt (expire_delete elt st))
              | None => st
              end) in *.
  destruct Hs2 as [_ Hc2]. rewrite Hc in Hc2.
  destruct (cache st2) as [h2|] eqn:Hst2; [|done].
  destruct (cache_insert_hash key data len clock st2 h2 Hst2)
    as (st3 & a & h3 & -> & Hc3 & Hh3 & He3 & Hl3).
  set (upd := λ e : rspamd_kv_element, _).
  pose proof (update_elt_lookup a upd st3 _ He3) as He4.
  destruct (backend_insert_lookup key a _ _ He4) as (e5 & He5 & Hsame).
  pose proof (same_limits_backend_insert key a (update_elt a upd st3)) as Hl5.
  pose proof (cache_backend_insert key a (update_elt a upd st3)) as Hc5.
  assert (Hres : backend st = None →
                 (backend_insert key a (update_elt a upd st3)).2 = true).
  { intros Hb. unfold backend_insert.
    replace (backend (update_elt a upd st3)) with (backend st); [by rewrite Hb|].
    destruct Hl2 as (_&_&_&_&<-). destruct Hl3 as (_&_&_&_&<-).
    by destruct (same_limits_update_elt a upd st3) as (_&_&_&_&->). }
  destruct (backend_insert key a (update_elt a upd st3)) as [st5 res].
  simpl in *.
  pose proof (same_limits_expire_insert a st5) as Hl6.
  pose proof (same_limits_update_elt a upd st3) as Hl4.
  assert (Hall : same_limits st (expire_insert a st5)).
  { repeat (eapply same_limits_trans; [eassumption|]). apply same_limits_refl. }
  destruct Hall as (He & Hmem & Hmaxe & Hmax & _).
  exists (set_memory
            (to_gsize (memory (expire_insert a st5) + (len + sizeof_elt)))
            (set_elts (to_gsize (elts (expire_insert a st5) + 1))
               (expire_insert a st5))),
    res, a, e5, h3.
  simpl. rewrite He, Hmem, Hmax, Hmaxe, heap_expire_insert, cache_expire_insert.
  rewrite Hc5, cache_update_elt.
  destruct Hsame as (_ & _ & Hsz & _ & _ & Hdata).
  repeat split; try done.
  - rewrite Hsz. unfold upd. by destruct (expire =? 0).
  - rewrite Hdata. unfold upd. by destruct (expire =? 0).
Qed.

(** With the limits switched off, Insert is what follows the block. *)
Lemma insert_unlimited_hash key data len flags expire clock st h :
  max_memory st = 0 → cache st = HashCache h →
  ∃ st' res a e h',
    rspamd_kv_storage_insert key data len flags expire clock st = (st', res)
    ∧ elts st' = to_gsize (elts st + 1)
    ∧ memory st' = to_gsize (memory st + (len + sizeof_elt))
    ∧ max_memory st' = 0
    ∧ cache st' = HashCache h'
    ∧ h' !! strcase_fold key = Some a
    ∧ heap st' !! a = Some e
    ∧ elt_size e = len
    ∧ elt_data e = take (Z.to_nat len) data
    ∧ (backend st = None → res = true).
Proof.
  intros Hm Hc. unfold rspamd_kv_storage_insert.
  rewrite check_limits_disabled by done.
  destruct (insert_after_limits_hash key data len flags expire clock st h Hc)
    as (st' & res & a & e & h' & Hi & ? & ? & Hmax & ? & ? & ? & ? & ? & ? & ?).
  exists st', res, a, e, h'. rewrite Hmax, Hm in *. by repeat split.
Qed.

End Counters.

(** C1 (what the code does): two successful Inserts of one key leave the
    key bound to a single record, the second one, but both are counted:
    the removal of the duplicate touches neither [elts] nor [memory]. *)
Theorem insert_twice_counts_twice `{Layout}
  (key : string) (d1 d2 : list byte) (len1 len2 f1 f2 x1 x2 c1 c2 : Z)
  (st : rspamd_kv_storage) (h : gmap string addr) :
  max_memory st = 0 → cache st = HashCache h →
  ∃ st1 r1 st2 r2 a e,
    rspamd_kv_storage_insert key d1 len1 f1 x1 c1 st = (st1, r1)
    ∧ rspamd_kv_storage_insert key d2 len2 f2 x2 c2 st1 = (st2, r2)
    ∧ cache_lookup key st2 = Some a
    ∧ heap st2 !! a = Some e
    ∧ elt_data e = take (Z.to_nat len2) d2
    ∧ elts st2 = to_gsize (elts st + 2)
    ∧ memory st2
      = to_gsize (memory st + (len1 + sizeof_elt) + (len2 + sizeof_elt)).
Proof.
  intros Hm Hc.
  destruct (insert_unlimited_hash key d1 len1 f1 x1 c1 st h Hm Hc)
    as (st1 & r1 & a1 & e1 & h1 & Hi1 & He1 & Hm1 & Hmax1 & Hc1 & _).
  destruct (insert_unlimited_hash key d2 len2 f2 x2 c2 st1 h1 Hmax1 Hc1)
    as (st2 & r2 & a2 & e2 & h2 & Hi2 & He2 & Hm2 & _ & Hc2 & Hh2 & Hp2
        & _ & Hd2 & _).
  exists st1, r1, st2, r2, a2, e2.
  repeat split; try done.
  - unfold cache_lookup. by rewrite Hc2.
  - rewrite He2, He1. unfold to_gsize. rewrite Zplus_mod_idemp_l.
    f_equal. lia.
  - rewrite Hm2, Hm1. unfold to_gsize. rewrite Zplus_mod_idemp_l.
    f_equal.
Qed.

Lemma insert_twice_counts_twice_witness :
  max_memory (hash_lru_storage 0 0) = 0
  ∧ cache (hash_lru_storage 0 0) = HashCache ∅
  ∧ ∃ st1 r1 st2 r2 a e,
      rspamd_kv_storage_insert "k" [x76] 1 0 10 0 (hash_lru_storage 0 0)
        = (st1, r1)
      ∧ rspamd_kv_storage_insert "k" [x76] 1 0 10 0 st1 = (st2, r2)
      ∧ cache_lookup "k" st2 = Some a
      ∧ heap st2 !! a = Some e
      ∧ elt_data e = take (Z.to_nat 1) [x76]
      ∧ elts st2 = to_gsize (elts (hash_lru_storage 0 0) + 2)
      ∧ memory st2
        = to_gsize (memory (hash_lru_storage 0 0) + (1 + sizeof_elt)
                    + (1 + sizeof_elt)).
Proof.
  split; [reflexivity|]. split; [reflexivity|].
  apply (insert_twice_counts_twice "k" [x76] [x76] 1 1 0 0 10 10 0 0
           (hash_lru_storage 0 0) ∅); reflexivity.
Defined.

(** Scenario 5 on the code: after the two Inserts into the empty store the
    index and the queue hold the second record only and the first was
    freed, while [elts] is 2 and [memory] holds two copies. *)
Example insert_twice_fresh_store `{Layout} :
  let st2 :=
    (rspamd_kv_storage_insert "k" [x76] 1 0 10 0
       (rspamd_kv_storage_insert "k" [x76] 1 0 10 0
          (hash_lru_storage 0 0)).1).1 in
  cache st2 = HashCache {[ "k" := 1%nat ]}
  ∧ queue st2 = [1%nat]
  ∧ freed st2 = [0%nat]
  ∧ elts st2 = 2.
Proof. vm_compute. done. Qed.

(** C2 (what the code does): Insert adds [len] and the record overhead to
    [memory], Delete takes [elt->size] off only, so an Insert followed by
    the Delete of the same key leaves the overhead behind. *)
Theorem delete_leaves_record_overhead `{Layout}
  (key : string) (data : list byte) (len flags expire clock : Z)
  (st : rspamd_kv_storage) (h : gmap string addr) :
  max_memory st = 0 → cache st = HashCache h →
  0 ≤ memory st < 2 ^ 64 →
  ∃ st1 r1 st2 a,
    rspamd_kv_storage_insert key data len flags expire clock st = (st1, r1)
    ∧ rspamd_kv_storage_delete key st1 = (st2, Some a)
    ∧ elts st2 = to_gsize (elts st)
    ∧ memory st2 = to_gsize (memory st + sizeof_elt)
    ∧ memory st2 ≠ memory st.
Proof.
  intros Hm Hc Hrange.
  destruct (insert_unlimited_hash key data len flags expire clock st h Hm Hc)
    as (st1 & r1 & a & e & h1 & Hi1 & He1 & Hm1 & _ & Hc1 & Hh1 & Hp1
        & Hsz & _).
  exists st1, r1. unfold rspamd_kv_storage_delete, cache_delete,
    rspamd_kv_hash_delete.
  rewrite Hc1, Hh1.
  destruct (same_limits_expire_delete a
              (set_cache (HashCache (g_hash_table_steal key h1)) st1))
    as (Hel & Hmem & _).
  eexists _, a. split; [done|]. split; [done|]. simpl.
  rewrite heap_expire_delete. simpl. rewrite Hp1. simpl.
  rewrite Hel, Hmem. simpl. rewrite He1, Hm1, Hsz.
  assert (Hmemeq : to_gsize (to_gsize (memory st + (len + sizeof_elt)) - len)
                   = to_gsize (memory st + sizeof_elt)).
  { unfold to_gsize. rewrite Zminus_mod_idemp_l. f_equal. lia. }
  rewrite Hmemeq. split; [|split; [done|]].
  - unfold to_gsize. rewrite Zminus_mod_idemp_l. f_equal. lia.
  - pose proof sizeof_elt_range as Hs. unfold to_gsize.
    change (2 ^ 64) with 18446744073709551616 in *.
    change (2 ^ 32) with 4294967296 in *.
    intros Heq. revert Heq Hs Hrange.
    generalize (memory st) sizeof_elt. intros m s.
    Z.div_mod_to_equations. lia.
Qed.

Lemma delete_leaves_record_overhead_witness :
  max_memory (hash_lru_storage 0 0) = 0
  ∧ cache (hash_lru_storage 0 0) = HashCache ∅
  ∧ 0 ≤ memory (hash_lru_storage 0 0) < 2 ^ 64
  ∧ ∃ st1 r1 st2 a,
      rspamd_kv_storage_insert "k" [x76] 1 0 10 0 (hash_lru_storage 0 0)
        = (st1, r1)
      ∧ rspamd_kv_storage_delete "k" st1 = (st2, Some a)
      ∧ elts st2 = to_gsize (elts (hash_lru_storage 0 0))
      ∧ memory st2
        = to_gsize (memory (hash_lru_storage 0 0) + sizeof_elt)
      ∧ memory st2 ≠ memory (hash_lru_storage 0 0).
Proof.
  split; [reflexivity|]. split; [reflexivity|].
  split; [simpl; lia|].
  apply (delete_leaves_record_overhead "k" [x76] 1 0 10 0
           (hash_lru_storage 0 0) ∅); [reflexivity | reflexivity |].
  simpl; lia.
Defined.

(** The same on the empty store, for the layout of the examples: the
    Delete leaves [memory] at the size of one record header, with no
    element in the cache. *)
Example insert_delete_fresh_store :
  let st1 :=
    (rspamd_kv_storage_insert "k" [x76] 1 0 10 0 (hash_lru_storage 0 0)).1 in
  let st2 := (rspamd_kv_storage_delete "k" st1).1 in
  cache st2 = HashCache ∅ ∧ elts st2 = 0 ∧ memory st2 = sizeof_elt.
Proof. by vm_compute. Qed.

(** ** The limits *)

Section Limits.
Context `{Layout}.

Lemma limit_loop_done breach clock left steps st :
  breach st = false → limit_loop breach clock left steps st = (st, true).
Proof. intros Hb. destruct left; simpl; by rewrite Hb. Qed.

Lemma limit_loop_step breach clock left steps st :
  breach st = true →
  limit_loop breach clock (S left) steps st
  = limit_loop breach clock left (steps + 1) (expire_step clock steps st).
Proof. intros Hb. simpl. by rewrite Hb. Qed.

(** Under a memory bound that the value fits and no breach, Insert goes
    straight to the cache. *)
Lemma insert_within_limits key data len flags expire clock st :
  0 < max_memory st → len ≤ max_memory st →
  insert_breach len st = false →
  rspamd_kv_storage_insert key data len flags expire clock st
  = insert_after_limits key data len flags expire clock st.
Proof.
  intros Hpos Hlen Hb. unfold rspamd_kv_storage_insert, check_limits.
  replace (max_memory st >? 0) with true
    by (symmetry; rewrite Z.gtb_ltb; by apply Z.ltb_lt).
  replace (len >? max_memory st) with false
    by (symmetry; rewrite Z.gtb_ltb; by apply Z.ltb_ge).
  by rewrite limit_loop_done.
Qed.

(** A breach that one expire step repairs. *)
Lemma insert_after_one_step key data len flags expire clock st :
  0 < max_memory st → len ≤ max_memory st →
  insert_breach len st = true →
  insert_breach len (expire_step clock 0 st) = false →
  rspamd_kv_storage_insert key data len flags expire clock st
  = insert_after_limits key data len flags expire clock
      (expire_step clock 0 st).
Proof.
  intros Hpos Hlen Hb Hb'. unfold rspamd_kv_storage_insert, check_limits.
  replace (max_memory st >? 0) with true
    by (symmetry; rewrite Z.gtb_ltb; by apply Z.ltb_lt).
  replace (len >? max_memory st) with false
    by (symmetry; rewrite Z.gtb_ltb; by apply Z.ltb_ge).
  unfold MAX_EXPIRE_STEPS. rewrite limit_loop_step by done.
  by rewrite limit_loop_done.
Qed.

(** The second block of the step: a head that is neither pinned nor
    expired is the victim. *)
Lemma expire_step_evicts_head now st a q e :
  expire st = Some (LruExpire (a :: q)) →
  heap st !! a = Some e →
  pinned e = false →
  0 < elt_expire e - (now - elt_age e) →
  expire_step now 0 st
  = dispose a
      (expire_delete a
         (cache_steal a
            (set_elts (to_gsize (elts st - 1))
               (set_memory (to_gsize (memory st - ELT_SIZE e)) st)))).
Proof.
  intros Hq He Hp Hd. unfold expire_step, rspamd_lru_expire_step.
  rewrite Hq, He, Hp. simpl.
  replace (elt_expire e - (now - elt_age e) >? 0) with true; [done|].
  symmetry. rewrite Z.gtb_ltb. by apply Z.ltb_lt.
Qed.

Lemma same_limits_evict a st :
  same_limits st (dispose a (expire_delete a (cache_steal a st))).
Proof.
  eapply same_limits_trans; [apply same_limits_cache_steal|].
  eapply same_limits_trans; [apply same_limits_expire_delete|].
  apply same_limits_dispose.
Qed.

(** The counters past the limits block, as projections. *)
Lemma insert_after_limits_counters key data len flags expire clock st h :
  cache st = HashCache h →
  let st' := (insert_after_limits key data len flags expire clock st).1 in
  memory st' = to_gsize (memory st + (len + sizeof_elt))
  ∧ max_memory st' = max_memory st
  ∧ ∃ h', cache st' = HashCache h'.
Proof.
  intros Hc.
  destruct (insert_after_limits_hash key data len flags expire clock st h Hc)
    as (st' & res & a & e & h' & -> & _ & Hm & Hmax & _ & Hc' & _).
  simpl. split; [done|]. split; [done|]. by exists h'.
Qed.

End Limits.

(** ** The expire step *)

Section ExpireStep.
Context `{Layout}.

Lemma cache_lookup_cache st st' key :
  cache st' = cache st → cache_lookup key st' = cache_lookup key st.
Proof. intros Hc. unfold cache_lookup. by rewrite Hc. Qed.

Lemma cache_lookup_steal a e st :
  heap st !! a = Some e → cache_lookup (elt_key e) (cache_steal a st) = None.
Proof.
  intros He. unfold cache_lookup, cache_steal, rspamd_kv_hash_steal,
    rspamd_kv_radix_steal.
  destruct (cache st); rewrite He; simpl.
  - apply lookup_delete_eq.
  - apply lookup_delete_eq.
Qed.

Lemma cache_lookup_shrinks st st' key :
  index_shrinks st st' → cache_lookup key st = None →
  cache_lookup key st' = None.
Proof.
  intros [_ Hc]. unfold cache_lookup.
  destruct (cache st), (cache st'); try done;
    unfold rspamd_kv_hash_lookup, rspamd_kv_radix_lookup, radix32tree_find;
    intros Hn; by eapply lookup_weaken_None.
Qed.

(** The first block of the step on a head that is expired: the head is
    stolen, uncounted, unlinked and freed, and the sweep starts. *)
Lemma expire_step_expired_head now forced st h q eh :
  expire st = Some (LruExpire (h :: q)) →
  heap st !! h = Some eh →
  (forced ≠ 0 ∨ pinned eh = false) →
  elt_age eh + elt_expire eh ≤ now →
  let st5 :=
    g_slice_free1 h
      (expire_delete h
         (set_elts (to_gsize (elts (cache_steal h st) - 1))
            (set_memory (to_gsize (memory (cache_steal h st) - ELT_SIZE eh))
               (cache_steal h st)))) in
  expire_step now forced st = lru_sweep (queue st5) now st5.
Proof.
  intros Hq Hh Hrel Hexp. unfold expire_step, rspamd_lru_expire_step.
  rewrite Hq, Hh.
  replace (negb (forced =? 0) || negb (pinned eh)) with true.
  - replace (elt_expire eh - (now - elt_age eh) >? 0) with false; [done|].
    symmetry. rewrite Z.gtb_ltb. apply Z.ltb_ge. lia.
  - symmetry. apply orb_true_iff. destruct Hrel as [Hf | ->]; [left|by right].
    apply negb_true_iff. by apply Z.eqb_neq.
Qed.

(** One round of the sweep. *)
Lemma lru_sweep_cons elt l now st e :
  heap st !! elt = Some e →
  lru_sweep (elt :: l) now st
  = if pinned e || (elt_expire e <? now - elt_age e) then st
    else
      lru_sweep l now
        (g_slice_free1 elt
           (expire_delete elt
              (cache_steal elt
                 (set_elts (to_gsize (elts st - 1))
                    (set_memory (to_gsize (memory st - ELT_SIZE e)) st))))).
Proof. intros He. simpl. by rewrite He. Qed.

End ExpireStep.

(** C4 (what the code does): after an expired head the sweep leaves the
    loop at a successor with [elt->expire < now - elt->age], that is at an
    expired one, and releases those that are not: an unpinned successor
    that has not expired yet is freed and leaves queue and cache, while a
    successor that has expired stops the sweep and stays. *)
Theorem expire_step_sweep_inverted `{Layout}
  (now forced : Z) (st : rspamd_kv_storage) (h x : addr) (rest : list addr)
  (eh ex : rspamd_kv_element) :
  expire st = Some (LruExpire (h :: x :: rest)) →
  heap st !! h = Some eh →
  heap st !! x = Some ex →
  h ≠ x →
  (forced ≠ 0 ∨ pinned eh = false) →
  elt_age eh + elt_expire eh ≤ now →
  let st' := expire_step now forced st in
  (pinned ex = false → now < elt_age ex + elt_expire ex →
   (x ∉ queue st') ∧ x ∈ freed st'
   ∧ cache_lookup (elt_key ex) st' = None)
  ∧ (elt_age ex + elt_expire ex < now →
     queue st' = x :: rspamd_lru_delete h rest
     ∧ freed st' = h :: freed st).
Proof.
  intros Hq Hh Hx Hne Hrel Hexp st'.
  pose proof (expire_step_expired_head now forced st h (x :: rest) eh
                Hq Hh Hrel Hexp) as Hstep.
  simpl in Hstep. fold st' in Hstep.
  set (st5 := g_slice_free1 h _) in Hstep.
  assert (Hq5 : queue st5 = x :: rspamd_lru_delete h rest).
  { unfold st5. change (queue (g_slice_free1 h ?s)) with (queue s).
    rewrite queue_expire_delete.
    change (queue (set_elts ?n (set_memory ?k ?s))) with (queue s).
    rewrite queue_cache_steal. unfold queue. rewrite Hq.
    unfold rspamd_lru_delete. rewrite filter_cons.
    destruct (decide (h ≠ h)) as [?|_]; [done|].
    rewrite filter_cons. destruct (decide (x ≠ h)) as [_|Hn]; [done|].
    exfalso. apply Hn. congruence. }
  assert (Hh5 : heap st5 = heap st).
  { unfold st5. change (heap (g_slice_free1 h ?s)) with (heap s).
    rewrite heap_expire_delete.
    change (heap (set_elts ?n (set_memory ?k ?s))) with (heap s).
    apply heap_cache_steal. }
  assert (Hf5 : freed st5 = h :: freed st).
  { unfold st5. simpl. rewrite freed_expire_delete. simpl.
    by rewrite freed_cache_steal. }
  assert (Hx5 : heap st5 !! x = Some ex) by (by rewrite Hh5).
  clearbody st5.
  rewrite Hstep, Hq5, (lru_sweep_cons x _ now st5 ex Hx5). split.
  - intros Hp Hnew. rewrite Hp. simpl.
    replace (elt_expire ex <? now - elt_age ex) with false
      by (symmetry; apply Z.ltb_ge; lia).
    set (st6 := g_slice_free1 x _).
    split; [|split].
    + intros Hin. apply queue_lru_sweep in Hin. revert Hin. unfold st6.
      change (queue (g_slice_free1 x ?s)) with (queue s).
      rewrite queue_expire_delete. unfold rspamd_lru_delete.
      rewrite list_elem_of_filter. by intros [? _].
    + apply freed_lru_sweep. unfold st6. simpl. by apply elem_of_cons; left.
    + eapply cache_lookup_shrinks; [apply index_shrinks_lru_sweep|].
      unfold st6.
      rewrite (cache_lookup_cache (expire_delete x _) (g_slice_free1 x _))
        by reflexivity.
      rewrite (cache_lookup_cache (cache_steal x _) (expire_delete x _))
        by apply cache_expire_delete.
      by apply cache_lookup_steal.
  - intros Hold.
    replace (elt_expire ex <? now - elt_age ex) with true
      by (symmetry; apply Z.ltb_lt; lia).
    by rewrite orb_true_r.
Qed.

Lemma expire_step_sweep_inverted_witness :
  expire two_ages_storage = Some (LruExpire [0%nat; 1%nat])
  ∧ heap two_ages_storage !! 0%nat = Some old_element
  ∧ heap two_ages_storage !! 1%nat = Some new_element
  ∧ elt_age old_element + elt_expire old_element ≤ 10
  ∧ 10 < elt_age new_element + elt_expire new_element
  ∧ (1%nat ∉ queue (expire_step 10 0 two_ages_storage))
  ∧ 1%nat ∈ freed (expire_step 10 0 two_ages_storage)
  ∧ cache_lookup "new" (expire_step 10 0 two_ages_storage) = None.
Proof.
  split; [reflexivity|]. split; [reflexivity|]. split; [reflexivity|].
  split; [simpl; lia|]. split; [simpl; lia|].
  refine (proj1 (expire_step_sweep_inverted 10 0 two_ages_storage
                   0%nat 1%nat [] old_element new_element
                   eq_refl eq_refl eq_refl _ (or_intror eq_refl) _)
            eq_refl _).
  - discriminate.
  - simpl; lia.
  - simpl; lia.
Defined.

(** C5 (what the code does): the first block of the step frees its victim
    without looking at [DIRTY].  A forced step whose expired head is
    [DIRTY] hands the record to [g_slice_free1] and its flags stay as they
    were, [NEED_FREE] not set. *)
Theorem forced_step_frees_dirty_head `{Layout}
  (now forced : Z) (st : rspamd_kv_storage) (h : addr) (rest : list addr)
  (eh : rspamd_kv_element) :
  expire st = Some (LruExpire (h :: rest)) →
  heap st !! h = Some eh →
  has_flag KV_ELT_DIRTY eh = true →
  forced ≠ 0 →
  elt_age eh + elt_expire eh ≤ now →
  let st' := expire_step now forced st in
  h ∈ freed st' ∧ heap st' !! h = Some eh.
Proof.
  intros Hq Hh Hd Hf Hexp st'.
  pose proof (expire_step_expired_head now forced st h rest eh
                Hq Hh (or_introl Hf) Hexp) as Hstep.
  simpl in Hstep. fold st' in Hstep. rewrite Hstep. split.
  - apply freed_lru_sweep. simpl. by apply elem_of_cons; left.
  - rewrite heap_lru_sweep. simpl. rewrite heap_expire_delete. simpl.
    by rewrite heap_cache_steal.
Qed.

Lemma forced_step_frees_dirty_head_witness :
  expire dirty_storage = Some (LruExpire [0%nat])
  ∧ heap dirty_storage !! 0%nat = Some dirty_element
  ∧ has_flag KV_ELT_DIRTY dirty_element = true
  ∧ 0%nat ∈ freed (expire_step 10 1 dirty_storage)
  ∧ heap (expire_step 10 1 dirty_storage) !! 0%nat = Some dirty_element.
Proof.
  split; [reflexivity|]. split; [reflexivity|]. split; [reflexivity|].
  refine (forced_step_frees_dirty_head 10 1 dirty_storage 0%nat []
            dirty_element eq_refl eq_refl eq_refl _ _).
  - discriminate.
  - simpl; lia.
Defined.

(** The same through the façade: with the element bound reached, the
    Insert of a second key at time 10 runs the step twice, the second
    time forced, and the [DIRTY] record of the first key is freed. *)
Example insert_frees_dirty_element :
  let st' := (rspamd_kv_storage_insert "k2" [x32] 1 0 5 10 dirty_storage).1 in
  freed st' = [0%nat]
  ∧ (has_flag KV_ELT_DIRTY <$> heap st' !! 0%nat) = Some true
  ∧ (has_flag KV_ELT_NEED_FREE <$> heap st' !! 0%nat) = Some false.
Proof. by vm_compute. Qed.

(** ** InsertArray *)

(** C7 (what the code does): the copy of InsertArray goes from
    [data + sizeof (guint)] to the start of the temporary block, so the
    stride written there is overwritten by the second slot of the data.
    For the two slots of scenario 4 the stored stride is 0x02000000,
    whatever memory holds around the buffers: GetArray refuses index 1
    and for index 0 returns the length 0x02000000, not 4. *)
Theorem insert_array_overwrites_stride `{Layout} (past junk : list byte) :
  let st := (inserted_array past junk 0).1 in
  (inserted_array past junk 0).2 = true
  ∧ stored_stride st 0%nat = Some 33554432
  ∧ (rspamd_kv_storage_get_array "arr" 1 0 0 st).2 = Done None
  ∧ (rspamd_kv_storage_get_array "arr" 0 0 0 st).2
    = Done (Some (0%nat, 4, 33554432)).
Proof. vm_compute. repeat split; reflexivity. Qed.

(** ** Elements without expiry *)

Section Admission.
Context `{Layout}.

(** InsertInternal stores the flags and the lifetime as they come: with
    the limits switched off, on a hashed cache, the inserted record has
    the caller's [flags] and [expire] and nothing more. *)
Lemma insert_internal_stores_flags key data len flags expire clock st h :
  max_memory st = 0 → cache st = HashCache h →
  ∃ st' a e,
    rspamd_kv_storage_insert_internal key data len flags expire clock st
    = (st', Some a)
    ∧ heap st' !! a = Some e
    ∧ elt_flags e = flags ∧ elt_expire e = expire.
Proof.
  intros Hm Hc. unfold rspamd_kv_storage_insert_internal.
  rewrite check_limits_disabled by done.
  destruct (cache_insert_hash key data len clock st h Hc)
    as (st2 & a & h2 & -> & _ & _ & He2 & _).
  eexists _, a, _. split; [done|]. simpl.
  rewrite heap_expire_insert.
  split; [by apply update_elt_lookup|done].
Qed.

Lemma has_flag_lor_keeps mask f e :
  has_flag mask e = true →
  has_flag mask (set_flags (Z.lor (elt_flags e) f) e) = true.
Proof.
  unfold has_flag. simpl. rewrite !negb_true_iff, !Z.eqb_neq.
  intros Hm Hz. apply Hm. rewrite Z.land_lor_distr_l in Hz.
  by apply Z.lor_eq_0_iff in Hz as [? _].
Qed.

Lemma has_flag_lor_sets mask f e :
  mask ≠ 0 → has_flag mask (set_flags (Z.lor f mask) e) = true.
Proof.
  unfold has_flag. simpl. rewrite negb_true_iff, Z.eqb_neq.
  intros Hm Hz. rewrite Z.land_lor_distr_l, Z.land_diag in Hz.
  by apply Z.lor_eq_0_iff in Hz as [_ ?].
Qed.

(** Insert does add [PERSISTENT] for a lifetime of zero. *)
Lemma insert_sets_persistent key data len flags clock st h :
  cache st = HashCache h →
  ∃ st' res a e h',
    insert_after_limits key data len flags 0 clock st = (st', res)
    ∧ cache st' = HashCache h'
    ∧ h' !! strcase_fold key = Some a
    ∧ heap st' !! a = Some e
    ∧ has_flag KV_ELT_PERSISTENT e = true.
Proof.
  intros Hc. unfold insert_after_limits.
  destruct (duplicate_removal_frame key st) as [_ [_ Hc2]].
  set (st2 := match cache_lookup key st with
              | Some elt => dispose elt (cache_steal elt (expire_delete elt st))
              | None => st
              end) in *.
  rewrite Hc in Hc2. destruct (cache st2) as [h2|] eqn:Hst2; [|done].
  destruct (cache_insert_hash key data len clock st2 h2 Hst2)
    as (st3 & a & h3 & -> & Hc3 & Hh3 & He3 & _).
  set (upd := λ e : rspamd_kv_element, _).
  pose proof (update_elt_lookup a upd st3 _ He3) as He4.
  pose proof (cache_backend_insert key a (update_elt a upd st3)) as Hc5.
  assert (Hp4 : has_flag KV_ELT_PERSISTENT
                  (upd (hash_new_element key data len clock)) = true).
  { unfold upd. simpl. by apply has_flag_lor_sets. }
  assert (Hp : ∃ e, heap (backend_insert key a (update_elt a upd st3)).1 !! a
                    = Some e ∧ has_flag KV_ELT_PERSISTENT e = true).
  { unfold backend_insert. rewrite He4.
    destruct (backend (update_elt a upd st3)) as [b|]; [|by eexists].
    destruct (insert_func b key _) as [res [|]]; simpl; [|by eexists].
    eexists. split; [by apply update_elt_lookup|].
    by apply has_flag_lor_keeps. }
  destruct Hp as (e5 & He5 & Hp5).
  destruct (backend_insert key a (update_elt a upd st3)) as [st5 res].
  simpl in *. eexists _, res, a, e5, h3. split; [done|]. simpl.
  rewrite heap_expire_insert, cache_expire_insert, Hc5, cache_update_elt.
  by repeat split.
Qed.

End Admission.

(** C8 (what the code does): the record InsertArray inserts with
    [expire = 0] carries [ARRAY] and nothing else, since InsertInternal
    does not add [PERSISTENT]; an unforced expire step at any later time
    finds it unpinned and expired and releases it. *)
Theorem insert_array_without_expiry_is_evicted `{Layout}
  (past junk : list byte) (now : Z) :
  0 ≤ now →
  let st := (inserted_array past junk 0).1 in
  stored_flags st 0%nat = Some (KV_ELT_ARRAY, 0)
  ∧ cache_lookup "arr" st = Some 0%nat
  ∧ let st' := expire_step now 0 st in
    queue st' = [] ∧ freed st' = [0%nat] ∧ cache_lookup "arr" st' = None.
Proof.
  intros Hnow st.
  assert (Hf : stored_flags st 0%nat = Some (KV_ELT_ARRAY, 0))
    by (vm_compute; reflexivity).
  assert (Hfl : elt_flags <$> heap st !! 0%nat = Some KV_ELT_ARRAY)
    by (vm_compute; reflexivity).
  assert (Hex : elt_expire <$> heap st !! 0%nat = Some 0)
    by (vm_compute; reflexivity).
  assert (Hage : elt_age <$> heap st !! 0%nat = Some 0)
    by (vm_compute; reflexivity).
  assert (Hkey : elt_key <$> heap st !! 0%nat = Some "arr")
    by (vm_compute; reflexivity).
  assert (Hq : expire st = Some (LruExpire [0%nat]))
    by (vm_compute; reflexivity).
  assert (Hfr : freed st = []) by (vm_compute; reflexivity).
  split; [done|]. split; [vm_compute; reflexivity|].
  clear Hf.
  destruct (heap st !! 0%nat) as [e|] eqn:He; [|discriminate].
  simpl in Hfl, Hex, Hage, Hkey.
  assert (elt_flags e = KV_ELT_ARRAY ∧ elt_expire e = 0 ∧ elt_age e = 0
          ∧ elt_key e = "arr") as (Hfl' & Hex' & Hag & Hk)
    by (repeat split; congruence).
  clear Hfl Hex Hage Hkey.
  assert (Hp : pinned e = false).
  { unfold pinned, has_flag. by rewrite Hfl'. }
  pose proof (expire_step_expired_head now 0 st 0%nat [] e Hq He
                (or_intror Hp) ltac:(lia)) as Hstep.
  cbv zeta in Hstep. clearbody st. cbv zeta. rewrite Hstep. clear Hstep.
  set (st5 := g_slice_free1 0%nat _).
  assert (Hq5 : queue st5 = []).
  { unfold st5. change (queue (g_slice_free1 0%nat ?s)) with (queue s).
    rewrite queue_expire_delete.
    change (queue (set_elts ?n (set_memory ?k ?s))) with (queue s).
    rewrite queue_cache_steal. unfold queue. by rewrite Hq. }
  assert (Hf5 : freed st5 = [0%nat]).
  { unfold st5. simpl. rewrite freed_expire_delete. simpl.
    by rewrite freed_cache_steal, Hfr. }
  assert (Hc5 : cache_lookup "arr" st5 = None).
  { rewrite (cache_lookup_cache (cache_steal 0%nat st) st5 "arr").
    - rewrite <- Hk. by apply cache_lookup_steal.
    - unfold st5. simpl. by rewrite cache_expire_delete. }
  clearbody st5. rewrite Hq5. simpl. by rewrite Hq5, Hf5, Hc5.
Qed.

Lemma insert_array_without_expiry_is_evicted_witness :
  0 ≤ 1000000000
  ∧ let st := (inserted_array [x00; x00; x00; x00] [] 0).1 in
    stored_flags st 0%nat = Some (KV_ELT_ARRAY, 0)
    ∧ cache_lookup "arr" st = Some 0%nat
    ∧ let st' := expire_step 1000000000 0 st in
      queue st' = [] ∧ freed st' = [0%nat] ∧ cache_lookup "arr" st' = None.
Proof.
  split; [lia|].
  apply (insert_array_without_expiry_is_evicted [x00; x00; x00; x00] []
           1000000000).
  lia.
Defined.

(** Scenario 3 by contrast: the record Insert stores with [expire = 0] is
    [PERSISTENT] and an unforced step leaves it alone. *)
Example insert_without_expiry_stays `{Layout} :
  let st :=
    (rspamd_kv_storage_insert "p" [x31] 1 0 0 0 (hash_lru_storage 0 0)).1 in
  stored_flags st 0%nat = Some (KV_ELT_PERSISTENT, 0)
  ∧ queue (expire_step 1000000000 0 st) = [0%nat]
  ∧ freed (expire_step 1000000000 0 st) = [].
Proof. vm_compute. repeat split; reflexivity. Qed.

(** * Further properties of the façade *)

(** ** Lookup *)

(** What a Lookup answers when the cache holds the key. *)
Lemma lookup_hit_answer `{Layout}
  (key : string) (now clock : Z) (st : rspamd_kv_storage) (a : addr)
  (e : rspamd_kv_element) :
  cache_lookup key st = Some a →
  heap st !! a = Some e →
  (rspamd_kv_storage_lookup key now clock st).1 = st
  ∧ ((rspamd_kv_storage_lookup key now clock st).2 = Some a
     ∨ (rspamd_kv_storage_lookup key now clock st).2 = None)
  ∧ ((rspamd_kv_storage_lookup key now clock st).2 = Some a
     ↔ (has_flag KV_ELT_PERSISTENT e = true ∨ elt_expire e ≤ 0
        ∨ now - elt_age e ≤ elt_expire e)).
Proof.
  intros Hl He. unfold rspamd_kv_storage_lookup. rewrite Hl.
  rewrite He.
  destruct (has_flag KV_ELT_PERSISTENT e) eqn:Hp; simpl.
  { split; [done|]. split; [by left|]. split; [by left | done]. }
  destruct (elt_expire e >? 0) eqn:Hx; simpl.
  - destruct (now - elt_age e >? elt_expire e) eqn:Hn; simpl.
    + split; [done|]. split; [by right|].
      rewrite Z.gtb_ltb in Hx, Hn. apply Z.ltb_lt in Hx, Hn.
      split; [done|]. intros [?|[?|?]]; [done | lia | lia].
    + split; [done|]. split; [by left|]. split; [|done]. intros _.
      rewrite Z.gtb_ltb in Hn. apply Z.ltb_ge in Hn. by right; right.
  - split; [done|]. split; [by left|]. split; [|done]. intros _.
    rewrite Z.gtb_ltb in Hx. apply Z.ltb_ge in Hx. by right; left.
Qed.

(** A Lookup that finds the key in the cache leaves the storage as it is
    and does not evict: it answers with the element unless the element
    is not [PERSISTENT], has a lifetime and [now - age] exceeds it.  A
    clock that runs backwards never makes an element look expired. *)
Theorem lookup_cache_hit `{Layout}
  (key : string) (now clock : Z) (st : rspamd_kv_storage) (a : addr)
  (e : rspamd_kv_element) :
  cache_lookup key st = Some a →
  heap st !! a = Some e →
  (rspamd_kv_storage_lookup key now clock st).1 = st
  ∧ ((rspamd_kv_storage_lookup key now clock st).2 = Some a
     ∨ (rspamd_kv_storage_lookup key now clock st).2 = None)
  ∧ ((rspamd_kv_storage_lookup key now clock st).2 = Some a
     ↔ (has_flag KV_ELT_PERSISTENT e = true ∨ elt_expire e ≤ 0
        ∨ now - elt_age e ≤ elt_expire e)).
Proof. apply lookup_hit_answer. Qed.

Lemma lookup_cache_hit_witness :
  cache_lookup "arr" array_storage = Some 0%nat
  ∧ heap array_storage !! 0%nat = Some array_element
  ∧ (rspamd_kv_storage_lookup "arr" 11 0 array_storage).1 = array_storage
  ∧ ((rspamd_kv_storage_lookup "arr" 11 0 array_storage).2 = Some 0%nat
     ↔ (has_flag KV_ELT_PERSISTENT array_element = true
        ∨ elt_expire array_element ≤ 0
        ∨ 11 - elt_age array_element ≤ elt_expire array_element)).
Proof.
  split; [reflexivity|]. split; [reflexivity|].
  destruct (lookup_cache_hit "arr" 11 0 array_storage 0%nat array_element
              eq_refl eq_refl) as (H1 & _ & H2).
  split; [exact H1 | exact H2].
Defined.

(** ** Insert *)

Section InsertRecord.
Context `{Layout}.

(** The record Insert leaves under the key on a hashed cache: everything
    as the caller gave it, the age at the clock, [PERSISTENT] added for a
    lifetime of zero and [DIRTY] if the backend deferred the write. *)
Lemma insert_after_limits_record key data len flags expire clock st h :
  cache st = HashCache h →
  ∃ st' res a e h',
    insert_after_limits key data len flags expire clock st = (st', res)
    ∧ cache st' = HashCache h'
    ∧ h' !! strcase_fold key = Some a
    ∧ heap st' !! a = Some e
    ∧ elt_age e = clock ∧ elt_expire e = expire ∧ elt_size e = len
    ∧ elt_key e = key ∧ elt_data e = take (Z.to_nat len) data
    ∧ (elt_flags e = insert_flags flags expire
       ∨ elt_flags e = Z.lor (insert_flags flags expire) KV_ELT_DIRTY).
Proof.
  intros Hc. unfold insert_after_limits.
  destruct (duplicate_removal_frame key st) as [_ [_ Hc2]].
  set (st2 := match cache_lookup key st with
              | Some elt => dispose elt (cache_steal elt (expire_delete elt st))
              | None => st
              end) in *.
  rewrite Hc in Hc2. destruct (cache st2) as [h2|] eqn:Hst2; [|done].
  destruct (cache_insert_hash key data len clock st2 h2 Hst2)
    as (st3 & a & h3 & -> & Hc3 & Hh3 & He3 & _).
  set (upd := λ e : rspamd_kv_element, _).
  pose proof (update_elt_lookup a upd st3 _ He3) as He4.
  pose proof (cache_backend_insert key a (update_elt a upd st3)) as Hc5.
  set (e4 := upd (hash_new_element key data len clock)) in *.
  assert (Hf4 : elt_flags e4 = insert_flags flags expire).
  { unfold e4, upd, insert_flags. by destruct (expire =? 0). }
  assert (Hr4 : elt_age e4 = clock ∧ elt_expire e4 = expire
                ∧ elt_size e4 = len ∧ elt_key e4 = key
                ∧ elt_data e4 = take (Z.to_nat len) data).
  { unfold e4, upd. by destruct (expire =? 0). }
  assert (Hp : ∃ e, heap (backend_insert key a (update_elt a upd st3)).1 !! a
                    = Some e ∧ same_but_flags e4 e
                    ∧ (elt_flags e = elt_flags e4
                       ∨ elt_flags e = Z.lor (elt_flags e4) KV_ELT_DIRTY)).
  { unfold backend_insert. rewrite He4.
    destruct (backend (update_elt a upd st3)) as [b|];
      [|exists e4; split; [done|]; split; [done|by left]].
    destruct (insert_func b key e4) as [res [|]]; simpl;
      [|exists e4; split; [done|]; split; [done|by left]].
    eexists. split; [by apply update_elt_lookup|]. split; [done|by right]. }
  destruct Hp as (e5 & He5 & Hsame & Hfl).
  destruct (backend_insert key a (update_elt a upd st3)) as [st5 res].
  simpl in *. eexists _, res, a, e5, h3. split; [done|]. simpl.
  rewrite heap_expire_insert, cache_expire_insert, Hc5, cache_update_elt.
  destruct Hsame as (Ha & Hx & Hs & _ & Hk & Hd).
  destruct Hr4 as (Ha4 & Hx4 & Hs4 & Hk4 & Hd4).
  rewrite Hf4 in Hfl.
  repeat split; try done; congruence.
Qed.

(** An Insert that returns [TRUE] went through the limits block. *)
Lemma insert_true_inv key data len flags expire clock st st' :
  rspamd_kv_storage_insert key data len flags expire clock st = (st', true) →
  ∃ st1, check_limits (insert_breach len) len clock st = (st1, true)
         ∧ insert_after_limits key data len flags expire clock st1
           = (st', true).
Proof.
  unfold rspamd_kv_storage_insert.
  destruct (check_limits _ _ _ _) as [st1 [|]]; [|done].
  intros Hi. by exists st1.
Qed.

Lemma check_limits_keeps_hash breach len clock st h :
  cache st = HashCache h →
  ∃ h1, cache (check_limits breach len clock st).1 = HashCache h1.
Proof.
  intros Hc. destruct (index_shrinks_check_limits breach len clock st)
    as [_ Hs].
  rewrite Hc in Hs.
  destruct (cache (check_limits breach len clock st).1) as [h1|]; [|done].
  by exists h1.
Qed.

End InsertRecord.

(** After an Insert that returned [TRUE] into a hashed cache, a Lookup of
    the key answers with the first [len] bytes of the data, at any time
    for a lifetime of zero and up to [expire] seconds after the Insert
    otherwise, whatever limits, expire queue and backend the storage
    has. *)
Theorem insert_then_lookup `{Layout}
  (key : string) (data : list byte) (len flags expire clock now clock' : Z)
  (st st' : rspamd_kv_storage) (h : gmap string addr) :
  cache st = HashCache h →
  rspamd_kv_storage_insert key data len flags expire clock st = (st', true) →
  (0 < expire → now - clock ≤ expire) →
  lookup_value key now clock' st' = Some (take (Z.to_nat len) data).
Proof.
  intros Hc Hi Hlife.
  destruct (insert_true_inv _ _ _ _ _ _ _ _ Hi) as (st1 & Hcl & Hi1).
  destruct (check_limits_keeps_hash (insert_breach len) len clock st h Hc)
    as [h1 Hc1].
  rewrite Hcl in Hc1. simpl in Hc1.
  destruct (insert_after_limits_record key data len flags expire clock st1 h1
              Hc1)
    as (st2 & res & a & e & h2 & Hi2 & Hc2 & Hh2 & He & Hage & Hexp & _ & _
        & Hd & Hfl).
  rewrite Hi1 in Hi2. injection Hi2 as <- _.
  assert (Hlk : cache_lookup key st' = Some a).
  { unfold cache_lookup. by rewrite Hc2. }
  destruct (lookup_hit_answer key now clock' st' a e Hlk He)
    as (Hst & _ & Hiff).
  assert (Hr : (rspamd_kv_storage_lookup key now clock' st').2 = Some a).
  { apply Hiff. destruct (decide (expire = 0)) as [->|Hne].
    - left. unfold has_flag, insert_flags in *. simpl in Hfl.
      rewrite negb_true_iff, Z.eqb_neq. intros Hz.
      destruct Hfl as [Hfl|Hfl]; rewrite Hfl in Hz;
        rewrite ?Z.land_lor_distr_l, ?Z.land_diag in Hz;
        repeat (apply Z.lor_eq_0_iff in Hz as [Hz ?]); done.
    - right. destruct (decide (0 < expire)); [right|left]; lia. }
  unfold lookup_value.
  destruct (rspamd_kv_storage_lookup key now clock' st') as [st3 r].
  simpl in Hst, Hr. subst st3 r. rewrite He. simpl. by rewrite Hd.
Qed.

Lemma insert_then_lookup_witness :
  rspamd_kv_storage_insert "x" [x76] 1 0 5 0 (hash_lru_storage 2 1000)
  = ((rspamd_kv_storage_insert "x" [x76] 1 0 5 0
        (hash_lru_storage 2 1000)).1, true)
  ∧ lookup_value "x" 4 4
      (rspamd_kv_storage_insert "x" [x76] 1 0 5 0
         (hash_lru_storage 2 1000)).1
    = Some [x76].
Proof.
  split; [reflexivity|].
  apply (insert_then_lookup "x" [x76] 1 0 5 0 4 4 (hash_lru_storage 2 1000)
           _ ∅ eq_refl eq_refl).
  intros _. lia.
Defined.

(** ** Delete *)

Section DeleteFacts.
Context `{Layout}.

Lemma cache_delete_result key st :
  (cache_delete key st).2 = cache_lookup key st.
Proof.
  unfold cache_delete, cache_lookup, rspamd_kv_hash_delete,
    rspamd_kv_radix_delete, rspamd_kv_hash_lookup, rspamd_kv_radix_lookup,
    radix32tree_find.
  destruct (cache st) as [h|t]; by case_match.
Qed.

Lemma cache_delete_lookup key st :
  cache_lookup key (cache_delete key st).1 = None.
Proof.
  unfold cache_delete, cache_lookup, rspamd_kv_hash_delete,
    rspamd_kv_radix_delete, rspamd_kv_hash_lookup, rspamd_kv_radix_lookup,
    radix32tree_find, radix32tree_delete, g_hash_table_steal.
  destruct (cache st) as [h|t] eqn:Hc.
  - destruct (h !! strcase_fold key) eqn:Hk; simpl;
      [apply lookup_delete_eq | by rewrite Hc].
  - destruct (t !! rspamd_kv_radix_validate key) eqn:Hk; simpl;
      [apply lookup_delete_eq | by rewrite Hc].
Qed.

Lemma cache_delete_frame key st :
  let st1 := (cache_delete key st).1 in
  heap st1 = heap st ∧ freed st1 = freed st ∧ expire st1 = expire st
  ∧ same_limits st st1.
Proof.
  unfold cache_delete, rspamd_kv_hash_delete, rspamd_kv_radix_delete.
  destruct (cache st) as [h|t]; by case_match.
Qed.

End DeleteFacts.

(** The Delete of a key the cache does not hold answers absent and leaves
    the storage as it is. *)
Theorem delete_missing_key `{Layout}
  (key : string) (st : rspamd_kv_storage) :
  cache_lookup key st = None →
  rspamd_kv_storage_delete key st = (st, None).
Proof.
  intros Hl. unfold rspamd_kv_storage_delete.
  pose proof (cache_delete_result key st) as Hr. rewrite Hl in Hr.
  unfold cache_delete, rspamd_kv_hash_delete, rspamd_kv_radix_delete,
    cache_lookup, rspamd_kv_hash_lookup, rspamd_kv_radix_lookup,
    radix32tree_find in *.
  destruct (cache st) as [h|t]; by rewrite Hl.
Qed.

Lemma delete_missing_key_witness :
  cache_lookup "nokey" array_storage = None
  ∧ rspamd_kv_storage_delete "nokey" array_storage = (array_storage, None).
Proof.
  split; [reflexivity|].
  apply (delete_missing_key "nokey" array_storage). reflexivity.
Defined.

(** The Delete of a key the cache holds hands its record to the caller:
    the record is taken off the index and off the expire queue, [elts]
    goes down by one and [memory] by [elt->size], and the record itself
    is neither freed nor changed. *)
Theorem delete_hands_over `{Layout}
  (key : string) (st : rspamd_kv_storage) (a : addr)
  (e : rspamd_kv_element) :
  cache_lookup key st = Some a →
  heap st !! a = Some e →
  ∃ st', rspamd_kv_storage_delete key st = (st', Some a)
    ∧ cache_lookup key st' = None
    ∧ (a ∉ queue st')
    ∧ elts st' = to_gsize (elts st - 1)
    ∧ memory st' = to_gsize (memory st - elt_size e)
    ∧ heap st' = heap st ∧ freed st' = freed st.
Proof.
  intros Hl He. unfold rspamd_kv_storage_delete.
  pose proof (cache_delete_result key st) as Hr. rewrite Hl in Hr.
  pose proof (cache_delete_lookup key st) as Hn.
  destruct (cache_delete_frame key st) as (Hh & Hf & Hq & Hlim).
  destruct (cache_delete key st) as [st1 r]. simpl in *. subst r.
  eexists. split; [done|]. simpl.
  rewrite heap_expire_delete, freed_expire_delete, Hh, He. simpl.
  destruct (same_limits_expire_delete a st1) as (He1 & Hm1 & _).
  destruct Hlim as (He0 & Hm0 & _).
  rewrite He1, Hm1, He0, Hm0.
  split; [|split; [|done]].
  - rewrite <- Hn. apply cache_lookup_cache. simpl. apply cache_expire_delete.
  - change (queue (set_memory ?m (set_elts ?n ?s))) with (queue s).
    rewrite queue_expire_delete. unfold rspamd_lru_delete.
    rewrite list_elem_of_filter. by intros [? _].
Qed.

Lemma delete_hands_over_witness :
  cache_lookup "arr" array_storage = Some 0%nat
  ∧ heap array_storage !! 0%nat = Some array_element
  ∧ ∃ st', rspamd_kv_storage_delete "arr" array_storage = (st', Some 0%nat)
      ∧ cache_lookup "arr" st' = None
      ∧ (0%nat ∉ queue st')
      ∧ elts st' = to_gsize (elts array_storage - 1)
      ∧ memory st' = to_gsize (memory array_storage - elt_size array_element)
      ∧ heap st' = heap array_storage ∧ freed st' = freed array_storage.
Proof.
  split; [reflexivity|]. split; [reflexivity|].
  apply (delete_hands_over "arr" array_storage 0%nat array_element);
    reflexivity.
Defined.

(** Without a backend, a Lookup after the Delete of the same key answers
    absent, on the hashed and on the radix cache alike. *)
Theorem delete_then_lookup `{Layout}
  (key : string) (now clock : Z) (st : rspamd_kv_storage) :
  backend st = None →
  (rspamd_kv_storage_lookup key now clock
     (rspamd_kv_storage_delete key st).1).2 = None.
Proof.
  intros Hb.
  assert (Hl : cache_lookup key (rspamd_kv_storage_delete key st).1 = None
               ∧ backend (rspamd_kv_storage_delete key st).1 = None).
  { unfold rspamd_kv_storage_delete.
    pose proof (cache_delete_lookup key st) as Hn.
    destruct (cache_delete_frame key st) as (_ & _ & _ & Hlim).
    destruct (cache_delete key st) as [st1 [a|]]; simpl in *.
    - split.
      + rewrite <- Hn. apply cache_lookup_cache. simpl.
        apply cache_expire_delete.
      + destruct (same_limits_expire_delete a st1) as (_&_&_&_&->).
        destruct Hlim as (_&_&_&_&->). done.
    - split; [done|]. by destruct Hlim as (_&_&_&_&->). }
  destruct Hl as [Hl Hb'].
  unfold rspamd_kv_storage_lookup. by rewrite Hl, Hb'.
Qed.

Lemma delete_then_lookup_witness :
  backend radix_storage = None
  ∧ (rspamd_kv_storage_lookup "10.0.0.1" 0 0
       (rspamd_kv_storage_delete "10.0.0.1" radix_storage).1).2 = None.
Proof.
  split; [reflexivity|].
  apply (delete_then_lookup "10.0.0.1" 0 0 radix_storage). reflexivity.
Defined.

(** ** The limits block *)

Section LimitsFacts.
Context `{Layout}.

Lemma same_bounds_refl st : same_bounds st st.
Proof. done. Qed.

Lemma same_bounds_trans st1 st2 st3 :
  same_bounds st1 st2 → same_bounds st2 st3 → same_bounds st1 st3.
Proof.
  unfold same_bounds. intros (?&?&?) (?&?&?). repeat split; congruence.
Qed.

Lemma same_limits_bounds st st' : same_limits st st' → same_bounds st st'.
Proof. by intros (_&_&?&?&?). Qed.

(** What releasing one element does to bounds and count. *)
Lemma same_bounds_release a m n st :
  same_bounds st
    (expire_delete a (cache_steal a (set_elts n (set_memory m st)))).
Proof.
  eapply same_bounds_trans;
    [|apply same_limits_bounds, same_limits_expire_delete].
  eapply same_bounds_trans;
    [|apply same_limits_bounds, same_limits_cache_steal].
  done.
Qed.

Lemma elts_release a n st :
  elts (expire_delete a (cache_steal a (set_elts n st))) = n.
Proof.
  destruct (same_limits_expire_delete a (cache_steal a (set_elts n st)))
    as (-> & _).
  by destruct (same_limits_cache_steal a (set_elts n st)) as (-> & _).
Qed.

Lemma to_gsize_nonneg z : 0 ≤ to_gsize z.
Proof. unfold to_gsize. apply Z.mod_pos_bound. done. Qed.

Lemma lru_sweep_bounds l now st :
  same_bounds st (lru_sweep l now st)
  ∧ (0 ≤ elts st → 0 ≤ elts (lru_sweep l now st)).
Proof.
  revert st. induction l as [|a l IH]; intros st; simpl; [done|].
  destruct (heap st !! a) as [e|]; [|done].
  destruct (pinned e || _); [done|].
  set (st4 := expire_delete a _).
  destruct (IH (g_slice_free1 a st4)) as [Hb Hn]. split.
  - eapply same_bounds_trans; [|exact Hb].
    eapply same_bounds_trans; [apply same_bounds_release|]. done.
  - intros _. apply Hn. unfold st4.
    change (elts (g_slice_free1 a ?s)) with (elts s).
    rewrite elts_release. apply to_gsize_nonneg.
Qed.

(** The step keeps the bounds and a count that is not negative. *)
Lemma expire_step_bounds now forced st :
  same_bounds st (expire_step now forced st)
  ∧ (0 ≤ elts st → 0 ≤ elts (expire_step now forced st)).
Proof.
  unfold expire_step, rspamd_lru_expire_step.
  destruct (expire st) as [[[|a q]]|]; [done| |done].
  destruct (heap st !! a) as [e|]; [|done].
  destruct (negb (forced =? 0) || negb (pinned e)); [|done].
  destruct (_ >? 0).
  - split.
    + eapply same_bounds_trans; [apply same_bounds_release|].
      apply same_limits_bounds, same_limits_dispose.
    + intros _. cbv zeta.
      match goal with
      | |- 0 ≤ elts (dispose ?a ?X) =>
          destruct (same_limits_dispose a X) as (-> & _)
      end.
      match goal with
      | |- 0 ≤ elts (expire_delete _ (cache_steal _ (set_elts ?n ?s))) =>
          rewrite (elts_release a n s)
      end.
      apply to_gsize_nonneg.
  - set (st5 := g_slice_free1 a _).
    destruct (lru_sweep_bounds (queue st5) now st5) as [Hb Hn]. split.
    + eapply same_bounds_trans; [|exact Hb]. unfold st5.
      eapply same_bounds_trans;
        [apply same_limits_bounds, same_limits_cache_steal|].
      eapply same_bounds_trans;
        [|apply same_limits_bounds, (same_limits_expire_delete a)].
      done.
    + intros _. apply Hn. unfold st5.
      change (elts (g_slice_free1 a ?s)) with (elts s).
      match goal with
      | |- 0 ≤ elts (expire_delete ?a ?X) =>
          destruct (same_limits_expire_delete a X) as (-> & _)
      end.
      simpl. apply to_gsize_nonneg.
Qed.

(** A breach that no step can repair runs the loop to its cap. *)
Lemma limit_loop_fails (P : rspamd_kv_storage → Prop) breach clock :
  (∀ st, P st → breach st = true) →
  (∀ st steps, P st → P (expire_step clock steps st)) →
  ∀ left steps st, P st → (limit_loop breach clock left steps st).2 = false.
Proof.
  intros Hbr Hstep left. induction left as [|left IH]; intros steps st HP;
    simpl; rewrite (Hbr st HP); [done|].
  apply IH. by apply Hstep.
Qed.

End LimitsFacts.

(** A value longer than a memory bound that is set is refused at once,
    by Insert and by InsertInternal, and the storage is left as it is. *)
Theorem oversize_value_refused `{Layout}
  (key : string) (data : list byte) (len flags expire clock : Z)
  (st : rspamd_kv_storage) :
  0 < max_memory st →
  max_memory st < len →
  rspamd_kv_storage_insert key data len flags expire clock st = (st, false)
  ∧ rspamd_kv_storage_insert_internal key data len flags expire clock st
    = (st, None).
Proof.
  intros Hpos Hlen.
  assert (Hc : check_limits (insert_breach len) len clock st = (st, false)).
  { unfold check_limits.
    replace (max_memory st >? 0) with true
      by (symmetry; rewrite Z.gtb_ltb; by apply Z.ltb_lt).
    by replace (len >? max_memory st) with true
      by (symmetry; rewrite Z.gtb_ltb; by apply Z.ltb_lt). }
  unfold rspamd_kv_storage_insert, rspamd_kv_storage_insert_internal.
  by rewrite Hc.
Qed.

Lemma oversize_value_refused_witness :
  0 < max_memory (hash_lru_storage 2 3)
  ∧ max_memory (hash_lru_storage 2 3) < 4
  ∧ rspamd_kv_storage_insert "k" [x31; x32; x33; x34] 4 0 10 0
      (hash_lru_storage 2 3) = (hash_lru_storage 2 3, false).
Proof.
  split; [simpl; lia|]. split; [simpl; lia|].
  apply (oversize_value_refused "k" [x31; x32; x33; x34] 4 0 10 0
           (hash_lru_storage 2 3)); simpl; lia.
Defined.


(** With a memory bound set and no expire plug-in, an Insert that meets a
    breached bound fails after the capped rounds and the storage is left
    as it is. *)
Theorem full_storage_without_expire `{Layout}
  (key : string) (data : list byte) (len flags lifetime clock : Z)
  (st : rspamd_kv_storage) :
  expire st = None →
  0 < max_memory st →
  len ≤ max_memory st →
  insert_breach len st = true →
  rspamd_kv_storage_insert key data len flags lifetime clock st = (st, false).
Proof.
  intros Hx Hpos Hlen Hb.
  assert (Hloop : ∀ left steps,
            limit_loop (insert_breach len) clock left steps st = (st, false)).
  { induction left as [|left IH]; intros steps; simpl; rewrite Hb;
      unfold expire_step; rewrite Hx; [done|apply IH]. }
  unfold rspamd_kv_storage_insert, check_limits.
  replace (max_memory st >? 0) with true
    by (symmetry; rewrite Z.gtb_ltb; by apply Z.ltb_lt).
  replace (len >? max_memory st) with false
    by (symmetry; rewrite Z.gtb_ltb; by apply Z.ltb_ge).
  by rewrite Hloop.
Qed.

Lemma full_storage_without_expire_witness :
  expire full_storage = None
  ∧ insert_breach 1 full_storage = true
  ∧ rspamd_kv_storage_insert "b" [x32] 1 0 10 0 full_storage
    = (full_storage, false).
Proof.
  split; [reflexivity|]. split; [reflexivity|].
  apply (full_storage_without_expire "b" [x32] 1 0 10 0 full_storage);
    [reflexivity | reflexivity | vm_compute; discriminate | reflexivity].
Defined.

(** Under a memory bound, [max_elts = 0] does not switch the element bound
    off: [elts >= max_elts] holds for every count, the loop runs to its
    cap and every Insert and InsertInternal fails. *)
Theorem zero_max_elts_refuses_all `{Layout}
  (key : string) (data : list byte) (len flags lifetime clock : Z)
  (st : rspamd_kv_storage) :
  0 < max_memory st →
  max_elts st = 0 →
  0 ≤ elts st →
  (rspamd_kv_storage_insert key data len flags lifetime clock st).2 = false
  ∧ (rspamd_kv_storage_insert_internal key data len flags lifetime clock
       st).2 = None.
Proof.
  intros Hpos Hmax Hel.
  assert (Hc : (check_limits (insert_breach len) len clock st).2 = false).
  { unfold check_limits.
    replace (max_memory st >? 0) with true
      by (symmetry; rewrite Z.gtb_ltb; by apply Z.ltb_lt).
    destruct (len >? max_memory st); [done|].
    apply (limit_loop_fails (λ s, max_elts s = 0 ∧ 0 ≤ elts s)); [| |done].
    - intros s [Hm He]. unfold insert_breach. rewrite Hm.
      apply orb_true_iff. right. rewrite Z.geb_leb. by apply Z.leb_le.
    - intros s steps [Hm He].
      destruct (expire_step_bounds clock steps s) as [(Hm' & _) He'].
      split; [congruence | by apply He']. }
  unfold rspamd_kv_storage_insert, rspamd_kv_storage_insert_internal.
  destruct (check_limits _ _ _ _) as [st1 [|]]; done.
Qed.

Lemma zero_max_elts_refuses_all_witness :
  0 < max_memory (hash_lru_storage 0 1000)
  ∧ max_elts (hash_lru_storage 0 1000) = 0
  ∧ (rspamd_kv_storage_insert "a" [x31] 1 0 10 0
       (hash_lru_storage 0 1000)).2 = false.
Proof.
  split; [simpl; lia|]. split; [reflexivity|].
  apply (zero_max_elts_refuses_all "a" [x31] 1 0 10 0
           (hash_lru_storage 0 1000)); [simpl; lia | reflexivity | simpl; lia].
Defined.

(** ** More on the expire step *)

Section StepFacts.
Context `{Layout}.

Lemma queue_dispose a st : queue (dispose a st) = queue st.
Proof.
  unfold dispose, update_elt, queue.
  destruct (heap st !! a); [|done]. by destruct (has_flag _ _).
Qed.

Lemma cache_dispose a st : cache (dispose a st) = cache st.
Proof.
  unfold dispose, update_elt.
  destruct (heap st !! a); [|done]. by destruct (has_flag _ _).
Qed.

(** The second block of the step, whatever made the head releasable. *)
Lemma expire_step_oldest now forced st a q e :
  expire st = Some (LruExpire (a :: q)) →
  heap st !! a = Some e →
  forced ≠ 0 ∨ pinned e = false →
  now < elt_age e + elt_expire e →
  expire_step now forced st
  = dispose a
      (expire_delete a
         (cache_steal a
            (set_elts (to_gsize (elts st - 1))
               (set_memory (to_gsize (memory st - ELT_SIZE e)) st)))).
Proof.
  intros Hq He Hrel Hd. unfold expire_step, rspamd_lru_expire_step.
  rewrite Hq, He.
  replace (negb (forced =? 0) || negb (pinned e)) with true.
  - replace (elt_expire e - (now - elt_age e) >? 0) with true; [done|].
    symmetry. rewrite Z.gtb_ltb. apply Z.ltb_lt. lia.
  - symmetry. apply orb_true_iff. destruct Hrel as [Hf | ->]; [left|by right].
    apply negb_true_iff. by apply Z.eqb_neq.
Qed.

Lemma lru_delete_not_in a q : a ∉ rspamd_lru_delete a q.
Proof.
  unfold rspamd_lru_delete. rewrite list_elem_of_filter. by intros [? _].
Qed.

(** What the sweep frees was on its list, unpinned. *)
Lemma lru_sweep_freed_unpinned l now st a :
  a ∈ freed (lru_sweep l now st) →
  a ∈ freed st ∨ ∃ e, heap st !! a = Some e ∧ pinned e = false.
Proof.
  revert st. induction l as [|x l IH]; intros st; simpl; [by left|].
  destruct (heap st !! x) as [e|] eqn:He; [|by left].
  destruct (pinned e) eqn:Hp; simpl; [by left|].
  destruct (elt_expire e <? now - elt_age e); [by left|].
  intros Hin. apply IH in Hin. revert Hin. simpl.
  rewrite freed_expire_delete, freed_cache_steal, heap_expire_delete,
    heap_cache_steal. simpl.
  intros [Hin|Hin]; [|by right].
  apply elem_of_cons in Hin as [->|Hin]; [right; by exists e | by left].
Qed.

End StepFacts.

(** An unforced step whose queue starts with a [PERSISTENT] or [DIRTY]
    element does nothing at all, expired or not. *)
Theorem unforced_step_skips_pinned_head `{Layout}
  (now : Z) (st : rspamd_kv_storage) (h : addr) (q : list addr)
  (e : rspamd_kv_element) :
  expire st = Some (LruExpire (h :: q)) →
  heap st !! h = Some e →
  pinned e = true →
  expire_step now 0 st = st.
Proof.
  intros Hq He Hp. unfold expire_step, rspamd_lru_expire_step.
  by rewrite Hq, He, Hp.
Qed.

Lemma unforced_step_skips_pinned_head_witness :
  expire dirty_storage = Some (LruExpire [0%nat])
  ∧ heap dirty_storage !! 0%nat = Some dirty_element
  ∧ pinned dirty_element = true
  ∧ expire_step 10 0 dirty_storage = dirty_storage.
Proof.
  split; [reflexivity|]. split; [reflexivity|]. split; [reflexivity|].
  apply (unforced_step_skips_pinned_head 10 dirty_storage 0%nat []
           dirty_element); reflexivity.
Defined.

(** What an unforced step frees. *)
Lemma expire_step_freed_unpinned `{Layout}
  (now : Z) (st : rspamd_kv_storage) (a : addr) :
  a ∈ freed (expire_step now 0 st) →
  a ∈ freed st ∨ ∃ e, heap st !! a = Some e ∧ pinned e = false.
Proof.
  unfold expire_step, rspamd_lru_expire_step.
  destruct (expire st) as [[[|h q]]|]; [by left| |by left].
  destruct (heap st !! h) as [e|] eqn:He; [|by left].
  destruct (pinned e) eqn:Hp; simpl; [by left|].
  destruct (_ >? 0).
  - unfold dispose. rewrite heap_expire_delete, heap_cache_steal. simpl.
    rewrite He. destruct (has_flag KV_ELT_DIRTY e).
    + unfold update_elt. rewrite heap_expire_delete, heap_cache_steal. simpl.
      rewrite He. simpl. rewrite freed_expire_delete, freed_cache_steal.
      by left.
    + simpl. rewrite freed_expire_delete, freed_cache_steal. simpl.
      intros Hin. apply elem_of_cons in Hin as [->|Hin];
        [right; by exists e | by left].
  - intros Hin. apply lru_sweep_freed_unpinned in Hin. revert Hin. simpl.
    rewrite freed_expire_delete, heap_expire_delete. simpl.
    rewrite freed_cache_steal, heap_cache_steal.
    intros [Hin|Hin]; [|by right].
    apply elem_of_cons in Hin as [->|Hin]; [right; by exists e | by left].
Qed.

(** An unforced step never frees a [PERSISTENT] or [DIRTY] element,
    wherever it stands in the queue: what it frees was not pinned. *)
Theorem unforced_step_frees_unpinned_only `{Layout}
  (now : Z) (st : rspamd_kv_storage) (a : addr) :
  a ∈ freed (expire_step now 0 st) →
  a ∈ freed st ∨ ∃ e, heap st !! a = Some e ∧ pinned e = false.
Proof. apply expire_step_freed_unpinned. Qed.

Lemma unforced_step_frees_unpinned_only_witness :
  1%nat ∈ freed (expire_step 10 0 two_ages_storage)
  ∧ (1%nat ∈ freed two_ages_storage
     ∨ ∃ e, heap two_ages_storage !! 1%nat = Some e ∧ pinned e = false).
Proof.
  assert (Hin : 1%nat ∈ freed (expire_step 10 0 two_ages_storage)).
  { vm_compute. apply elem_of_cons. by left. }
  split; [exact Hin|].
  exact (unforced_step_frees_unpinned_only 10 two_ages_storage 1%nat Hin).
Defined.

(** A forced step always makes progress on a queue that is not empty: the
    head leaves the queue and its stored key no longer resolves, pinned or
    not, expired or not. *)
Lemma forced_step_unbinds_head `{Layout}
  (now forced : Z) (st : rspamd_kv_storage) (h : addr) (q : list addr)
  (e : rspamd_kv_element) :
  expire st = Some (LruExpire (h :: q)) →
  heap st !! h = Some e →
  forced ≠ 0 →
  (h ∉ queue (expire_step now forced st))
  ∧ cache_lookup (elt_key e) (expire_step now forced st) = None.
Proof.
  intros Hq He Hf.
  destruct (decide (elt_age e + elt_expire e ≤ now)) as [Hexp|Hnew].
  - pose proof (expire_step_expired_head now forced st h q e Hq He
                  (or_introl Hf) Hexp) as Hstep.
    cbv zeta in Hstep. rewrite Hstep. clear Hstep.
    set (st5 := g_slice_free1 h _).
    assert (Hq5 : h ∉ queue st5).
    { unfold st5. change (queue (g_slice_free1 h ?s)) with (queue s).
      rewrite queue_expire_delete. apply lru_delete_not_in. }
    assert (Hc5 : cache_lookup (elt_key e) st5 = None).
    { rewrite (cache_lookup_cache (cache_steal h st) st5).
      - by apply cache_lookup_steal.
      - unfold st5. simpl. by rewrite cache_expire_delete. }
    split.
    + intros Hin. by apply queue_lru_sweep in Hin.
    + eapply cache_lookup_shrinks; [apply index_shrinks_lru_sweep|done].
  - rewrite (expire_step_oldest now forced st h q e Hq He (or_introl Hf))
      by lia.
    split.
    + rewrite queue_dispose, queue_expire_delete. apply lru_delete_not_in.
    + rewrite (cache_lookup_cache (cache_steal h st) (dispose h _)).
      * by apply cache_lookup_steal.
      * rewrite cache_dispose, cache_expire_delete.
        unfold cache_steal, rspamd_kv_hash_steal, rspamd_kv_radix_steal.
        simpl. by destruct (cache st); rewrite He.
Qed.

(** On the hashed cache, whose table binds a record under its own stored
    key only, a forced step on a queue that is not empty removes the head
    from the queue and from the index, pinned or not, expired or not:
    afterwards no key finds the head's record. *)
Theorem forced_step_removes_head `{Layout}
  (now forced : Z) (st : rspamd_kv_storage) (hd : addr) (q : list addr)
  (e : rspamd_kv_element) (h : gmap string addr) :
  expire st = Some (LruExpire (hd :: q)) →
  heap st !! hd = Some e →
  cache st = HashCache h →
  (∀ k, h !! k = Some hd → k = strcase_fold (elt_key e)) →
  forced ≠ 0 →
  (hd ∉ queue (expire_step now forced st))
  ∧ ∀ key, cache_lookup key (expire_step now forced st) ≠ Some hd.
Proof.
  intros Hq He Hc Hown Hf.
  destruct (forced_step_unbinds_head now forced st hd q e Hq He Hf)
    as [Hnq Hnk].
  split; [exact Hnq|].
  intros key Hk.
  destruct (index_shrinks_expire_step now forced st) as [_ Hsub].
  rewrite Hc in Hsub.
  unfold cache_lookup, rspamd_kv_hash_lookup in Hk, Hnk.
  destruct (cache (expire_step now forced st)) as [h'|]; [|done].
  assert (Hfold : strcase_fold key = strcase_fold (elt_key e)).
  { apply Hown. by eapply lookup_weaken. }
  rewrite Hfold, Hnk in Hk. discriminate Hk.
Qed.

Lemma forced_step_removes_head_witness :
  (0%nat ∉ queue (expire_step 0 1 array_storage))
  ∧ ∀ key, cache_lookup key (expire_step 0 1 array_storage) ≠ Some 0%nat.
Proof.
  apply (forced_step_removes_head 0 1 array_storage 0%nat [] array_element
           {[ "arr" := 0%nat ]});
    [reflexivity | reflexivity | reflexivity | | discriminate].
  intros k Hk. apply lookup_singleton_Some in Hk as [<- _]. reflexivity.
Defined.

(** The victim of the second block, a head that has not expired, is
    disposed by the [DIRTY] rule: a [DIRTY] record is kept and marked
    [NEED_FREE], any other is freed. *)
Theorem step_victim_follows_dirty_rule `{Layout}
  (now forced : Z) (st : rspamd_kv_storage) (h : addr) (q : list addr)
  (e : rspamd_kv_element) :
  expire st = Some (LruExpire (h :: q)) →
  heap st !! h = Some e →
  (forced ≠ 0 ∨ pinned e = false) →
  now < elt_age e + elt_expire e →
  let st' := expire_step now forced st in
  (has_flag KV_ELT_DIRTY e = true →
   freed st' = freed st
   ∧ heap st' !! h
     = Some (set_flags (Z.lor (elt_flags e) KV_ELT_NEED_FREE) e))
  ∧ (has_flag KV_ELT_DIRTY e = false →
     freed st' = h :: freed st ∧ heap st' = heap st).
Proof.
  intros Hq He Hrel Hnew. cbv zeta.
  rewrite (expire_step_oldest now forced st h q e Hq He Hrel Hnew).
  unfold dispose. rewrite heap_expire_delete, heap_cache_steal. simpl.
  rewrite He. split; intros ->.
  - split.
    + unfold update_elt. rewrite heap_expire_delete, heap_cache_steal. simpl.
      rewrite He. simpl. by rewrite freed_expire_delete, freed_cache_steal.
    + apply update_elt_lookup.
      by rewrite heap_expire_delete, heap_cache_steal.
  - simpl. by rewrite freed_expire_delete, freed_cache_steal,
      heap_expire_delete, heap_cache_steal.
Qed.

Lemma step_victim_follows_dirty_rule_witness :
  expire dirty_storage = Some (LruExpire [0%nat])
  ∧ heap dirty_storage !! 0%nat = Some dirty_element
  ∧ 3 < elt_age dirty_element + elt_expire dirty_element
  ∧ freed (expire_step 3 1 dirty_storage) = freed dirty_storage
  ∧ heap (expire_step 3 1 dirty_storage) !! 0%nat
    = Some (set_flags (Z.lor (elt_flags dirty_element) KV_ELT_NEED_FREE)
              dirty_element).
Proof.
  split; [reflexivity|]. split; [reflexivity|]. split; [reflexivity|].
  apply (step_victim_follows_dirty_rule 3 1 dirty_storage 0%nat []
           dirty_element);
    [reflexivity | reflexivity | left; discriminate | reflexivity
    | reflexivity].
Defined.

(** ** The count and the queue *)

Section QueueCount.
Context `{Layout}.

Lemma expire_cache_steal a st : expire (cache_steal a st) = expire st.
Proof.
  unfold cache_steal, rspamd_kv_hash_steal, rspamd_kv_radix_steal.
  by destruct (cache st), (heap st !! a).
Qed.

Lemma expire_dispose a st : expire (dispose a st) = expire st.
Proof.
  unfold dispose, update_elt.
  destruct (heap st !! a); [|done]. by destruct (has_flag _ _).
Qed.

Lemma expire_expire_delete a q st :
  expire st = Some (LruExpire q) →
  expire (expire_delete a st) = Some (LruExpire (rspamd_lru_delete a q)).
Proof. intros Hq. unfold expire_delete. by rewrite Hq. Qed.

Lemma lru_delete_absent a q : a ∉ q → rspamd_lru_delete a q = q.
Proof.
  unfold rspamd_lru_delete. induction q as [|x q IH]; [done|].
  intros Hn. apply not_elem_of_cons in Hn as [Hne Hn].
  rewrite filter_cons.
  destruct (decide (x ≠ a)) as [_|Hx];
    [|exfalso; apply Hx; intros ->; by apply Hne].
  by rewrite IH.
Qed.

Lemma lru_delete_head a q :
  NoDup (a :: q) → rspamd_lru_delete a (a :: q) = q.
Proof.
  intros Hnd. apply NoDup_cons in Hnd as [Hn _].
  unfold rspamd_lru_delete. rewrite filter_cons.
  destruct (decide (a ≠ a)) as [?|_]; [done|].
  by apply lru_delete_absent.
Qed.

(** Releasing the head of a queue without repetitions: the queue loses
    exactly that element and the count follows. *)
Lemma release_head_counts a q m st :
  expire st = Some (LruExpire (a :: q)) →
  NoDup (a :: q) →
  elts st = Z.of_nat (length (a :: q)) →
  elts st < 2 ^ 64 →
  let st' :=
    expire_delete a
      (cache_steal a (set_elts (to_gsize (elts st - 1)) (set_memory m st))) in
  expire st' = Some (LruExpire q) ∧ elts st' = Z.of_nat (length q).
Proof.
  intros Hq Hnd He Hlt. simpl. split.
  - rewrite (expire_expire_delete a (a :: q)).
    + by rewrite lru_delete_head.
    + by rewrite expire_cache_steal.
  - rewrite elts_release. unfold to_gsize. rewrite Z.mod_small.
    + rewrite He. simpl length. lia.
    + rewrite He in *. simpl length in *. lia.
Qed.

Lemma lru_sweep_counts l now st :
  expire st = Some (LruExpire l) →
  NoDup l →
  elts st = Z.of_nat (length l) →
  elts st < 2 ^ 64 →
  elts (lru_sweep l now st) = Z.of_nat (length (queue (lru_sweep l now st)))
  ∧ NoDup (queue (lru_sweep l now st)).
Proof.
  revert st. induction l as [|x l IH]; intros st Hq Hnd He Hlt; simpl.
  { unfold queue. by rewrite Hq. }
  assert (Hstay : elts st = Z.of_nat (length (queue st)) ∧ NoDup (queue st))
    by (unfold queue; by rewrite Hq).
  destruct (heap st !! x) as [e|]; [|done].
  destruct (pinned e || _); [done|].
  destruct (release_head_counts x l
              (to_gsize (memory st - ELT_SIZE e)) st Hq Hnd He Hlt)
    as [Hq' He'].
  apply IH.
  - exact Hq'.
  - by apply NoDup_cons in Hnd as [_ ?].
  - exact He'.
  - change (elts (g_slice_free1 x ?s)) with (elts s).
    simpl in He'. rewrite He'. rewrite He in Hlt. simpl length in Hlt. lia.
Qed.

End QueueCount.

(** The step keeps count: on a storage whose queue has no repetition and
    whose [elts] is the length of the queue, [elts] is again the length
    of the queue after the step, and the queue is still without
    repetition. *)
Theorem expire_step_keeps_count `{Layout}
  (now forced : Z) (st : rspamd_kv_storage) (q : list addr) :
  expire st = Some (LruExpire q) →
  NoDup q →
  elts st = Z.of_nat (length q) →
  elts st < 2 ^ 64 →
  let st' := expire_step now forced st in
  elts st' = Z.of_nat (length (queue st')) ∧ NoDup (queue st').
Proof.
  intros Hq Hnd He Hlt. cbv zeta.
  assert (Hstay : elts st = Z.of_nat (length (queue st)) ∧ NoDup (queue st))
    by (unfold queue; by rewrite Hq).
  unfold expire_step, rspamd_lru_expire_step. rewrite Hq.
  destruct q as [|h q]; [done|].
  destruct (heap st !! h) as [e|]; [|done].
  destruct (negb (forced =? 0) || negb (pinned e)); [|done].
  destruct (_ >? 0).
  - destruct (release_head_counts h q
                (to_gsize (memory st - ELT_SIZE e)) st Hq Hnd He Hlt)
      as [Hq' He'].
    rewrite queue_dispose.
    destruct (same_limits_dispose h
                (expire_delete h
                   (cache_steal h
                      (set_elts (to_gsize (elts st - 1))
                         (set_memory (to_gsize (memory st - ELT_SIZE e))
                            st))))) as (Hed & _).
    cbv zeta. simpl in Hed |- *. rewrite Hed.
    unfold queue at 1 2. rewrite Hq'. split; [exact He'|].
    by apply NoDup_cons in Hnd as [_ ?].
  - set (st1 := cache_steal h st).
    assert (Hq1 : expire st1 = Some (LruExpire (h :: q)))
      by (unfold st1; by rewrite expire_cache_steal).
    assert (He1 : elts st1 = Z.of_nat (length (h :: q))).
    { unfold st1. by destruct (same_limits_cache_steal h st) as (-> & _). }
    clearbody st1.
    set (st4 := expire_delete h _).
    assert (Hq4 : expire st4 = Some (LruExpire q)).
    { unfold st4. rewrite (expire_expire_delete h (h :: q)) by done.
      by rewrite lru_delete_head. }
    assert (He4 : elts st4 = Z.of_nat (length q)).
    { unfold st4.
      match goal with
      | |- elts (expire_delete ?a ?X) = _ =>
          destruct (same_limits_expire_delete a X) as (-> & _)
      end.
      simpl. unfold to_gsize. rewrite He1 in *. simpl length in *.
      rewrite Z.mod_small; lia. }
    assert (Hq5 : queue (g_slice_free1 h st4) = q)
      by (unfold queue; simpl; by rewrite Hq4).
    rewrite Hq5. apply lru_sweep_counts.
    + exact Hq4.
    + by apply NoDup_cons in Hnd as [_ ?].
    + exact He4.
    + simpl. rewrite He4. rewrite He in Hlt. simpl length in Hlt. lia.
Qed.

Lemma expire_step_keeps_count_witness :
  expire two_ages_storage = Some (LruExpire [0%nat; 1%nat])
  ∧ elts two_ages_storage = Z.of_nat (length [0%nat; 1%nat])
  ∧ elts (expire_step 3 0 two_ages_storage)
    = Z.of_nat (length (queue (expire_step 3 0 two_ages_storage))).
Proof.
  split; [reflexivity|]. split; [reflexivity|].
  apply (expire_step_keeps_count 3 0 two_ages_storage [0%nat; 1%nat]);
    [reflexivity | | reflexivity | reflexivity].
  apply NoDup_cons. split; [|apply NoDup_singleton].
  intros Hin. apply elem_of_cons in Hin as [Hin|Hin]; [discriminate Hin|].
  inversion Hin.
Defined.

(** The step allocates nothing and adds no key: a key the cache answers
    for after the step, it answered for before, with the same record. *)
Theorem expire_step_only_removes `{Layout}
  (now forced : Z) (st : rspamd_kv_storage) (key : string) (a : addr) :
  cache_lookup key (expire_step now forced st) = Some a →
  cache_lookup key st = Some a
  ∧ length (heap (expire_step now forced st)) = length (heap st).
Proof.
  destruct (index_shrinks_expire_step now forced st) as [Hl Hc].
  unfold cache_lookup, rspamd_kv_hash_lookup, rspamd_kv_radix_lookup,
    radix32tree_find.
  destruct (cache st), (cache (expire_step now forced st)); try done;
    intros Hk; (split; [by eapply lookup_weaken|done]).
Qed.

Lemma expire_step_only_removes_witness :
  cache_lookup "new" (expire_step 3 0 two_ages_storage) = Some 1%nat
  ∧ cache_lookup "new" two_ages_storage = Some 1%nat.
Proof.
  assert (Hk : cache_lookup "new" (expire_step 3 0 two_ages_storage)
               = Some 1%nat) by reflexivity.
  split; [exact Hk|].
  exact (proj1 (expire_step_only_removes 3 0 two_ages_storage "new" 1%nat Hk)).
Defined.

(** ** Insert over a key that is there *)

Section Duplicate.
Context `{Layout}.

Lemma update_elt_lookup_ne a b f st :
  a ≠ b → heap (update_elt a f st) !! b = heap st !! b.
Proof.
  intros Hne. unfold update_elt. destruct (heap st !! a); [|done].
  simpl. by apply list_lookup_insert_ne.
Qed.

Lemma freed_update_elt a f st : freed (update_elt a f st) = freed st.
Proof. unfold update_elt. by destruct (heap st !! a). Qed.

Lemma queue_update_elt a f st : queue (update_elt a f st) = queue st.
Proof. unfold update_elt. by destruct (heap st !! a). Qed.

Lemma backend_insert_frame key a st :
  let st' := (backend_insert key a st).1 in
  freed st' = freed st ∧ queue st' = queue st ∧ expire st' = expire st
  ∧ ∀ b, a ≠ b → heap st' !! b = heap st !! b.
Proof.
  unfold backend_insert.
  destruct (backend st) as [bk|]; [|done].
  destruct (heap st !! a) as [e|] eqn:He; [|done].
  destruct (insert_func bk key e) as [res [|]]; simpl; [|done].
  unfold update_elt. rewrite He. simpl.
  repeat split; try done. intros b Hne. by apply list_lookup_insert_ne.
Qed.

Lemma queue_expire_insert a st :
  ∀ b, b ∈ queue (expire_insert a st) → b ∈ queue st ∨ b = a.
Proof.
  intros b. unfold expire_insert, queue, rspamd_lru_insert.
  destruct (expire st) as [[q]|] eqn:Hq; simpl.
  - rewrite elem_of_app. intros [?|Hin]; [by left|].
    apply elem_of_cons in Hin as [->|Hin]; [by right | inversion Hin].
  - rewrite Hq. intros ?. by left.
Qed.

Lemma freed_expire_insert a st : freed (expire_insert a st) = freed st.
Proof. unfold expire_insert. by destruct (expire st) as [[q]|]. Qed.

(** The hashed cache on a key it does not hold: a new record at the next
    address, bound to the key. *)
Lemma cache_insert_hash_fresh key data len clock st h :
  cache st = HashCache h →
  h !! strcase_fold key = None →
  cache_insert key data len clock st
  = (set_cache (HashCache (<[strcase_fold key := length (heap st)]> h))
       (set_heap (heap st ++ [hash_new_element key data len clock]) st),
     Some (length (heap st))).
Proof.
  intros Hc Hk. unfold cache_insert, rspamd_kv_hash_insert.
  by rewrite Hc, Hk.
Qed.

End Duplicate.

(** An Insert over a key the hashed cache holds removes the old record by
    the [DIRTY] rule before it stores the new one: the old record leaves
    the queue, and it is freed if it is not [DIRTY] and kept, marked
    [NEED_FREE], if it is. *)
Theorem insert_disposes_duplicate `{Layout}
  (key : string) (data : list byte) (len flags lifetime clock : Z)
  (st : rspamd_kv_storage) (h : gmap string addr) (old : addr)
  (eo : rspamd_kv_element) :
  max_memory st = 0 →
  cache st = HashCache h →
  h !! strcase_fold key = Some old →
  heap st !! old = Some eo →
  strcase_fold (elt_key eo) = strcase_fold key →
  let st' :=
    (rspamd_kv_storage_insert key data len flags lifetime clock st).1 in
  (old ∉ queue st')
  ∧ cache_lookup key st' = Some (length (heap st))
  ∧ (has_flag KV_ELT_DIRTY eo = true →
     freed st' = freed st
     ∧ heap st' !! old
       = Some (set_flags (Z.lor (elt_flags eo) KV_ELT_NEED_FREE) eo))
  ∧ (has_flag KV_ELT_DIRTY eo = false →
     freed st' = old :: freed st ∧ heap st' !! old = Some eo).
Proof.
  intros Hm Hc Hk Ho Hfold. cbv zeta.
  unfold rspamd_kv_storage_insert. rewrite check_limits_disabled by done.
  unfold insert_after_limits.
  assert (Hl : cache_lookup key st = Some old).
  { unfold cache_lookup. by rewrite Hc. }
  rewrite Hl.
  set (st2 := dispose old (cache_steal old (expire_delete old st))).
  assert (Hold : (old < length (heap st))%nat) by (by eapply lookup_lt_Some).
  assert (Hc2 : cache st2 = HashCache (delete (strcase_fold key) h)).
  { unfold st2. rewrite cache_dispose.
    unfold cache_steal, rspamd_kv_hash_steal.
    rewrite cache_expire_delete, Hc, heap_expire_delete, Ho. simpl.
    unfold g_hash_table_steal. by rewrite Hfold. }
  assert (Hq2 : old ∉ queue st2).
  { unfold st2. rewrite queue_dispose, queue_cache_steal, queue_expire_delete.
    apply lru_delete_not_in. }
  assert (Hh1 : heap (cache_steal old (expire_delete old st)) = heap st)
    by (by rewrite heap_cache_steal, heap_expire_delete).
  assert (Hf1 : freed (cache_steal old (expire_delete old st)) = freed st)
    by (by rewrite freed_cache_steal, freed_expire_delete).
  assert (Hlen2 : length (heap st2) = length (heap st)).
  { unfold st2, dispose. rewrite Hh1, Ho.
    destruct (has_flag KV_ELT_DIRTY eo); [|by simpl; rewrite Hh1].
    by rewrite length_heap_update_elt, Hh1. }
  assert (Hd2 : (has_flag KV_ELT_DIRTY eo = true →
                 freed st2 = freed st
                 ∧ heap st2 !! old
                   = Some (set_flags
                             (Z.lor (elt_flags eo) KV_ELT_NEED_FREE) eo))
                ∧ (has_flag KV_ELT_DIRTY eo = false →
                   freed st2 = old :: freed st ∧ heap st2 !! old = Some eo)).
  { unfold st2, dispose. rewrite Hh1, Ho. split; intros ->.
    - split; [by rewrite freed_update_elt|].
      apply update_elt_lookup. by rewrite Hh1.
    - simpl. by rewrite Hf1, Hh1. }
  clearbody st2.
  rewrite (cache_insert_hash_fresh key data len clock st2 _ Hc2)
    by apply lookup_delete_eq.
  rewrite Hlen2.
  set (a := length (heap st)).
  set (st3 := set_cache _ _).
  set (upd := λ e : rspamd_kv_element, _).
  assert (Hne : a ≠ old) by (unfold a; lia).
  destruct (backend_insert_frame key a (update_elt a upd st3))
    as (Hf5 & Hq5 & _ & Hh5).
  pose proof (cache_backend_insert key a (update_elt a upd st3)) as Hc5.
  destruct (backend_insert key a (update_elt a upd st3)) as [st5 res].
  simpl in Hf5, Hq5, Hh5, Hc5. simpl.
  rewrite heap_expire_insert, freed_expire_insert, Hf5, freed_update_elt,
    (Hh5 old Hne), (update_elt_lookup_ne a old upd st3 Hne).
  assert (Hh3 : heap st3 !! old = heap st2 !! old).
  { unfold st3. simpl. apply lookup_app_l. by rewrite Hlen2. }
  rewrite Hh3. change (freed st3) with (freed st2).
  split; [|split; [|exact Hd2]].
  - intros Hin.
    change (queue (set_memory ?m (set_elts ?n ?s))) with (queue s) in Hin.
    apply queue_expire_insert in Hin as [Hin|Hin]; [|by subst old].
    rewrite Hq5, queue_update_elt in Hin. by apply Hq2.
  - rewrite (cache_lookup_cache st3 _ key).
    + unfold cache_lookup, st3. simpl. apply lookup_insert_eq.
    + simpl. by rewrite cache_expire_insert, Hc5, cache_update_elt.
Qed.

Lemma insert_disposes_duplicate_witness :
  heap array_storage !! 0%nat = Some array_element
  ∧ has_flag KV_ELT_DIRTY array_element = false
  ∧ freed (rspamd_kv_storage_insert "ARR" [x31] 1 0 10 0 array_storage).1
    = 0%nat :: freed array_storage
  ∧ heap (rspamd_kv_storage_insert "ARR" [x31] 1 0 10 0 array_storage).1
    !! 0%nat = Some array_element.
Proof.
  split; [reflexivity|]. split; [reflexivity|].
  apply (insert_disposes_duplicate "ARR" [x31] 1 0 10 0 array_storage
           {[ "arr" := 0%nat ]} 0%nat array_element);
    reflexivity.
Defined.

(** ** Array elements: the accesses inside the payload *)

Section ArrayFacts.
Context `{Layout}.

(** [memcpy] inside the destination: the length stays, the copied bytes
    are read back and every other byte is left alone. *)
Lemma memcpy_inside (dst : list byte) (off : nat) (src : list byte) (n : nat) :
  (off + n ≤ length dst)%nat →
  length src = n →
  length (memcpy dst off src n) = length dst
  ∧ take n (drop off (memcpy dst off src n)) = src
  ∧ ∀ j, (j < off ∨ off + n ≤ j)%nat → memcpy dst off src n !! j = dst !! j.
Proof.
  intros Hin Hlen. unfold memcpy.
  assert (Htk : length (take off dst) = off) by (rewrite length_take; lia).
  assert (Hsrc : take n src = src) by (apply take_ge; lia).
  rewrite Hsrc. split; [|split].
  - rewrite !length_app, Htk, length_drop. lia.
  - rewrite <- Htk at 1. rewrite drop_app_length.
    rewrite <- Hlen. by rewrite take_app_length.
  - intros j [Hj|Hj].
    + rewrite lookup_app_l by lia. apply lookup_take_lt. lia.
    + rewrite lookup_app_r by lia. rewrite lookup_app_r by lia.
      rewrite lookup_drop. f_equal. lia.
Qed.

(** The stride field is outside every slot. *)
Lemma read_guint_memcpy (dst : list byte) (off : nat) (src : list byte)
  (n : nat) :
  (4 ≤ off)%nat → (off + n ≤ length dst)%nat → length src = n →
  read_guint (memcpy dst off src n) = read_guint dst.
Proof.
  intros Hoff Hin Hlen.
  destruct (memcpy_inside dst off src n Hin Hlen) as (Hl & _ & Hsame).
  assert (H0 := Hsame 0%nat ltac:(lia)). assert (H1 := Hsame 1%nat ltac:(lia)).
  assert (H2 := Hsame 2%nat ltac:(lia)). assert (H3 := Hsame 3%nat ltac:(lia)).
  destruct (memcpy dst off src n) as [|a0 [|a1 [|a2 [|a3 m]]]];
    simpl in Hl; try lia.
  destruct dst as [|b0 [|b1 [|b2 [|b3 d]]]]; simpl in Hin; try lia.
  simpl in *. by simplify_eq.
Qed.

(** A Lookup that finds a live element in the cache. *)
Lemma lookup_live key now clock st a e :
  cache_lookup key st = Some a →
  heap st !! a = Some e →
  (has_flag KV_ELT_PERSISTENT e = true ∨ elt_expire e ≤ 0
   ∨ now - elt_age e ≤ elt_expire e) →
  rspamd_kv_storage_lookup key now clock st = (st, Some a).
Proof.
  intros Hl He Hlive.
  destruct (lookup_hit_answer key now clock st a e Hl He) as (Hst & _ & Hiff).
  apply Hiff in Hlive.
  destruct (rspamd_kv_storage_lookup key now clock st). simpl in *.
  by subst.
Qed.

End ArrayFacts.

(** For an [ARRAY] element laid out as stride then slots, a SetArray of
    [stride] bytes at an index whose slot lies inside the payload
    succeeds, writes that slot and nothing else, and a GetArray of the
    same index then points at the bytes written, with the stride as
    length. *)
Theorem set_array_then_get_array `{Layout}
  (key : string) (i : Z) (v : list byte) (now clock : Z)
  (st : rspamd_kv_storage) (a : addr) (e : rspamd_kv_element) (s : Z) :
  cache_lookup key st = Some a →
  heap st !! a = Some e →
  backend st = None →
  has_flag KV_ELT_ARRAY e = true →
  (has_flag KV_ELT_PERSISTENT e = true ∨ elt_expire e ≤ 0
   ∨ now - elt_age e ≤ elt_expire e) →
  read_guint (elt_data e) = Some s →
  0 < s → 0 ≤ i → s * i < 2 ^ 32 →
  Z.of_nat (length (elt_data e)) = elt_size e →
  elt_size e < 2 ^ 64 →
  sizeof_guint + s * i + s ≤ elt_size e →
  Z.of_nat (length v) = s →
  ∃ st' e',
    rspamd_kv_storage_set_array key i v s now clock st = (st', Done true)
    ∧ rspamd_kv_storage_get_array key i now clock st'
      = (st', Done (Some (a, sizeof_guint + s * i, s)))
    ∧ heap st' !! a = Some e'
    ∧ read_slot e' (sizeof_guint + s * i) s = Some v
    ∧ length (elt_data e') = length (elt_data e)
    ∧ ∀ j, (Z.of_nat j < sizeof_guint + s * i
            ∨ sizeof_guint + s * i + s ≤ Z.of_nat j) →
           elt_data e' !! j = elt_data e !! j.
Proof.
  intros Hl He Hb Harr Hlive Hs Hspos Hi Hmul Hlen Hsz Hin Hv.
  unfold sizeof_guint in *.
  assert (Hsi : 0 ≤ s * i) by (apply Z.mul_nonneg_nonneg; lia).
  assert (Hz : (s =? 0) = false) by (apply Z.eqb_neq; lia).
  assert (Hg : to_gsize (elt_size e - 4) = elt_size e - 4).
  { unfold to_gsize. apply Z.mod_small. lia. }
  assert (Hidx : ∀ e0, elt_size e0 = elt_size e → invalid_index e0 s i = false).
  { intros e0 He0. unfold invalid_index, sizeof_guint. rewrite He0, Hg.
    rewrite Z.gtb_ltb. apply Z.ltb_ge.
    apply Z.div_le_lower_bound; [done|]. lia. }
  assert (Hoff : target_offset s i = 4 + s * i).
  { unfold target_offset, to_guint, sizeof_guint.
    rewrite Z.mod_small; [done|]. lia. }
  set (off := Z.to_nat (4 + s * i)).
  set (n := Z.to_nat s).
  assert (Hin' : (off + n ≤ length (elt_data e))%nat) by (unfold off, n; lia).
  assert (Hv' : length v = n) by (unfold n; lia).
  destruct (memcpy_inside (elt_data e) off v n Hin' Hv') as (Hml & Hmr & Hmo).
  set (e' := set_data (memcpy (elt_data e) off v n) e).
  set (st' := update_elt a (set_data (memcpy (elt_data e) off v n)) st).
  assert (He' : heap st' !! a = Some e') by (by apply update_elt_lookup).
  assert (Hb' : backend st' = None).
  { unfold st'. destruct (same_limits_update_elt a
                            (set_data (memcpy (elt_data e) off v n)) st)
      as (_&_&_&_&->). done. }
  exists st', e'. split; [|split; [|split; [done|split; [|split]]]].
  - unfold rspamd_kv_storage_set_array.
    rewrite (lookup_live key now clock st a e Hl He Hlive), He, Harr, Hs, Hz.
    simpl. rewrite (Hidx e eq_refl), Hoff, Z.eqb_refl. simpl.
    replace (4 + s * i + s >? elt_size e) with false
      by (symmetry; rewrite Z.gtb_ltb; apply Z.ltb_ge; lia).
    fold off n st'. unfold backend_replace. by rewrite Hb'.
  - unfold rspamd_kv_storage_get_array.
    assert (Hl' : cache_lookup key st' = Some a).
    { rewrite <- Hl. apply cache_lookup_cache. apply cache_update_elt. }
    rewrite (lookup_live key now clock st' a e' Hl' He' Hlive), He'.
    change (has_flag KV_ELT_ARRAY e') with (has_flag KV_ELT_ARRAY e).
    rewrite Harr. simpl.
    rewrite read_guint_memcpy by (unfold off; lia || done).
    rewrite Hs, Hz, (Hidx e' eq_refl), Hoff. done.
  - unfold read_slot. simpl.
    replace ((0 <=? 4 + s * i) && (4 + s * i + s <=? elt_size e)) with true.
    + fold off n. by rewrite Hmr.
    + symmetry. apply andb_true_iff. split; apply Z.leb_le; lia.
  - exact Hml.
  - intros j Hj. simpl. apply Hmo. unfold off, n. lia.
Qed.

Lemma set_array_then_get_array_witness :
  cache_lookup "arr" array_storage = Some 0%nat
  ∧ heap array_storage !! 0%nat = Some array_element
  ∧ ∃ st' e',
      rspamd_kv_storage_set_array "arr" 0 [x09; x09; x09; x09] 4 0 0
        array_storage = (st', Done true)
      ∧ rspamd_kv_storage_get_array "arr" 0 0 0 st'
        = (st', Done (Some (0%nat, sizeof_guint + 4 * 0, 4)))
      ∧ heap st' !! 0%nat = Some e'
      ∧ read_slot e' (sizeof_guint + 4 * 0) 4 = Some [x09; x09; x09; x09]
      ∧ length (elt_data e') = length (elt_data array_element)
      ∧ ∀ j, (Z.of_nat j < sizeof_guint + 4 * 0
              ∨ sizeof_guint + 4 * 0 + 4 ≤ Z.of_nat j) →
             elt_data e' !! j = elt_data array_element !! j.
Proof.
  split; [reflexivity|]. split; [reflexivity|].
  apply (set_array_then_get_array "arr" 0 [x09; x09; x09; x09] 0 0
           array_storage 0%nat array_element 4);
    first [ reflexivity
          | right; right; simpl; lia
          | unfold sizeof_guint; simpl; lia ].
Defined.

(** An array access that is refused changes nothing: on an element that
    is not an [ARRAY], on an index past the slot count, and for SetArray
    on a length other than the stride, the answer is [FALSE] and the
    storage is as before. *)
Theorem array_access_refused `{Layout}
  (key : string) (i : Z) (v : list byte) (len now clock : Z)
  (st : rspamd_kv_storage) (a : addr) (e : rspamd_kv_element) (s : Z) :
  cache_lookup key st = Some a →
  heap st !! a = Some e →
  (has_flag KV_ELT_PERSISTENT e = true ∨ elt_expire e ≤ 0
   ∨ now - elt_age e ≤ elt_expire e) →
  read_guint (elt_data e) = Some s →
  s ≠ 0 →
  (has_flag KV_ELT_ARRAY e = false
   ∨ to_gsize (elt_size e - sizeof_guint) / s < i
   ∨ len ≠ s) →
  rspamd_kv_storage_set_array key i v len now clock st = (st, Done false)
  ∧ (has_flag KV_ELT_ARRAY e = false
     ∨ to_gsize (elt_size e - sizeof_guint) / s < i →
     rspamd_kv_storage_get_array key i now clock st = (st, Done None)).
Proof.
  intros Hl He Hlive Hs Hne Hbad.
  assert (Hz : (s =? 0) = false) by (by apply Z.eqb_neq).
  unfold rspamd_kv_storage_set_array, rspamd_kv_storage_get_array.
  rewrite (lookup_live key now clock st a e Hl He Hlive), He.
  destruct (has_flag KV_ELT_ARRAY e) eqn:Harr; simpl; [|done].
  rewrite Hs, Hz. unfold invalid_index. rewrite Z.gtb_ltb.
  destruct (to_gsize (elt_size e - sizeof_guint) / s <? i) eqn:Hi; [done|].
  apply Z.ltb_ge in Hi.
  destruct Hbad as [?|[?|Hlen]]; [done | lia |].
  replace (len =? s) with false by (symmetry; by apply Z.eqb_neq).
  simpl. split; [done|]. intros [?|?]; [done | lia].
Qed.

Lemma array_access_refused_witness :
  cache_lookup "arr" array_storage = Some 0%nat
  ∧ heap array_storage !! 0%nat = Some array_element
  ∧ rspamd_kv_storage_set_array "arr" 1 [x09; x09; x09] 3 0 0 array_storage
    = (array_storage, Done false).
Proof.
  split; [reflexivity|]. split; [reflexivity|].
  apply (array_access_refused "arr" 1 [x09; x09; x09] 3 0 0 array_storage
           0%nat array_element 4); try reflexivity.
  - right; right. simpl. lia.
  - discriminate.
  - right; right. discriminate.
Defined.

(** ** The radix cache *)

(** A key the validator answers 0 for, be it no address at all or the
    address 0.0.0.0, is refused by Insert on the radix cache: the result
    is [FALSE], no record is allocated and the tree gains no entry. *)
Theorem radix_insert_refuses_rejected_key `{Layout}
  (key : string) (t : gmap Z addr) (data : list byte)
  (len flags lifetime clock : Z) (st : rspamd_kv_storage) :
  cache st = RadixCache t →
  rspamd_kv_radix_validate key = 0 →
  ∃ st', rspamd_kv_storage_insert key data len flags lifetime clock st
         = (st', false)
    ∧ length (heap st') = length (heap st)
    ∧ ∃ t', cache st' = RadixCache t' ∧ t' ⊆ t.
Proof.
  intros Hc Hv. unfold rspamd_kv_storage_insert.
  pose proof (index_shrinks_check_limits (insert_breach len) len clock st)
    as Hs.
  destruct (check_limits (insert_breach len) len clock st) as [st1 [|]];
    simpl in Hs.
  - unfold insert_after_limits.
    destruct (duplicate_removal_frame key st1) as [_ Hs2].
    set (st2 := match cache_lookup key st1 with
                | Some elt =>
                    dispose elt (cache_steal elt (expire_delete elt st1))
                | None => st1
                end) in *.
    pose proof (index_shrinks_trans _ _ _ Hs Hs2) as [Hl2 Hc2].
    rewrite Hc in Hc2.
    destruct (cache st2) as [|t2] eqn:Hst2; [done|].
    exists st2. unfold cache_insert, rspamd_kv_radix_insert.
    rewrite Hst2, Hv. simpl.
    split; [done|]. split; [done|]. by exists t2.
  - destruct Hs as [Hl1 Hc1]. rewrite Hc in Hc1.
    destruct (cache st1) as [|t1] eqn:Hst1; [done|].
    exists st1. split; [done|]. split; [done|]. by exists t1.
Qed.

Lemma radix_insert_refuses_rejected_key_witness :
  cache radix_storage = RadixCache {[ 16777226 := 0%nat ]}
  ∧ rspamd_kv_radix_validate "not-an-ip" = 0
  ∧ ∃ st', rspamd_kv_storage_insert "not-an-ip" [x76] 1 0 10 0 radix_storage
           = (st', false)
      ∧ length (heap st') = length (heap radix_storage)
      ∧ ∃ t', cache st' = RadixCache t' ∧ t' ⊆ {[ 16777226 := 0%nat ]}.
Proof.
  split; [reflexivity|]. split; [reflexivity|].
  apply (radix_insert_refuses_rejected_key "not-an-ip"
           {[ 16777226 := 0%nat ]} [x76] 1 0 10 0 radix_storage);
    reflexivity.
Defined.

(** On the radix cache a key is its address: after the Insert of an
    address the tree did not hold, with the limits switched off, every
    key that validates to the same address finds the new record, which
    has the time of the Insert as its age, [len] as its size, a [keylen]
    of 0 and the first [len] bytes of the data as its payload. *)
Theorem radix_insert_then_lookup `{Layout}
  (key key' : string) (t : gmap Z addr) (data : list byte)
  (len flags lifetime clock : Z) (st : rspamd_kv_storage) :
  max_memory st = 0 →
  cache st = RadixCache t →
  rspamd_kv_radix_validate key ≠ 0 →
  t !! rspamd_kv_radix_validate key = None →
  rspamd_kv_radix_validate key' = rspamd_kv_radix_validate key →
  let st' :=
    (rspamd_kv_storage_insert key data len flags lifetime clock st).1 in
  cache_lookup key' st' = Some (length (heap st))
  ∧ ∃ e, heap st' !! length (heap st) = Some e
      ∧ elt_age e = clock ∧ elt_size e = len ∧ elt_keylen e = 0
      ∧ elt_data e = take (Z.to_nat len) data.
Proof.
  intros Hm Hc Hv Hfresh Hsame. cbv zeta.
  unfold rspamd_kv_storage_insert. rewrite check_limits_disabled by done.
  unfold insert_after_limits.
  assert (Hl : cache_lookup key st = None).
  { unfold cache_lookup, rspamd_kv_radix_lookup, radix32tree_find.
    by rewrite Hc. }
  rewrite Hl. unfold cache_insert, rspamd_kv_radix_insert, radix32tree_find.
  rewrite Hc, Hfresh.
  replace (rspamd_kv_radix_validate key =? 0) with false
    by (symmetry; by apply Z.eqb_neq).
  unfold alloc.
  set (a := length (heap st)).
  set (st3 := set_cache _ _).
  set (upd := λ e : rspamd_kv_element, _).
  set (new := radix_new_element key data len clock).
  assert (He3 : heap st3 !! a = Some new).
  { unfold st3, a. simpl. by apply list_lookup_middle. }
  pose proof (update_elt_lookup a upd st3 new He3) as He4.
  destruct (backend_insert_lookup key a _ _ He4) as (e5 & He5 & Hsf).
  pose proof (cache_backend_insert key a (update_elt a upd st3)) as Hc5.
  destruct (backend_insert key a (update_elt a upd st3)) as [st5 res].
  simpl in He5, Hc5. simpl.
  rewrite heap_expire_insert. split.
  - rewrite (cache_lookup_cache st3 _ key').
    + unfold cache_lookup, rspamd_kv_radix_lookup, radix32tree_find, st3.
      simpl. unfold radix32tree_insert. rewrite Hfresh, Hsame.
      apply lookup_insert_eq.
    + simpl. by rewrite cache_expire_insert, Hc5, cache_update_elt.
  - exists e5. split; [done|].
    destruct Hsf as (Ha & _ & Hsz & Hkl & _ & Hd).
    rewrite Ha, Hsz, Hkl, Hd. unfold upd, new. by destruct (lifetime =? 0).
Qed.

Lemma radix_insert_then_lookup_witness :
  rspamd_kv_radix_validate "10.0.2" = rspamd_kv_radix_validate "10.0.0.2"
  ∧ cache_lookup "10.0.2"
      (rspamd_kv_storage_insert "10.0.0.2" [x77] 1 0 10 0 radix_storage).1
    = Some (length (heap radix_storage)).
Proof.
  split; [reflexivity|].
  apply (radix_insert_then_lookup "10.0.0.2" "10.0.2"
           {[ 16777226 := 0%nat ]} [x77] 1 0 10 0 radix_storage);
    [reflexivity | reflexivity | discriminate | reflexivity | reflexivity].
Defined.

(** ** Replace *)

(** Replace on the hashed cache needs the key to be there: for a key the
    cache does not hold, with the limits switched off, it answers
    [FALSE] and leaves the storage as it is. *)
Theorem replace_absent_key `{Layout}
  (key : string) (elt : addr) (clock : Z) (st : rspamd_kv_storage)
  (h : gmap string addr) :
  max_memory st = 0 →
  cache st = HashCache h →
  h !! strcase_fold key = None →
  rspamd_kv_storage_replace key elt clock st = (st, false).
Proof.
  intros Hm Hc Hk. unfold rspamd_kv_storage_replace.
  rewrite check_limits_disabled by done.
  unfold cache_replace, rspamd_kv_hash_replace. by rewrite Hc, Hk.
Qed.

Lemma replace_absent_key_witness :
  cache array_storage = HashCache {[ "arr" := 0%nat ]}
  ∧ rspamd_kv_storage_replace "nokey" 0%nat 0 array_storage
    = (array_storage, false).
Proof.
  split; [reflexivity|].
  apply (replace_absent_key "nokey" 0%nat 0 array_storage
           {[ "arr" := 0%nat ]}); reflexivity.
Defined.

(** Replace on the hashed cache swaps the record in the index and does
    nothing else: the new record is bound under its own key, the old one
    is disposed by the [DIRTY] rule, and neither the counters nor the
    expire queue are touched, so the old record stays queued. *)
Theorem replace_swaps_index_only `{Layout}
  (key : string) (elt old : addr) (clock : Z) (st : rspamd_kv_storage)
  (h : gmap string addr) (en eo : rspamd_kv_element) :
  max_memory st = 0 →
  cache st = HashCache h →
  backend st = None →
  h !! strcase_fold key = Some old →
  heap st !! old = Some eo →
  heap st !! elt = Some en →
  ∃ st', rspamd_kv_storage_replace key elt clock st = (st', true)
    ∧ cache_lookup (elt_key en) st' = Some elt
    ∧ elts st' = elts st ∧ memory st' = memory st
    ∧ queue st' = queue st
    ∧ (has_flag KV_ELT_DIRTY eo = false → freed st' = old :: freed st)
    ∧ (has_flag KV_ELT_DIRTY eo = true → freed st' = freed st).
Proof.
  intros Hm Hc Hb Hk Ho Hn. unfold rspamd_kv_storage_replace.
  rewrite check_limits_disabled by done.
  unfold cache_replace, rspamd_kv_hash_replace. rewrite Hc, Hk.
  assert (He1 : ∃ e1, heap (dispose old st) !! elt = Some e1
                      ∧ elt_key e1 = elt_key en).
  { unfold dispose. rewrite Ho.
    destruct (has_flag KV_ELT_DIRTY eo); [|by exists en].
    destruct (decide (old = elt)) as [->|Hne].
    - eexists. split; [by apply update_elt_lookup|]. simpl. congruence.
    - exists en. by rewrite update_elt_lookup_ne. }
  destruct He1 as (e1 & He1 & Hk1). rewrite He1, Hk1.
  set (st2 := set_cache _ (dispose old st)).
  assert (Hb2 : backend st2 = None).
  { unfold st2. simpl.
    by destruct (same_limits_dispose old st) as (_&_&_&_&->). }
  exists st2. unfold backend_replace. rewrite Hb2.
  destruct (same_limits_dispose old st) as (Hel & Hmem & _).
  split; [done|]. unfold cache_lookup, st2. simpl.
  rewrite Hel, Hmem. split; [apply lookup_insert_eq|].
  split; [done|]. split; [done|].
  change (queue (set_cache ?c ?s)) with (queue s). rewrite queue_dispose.
  split; [done|].
  unfold dispose. rewrite Ho.
  split; intros ->; [done | by rewrite freed_update_elt].
Qed.

Lemma replace_swaps_index_only_witness :
  heap two_ages_storage !! 0%nat = Some old_element
  ∧ heap two_ages_storage !! 1%nat = Some new_element
  ∧ ∃ st', rspamd_kv_storage_replace "old" 1%nat 0 two_ages_storage
           = (st', true)
      ∧ cache_lookup (elt_key new_element) st' = Some 1%nat
      ∧ elts st' = elts two_ages_storage
      ∧ memory st' = memory two_ages_storage
      ∧ queue st' = queue two_ages_storage
      ∧ (has_flag KV_ELT_DIRTY old_element = false →
         freed st' = 0%nat :: freed two_ages_storage)
      ∧ (has_flag KV_ELT_DIRTY old_element = true →
         freed st' = freed two_ages_storage).
Proof.
  split; [reflexivity|]. split; [reflexivity|].
  apply (replace_swaps_index_only "old" 1%nat 0%nat 0 two_ages_storage
           {[ "old" := 0%nat; "new" := 1%nat ]} new_element old_element);
    reflexivity.
Defined.

(** ** Lookup through the backend *)

Section Backend.
Context `{Layout}.

(** InsertInternal on a hashed cache with the limits switched off: the
    record, the index and the counters. *)
Lemma insert_internal_record key data len flags lifetime clock st h :
  max_memory st = 0 → cache st = HashCache h →
  ∃ st' a h',
    rspamd_kv_storage_insert_internal key data len flags lifetime clock st
    = (st', Some a)
    ∧ cache st' = HashCache h'
    ∧ h' !! strcase_fold key = Some a
    ∧ heap st' !! a
      = Some (set_expire lifetime
                (set_flags flags (hash_new_element key data len clock)))
    ∧ elts st' = to_gsize (elts st + 1)
    ∧ memory st' = to_gsize (memory st + (len + sizeof_elt)).
Proof.
  intros Hm Hc. unfold rspamd_kv_storage_insert_internal.
  rewrite check_limits_disabled by done.
  destruct (cache_insert_hash key data len clock st h Hc)
    as (st2 & a & h2 & -> & Hc2 & Hh2 & He2 & Hl2).
  set (upd := λ e : rspamd_kv_element, _).
  pose proof (update_elt_lookup a upd st2 _ He2) as He3.
  pose proof (same_limits_update_elt a upd st2) as Hl3.
  pose proof (same_limits_expire_insert a (update_elt a upd st2)) as Hl4.
  destruct (same_limits_trans _ _ _ Hl2 (same_limits_trans _ _ _ Hl3 Hl4))
    as (Hel & Hmem & _).
  eexists _, a, h2. split; [done|]. simpl.
  rewrite heap_expire_insert, cache_expire_insert, cache_update_elt, He3,
    Hel, Hmem.
  by repeat split.
Qed.

End Backend.

(** A Lookup that misses the cache and finds the key in the backend puts
    the backend's copy into the cache through InsertInternal: the new
    record is bound under the copy's key and counted, it carries the
    copy's flags, lifetime and bytes, and its age is the time of the
    Lookup, not the age the backend had. *)
Theorem lookup_admits_backend_copy `{Layout}
  (key : string) (now clock : Z) (st : rspamd_kv_storage)
  (h : gmap string addr) (b : rspamd_kv_backend)
  (belt : rspamd_kv_element) :
  max_memory st = 0 →
  cache st = HashCache h →
  h !! strcase_fold key = None →
  backend st = Some b →
  lookup_func b key = Some belt →
  ∃ st' a e,
    (rspamd_kv_storage_lookup key now clock st).1 = st'
    ∧ cache_lookup (elt_key belt) st' = Some a
    ∧ heap st' !! a = Some e
    ∧ elt_age e = clock
    ∧ elt_flags e = elt_flags belt ∧ elt_expire e = elt_expire belt
    ∧ elt_data e = take (Z.to_nat (elt_size belt)) (elt_data belt)
    ∧ elts st' = to_gsize (elts st + 1)
    ∧ memory st' = to_gsize (memory st + (elt_size belt + sizeof_elt))
    ∧ ((rspamd_kv_storage_lookup key now clock st).2 = Some a
       ↔ (has_flag KV_ELT_PERSISTENT belt = true ∨ elt_expire belt ≤ 0
          ∨ now - clock ≤ elt_expire belt)).
Proof.
  intros Hm Hc Hk Hb Hbl.
  destruct (insert_internal_record (elt_key belt) (elt_data belt)
              (elt_size belt) (elt_flags belt) (elt_expire belt) clock st h
              Hm Hc) as (st1 & a & h1 & Hi & Hc1 & Hh1 & He1 & Hel & Hmem).
  set (e := set_expire (elt_expire belt) _) in He1.
  assert (Hl1 : cache_lookup (elt_key belt) st1 = Some a).
  { unfold cache_lookup. by rewrite Hc1. }
  exists st1, a, e.
  unfold rspamd_kv_storage_lookup.
  assert (Hmiss : cache_lookup key st = None).
  { unfold cache_lookup. by rewrite Hc. }
  rewrite Hmiss, Hb, Hbl, Hi, He1.
  change (has_flag KV_ELT_PERSISTENT e)
    with (has_flag KV_ELT_PERSISTENT belt).
  change (elt_expire e) with (elt_expire belt).
  change (elt_age e) with clock.
  split.
  { by destruct (negb (has_flag KV_ELT_PERSISTENT belt)
                 && (elt_expire belt >? 0)
                 && (now - clock >? elt_expire belt)). }
  split; [done|]. split; [done|]. split; [done|]. split; [done|].
  split; [done|]. split; [done|]. split; [done|]. split; [done|].
  destruct (has_flag KV_ELT_PERSISTENT belt); simpl.
  { split; [by left | done]. }
  destruct (elt_expire belt >? 0) eqn:Hx; simpl.
  - destruct (now - clock >? elt_expire belt) eqn:Hn; simpl;
      rewrite Z.gtb_ltb in Hx, Hn.
    + apply Z.ltb_lt in Hx, Hn.
      split; [done|]. intros [?|[?|?]]; [done | lia | lia].
    + apply Z.ltb_ge in Hn. split; [|done]. intros _. by right; right.
  - rewrite Z.gtb_ltb in Hx. apply Z.ltb_ge in Hx.
    split; [|done]. intros _. by right; left.
Qed.

Lemma lookup_admits_backend_copy_witness :
  lookup_func serving_backend "b1" = Some backend_record
  ∧ ∃ st' a e,
      (rspamd_kv_storage_lookup "b1" 100 100 backed_storage).1 = st'
      ∧ cache_lookup (elt_key backend_record) st' = Some a
      ∧ heap st' !! a = Some e
      ∧ elt_age e = 100
      ∧ elt_flags e = elt_flags backend_record
      ∧ elt_expire e = elt_expire backend_record
      ∧ elt_data e
        = take (Z.to_nat (elt_size backend_record)) (elt_data backend_record)
      ∧ elts st' = to_gsize (elts backed_storage + 1)
      ∧ memory st'
        = to_gsize (memory backed_storage
                    + (elt_size backend_record + sizeof_elt))
      ∧ ((rspamd_kv_storage_lookup "b1" 100 100 backed_storage).2 = Some a
         ↔ (has_flag KV_ELT_PERSISTENT backend_record = true
            ∨ elt_expire backend_record ≤ 0
            ∨ 100 - 100 ≤ elt_expire backend_record)).
Proof.
  split; [reflexivity|].
  apply (lookup_admits_backend_copy "b1" 100 100 backed_storage ∅
           serving_backend backend_record); reflexivity.
Defined.

(** ** Elements without expiry, through Insert *)

Section PersistentFacts.
Context `{Layout}.

Lemma persistent_is_pinned e :
  has_flag KV_ELT_PERSISTENT e = true → pinned e = true.
Proof.
  unfold pinned, has_flag. rewrite !negb_true_iff, !Z.eqb_neq.
  intros Hp Hz. apply Hp. rewrite Z.land_lor_distr_r in Hz.
  by apply Z.lor_eq_0_iff in Hz as [? _].
Qed.

Lemma insert_flags_persistent flags f :
  (f = insert_flags flags 0 ∨ f = Z.lor (insert_flags flags 0) KV_ELT_DIRTY) →
  Z.land f KV_ELT_PERSISTENT ≠ 0.
Proof.
  unfold insert_flags. simpl. intros [->| ->] Hz;
    rewrite ?Z.land_lor_distr_l, ?Z.land_diag in Hz;
    repeat (apply Z.lor_eq_0_iff in Hz as [Hz ?]); done.
Qed.

End PersistentFacts.

(** The record an Insert with [expire = 0] stores in a hashed cache is
    [PERSISTENT], under any limits and backend, and no unforced expire
    step frees it, however late. *)
Theorem insert_without_expiry_survives `{Layout}
  (key : string) (data : list byte) (len flags clock now : Z)
  (st st' : rspamd_kv_storage) (h : gmap string addr) :
  cache st = HashCache h →
  rspamd_kv_storage_insert key data len flags 0 clock st = (st', true) →
  ∃ a e, cache_lookup key st' = Some a
    ∧ heap st' !! a = Some e
    ∧ has_flag KV_ELT_PERSISTENT e = true
    ∧ (a ∈ freed (expire_step now 0 st') → a ∈ freed st').
Proof.
  intros Hc Hi.
  destruct (insert_true_inv _ _ _ _ _ _ _ _ Hi) as (st1 & Hcl & Hi1).
  destruct (check_limits_keeps_hash (insert_breach len) len clock st h Hc)
    as [h1 Hc1].
  rewrite Hcl in Hc1. simpl in Hc1.
  destruct (insert_after_limits_record key data len flags 0 clock st1 h1 Hc1)
    as (st2 & res & a & e & h2 & Hi2 & Hc2 & Hh2 & He & _ & _ & _ & _ & _
        & Hfl).
  rewrite Hi1 in Hi2. injection Hi2 as <- _.
  assert (Hp : has_flag KV_ELT_PERSISTENT e = true).
  { unfold has_flag. rewrite negb_true_iff, Z.eqb_neq.
    by apply (insert_flags_persistent flags). }
  exists a, e. split; [unfold cache_lookup; by rewrite Hc2|].
  split; [done|]. split; [done|].
  intros Hin.
  apply expire_step_freed_unpinned in Hin as [?|(e0 & He0 & Hp0)];
    [done|].
  rewrite He in He0. injection He0 as <-.
  by rewrite (persistent_is_pinned e Hp) in Hp0.
Qed.

Lemma insert_without_expiry_survives_witness :
  rspamd_kv_storage_insert "p" [x31] 1 0 0 0 (hash_lru_storage 2 1000)
  = ((rspamd_kv_storage_insert "p" [x31] 1 0 0 0
        (hash_lru_storage 2 1000)).1, true)
  ∧ ∃ a e,
      cache_lookup "p"
        (rspamd_kv_storage_insert "p" [x31] 1 0 0 0
           (hash_lru_storage 2 1000)).1 = Some a
      ∧ heap (rspamd_kv_storage_insert "p" [x31] 1 0 0 0
                (hash_lru_storage 2 1000)).1 !! a = Some e
      ∧ has_flag KV_ELT_PERSISTENT e = true
      ∧ (a ∈ freed
               (expire_step 1000000000 0
                  (rspamd_kv_storage_insert "p" [x31] 1 0 0 0
                     (hash_lru_storage 2 1000)).1) →
         a ∈ freed (rspamd_kv_storage_insert "p" [x31] 1 0 0 0
                      (hash_lru_storage 2 1000)).1).
Proof.
  split; [reflexivity|].
  apply (insert_without_expiry_survives "p" [x31] 1 0 0 1000000000
           (hash_lru_storage 2 1000) _ ∅ eq_refl eq_refl).
Defined.

(** ** The count and the queue, through Insert and Delete *)

Section CountFacts.
Context `{Layout}.

Lemma expire_update_elt a f st : expire (update_elt a f st) = expire st.
Proof. unfold update_elt. by destruct (heap st !! a). Qed.

Lemma length_lru_delete a q :
  NoDup q → a ∈ q → S (length (rspamd_lru_delete a q)) = length q.
Proof.
  induction q as [|x q IH]; intros Hnd Hin; [inversion Hin|].
  destruct (decide (x = a)) as [->|Hne].
  - by rewrite lru_delete_head.
  - apply elem_of_cons in Hin as [?|Hin]; [congruence|].
    apply NoDup_cons in Hnd as [_ Hnd].
    unfold rspamd_lru_delete in *. rewrite filter_cons.
    destruct (decide (x ≠ a)) as [_|?]; [|done].
    simpl. by rewrite IH.
Qed.

Lemma NoDup_lru_delete a q : NoDup q → NoDup (rspamd_lru_delete a q).
Proof. intros Hnd. unfold rspamd_lru_delete. by apply NoDup_filter. Qed.

End CountFacts.

(** An Insert of a key the hashed cache does not hold keeps count: with
    the limits switched off, on a storage whose queue is without
    repetition and holds allocated records only and whose [elts] is the
    length of the queue, the new record goes to the tail of the queue and
    [elts] is the length of the queue again. *)
Theorem insert_new_key_keeps_count `{Layout}
  (key : string) (data : list byte) (len flags lifetime clock : Z)
  (st : rspamd_kv_storage) (h : gmap string addr) (q : list addr) :
  max_memory st = 0 →
  cache st = HashCache h →
  h !! strcase_fold key = None →
  expire st = Some (LruExpire q) →
  NoDup q →
  (∀ x, x ∈ q → (x < length (heap st))%nat) →
  elts st = Z.of_nat (length q) →
  elts st + 1 < 2 ^ 64 →
  let st' :=
    (rspamd_kv_storage_insert key data len flags lifetime clock st).1 in
  queue st' = q ++ [length (heap st)]
  ∧ NoDup (queue st')
  ∧ elts st' = Z.of_nat (length (queue st')).
Proof.
  intros Hm Hc Hk Hq Hnd Hwf He Hlt. cbv zeta.
  unfold rspamd_kv_storage_insert. rewrite check_limits_disabled by done.
  unfold insert_after_limits.
  assert (Hl : cache_lookup key st = None).
  { unfold cache_lookup. by rewrite Hc. }
  rewrite Hl, (cache_insert_hash_fresh key data len clock st h Hc Hk).
  set (a := length (heap st)).
  set (st3 := set_cache _ _).
  set (upd := λ e : rspamd_kv_element, _).
  destruct (backend_insert_frame key a (update_elt a upd st3))
    as (_ & _ & Hx5 & _).
  pose proof (same_limits_backend_insert key a (update_elt a upd st3)) as Hl5.
  destruct (backend_insert key a (update_elt a upd st3)) as [st5 res].
  simpl in Hx5, Hl5. simpl.
  assert (Hq5 : expire st5 = Some (LruExpire q)).
  { rewrite Hx5, expire_update_elt. exact Hq. }
  assert (He5 : elts st5 = elts st).
  { destruct Hl5 as (-> & _).
    by destruct (same_limits_update_elt a upd st3) as (-> & _). }
  assert (Hq6 : queue (expire_insert a st5) = q ++ [a]).
  { unfold queue, expire_insert. by rewrite Hq5. }
  change (queue (set_memory ?m (set_elts ?n ?s))) with (queue s).
  rewrite Hq6. split; [done|]. split.
  - apply NoDup_app. split; [done|]. split; [|apply NoDup_singleton].
    intros x Hx Hxa. apply elem_of_cons in Hxa as [->|Hxa];
      [|inversion Hxa].
    apply Hwf in Hx. unfold a in Hx. lia.
  - destruct (same_limits_expire_insert a st5) as (-> & _).
    rewrite He5, He, length_app. simpl. unfold to_gsize.
    rewrite Z.mod_small; lia.
Qed.

Lemma insert_new_key_keeps_count_witness :
  expire array_storage = Some (LruExpire [0%nat])
  ∧ elts array_storage = Z.of_nat (length [0%nat])
  ∧ queue (rspamd_kv_storage_insert "k" [x31] 1 0 10 0 array_storage).1
    = [0%nat] ++ [length (heap array_storage)]
  ∧ NoDup (queue (rspamd_kv_storage_insert "k" [x31] 1 0 10 0
                    array_storage).1)
  ∧ elts (rspamd_kv_storage_insert "k" [x31] 1 0 10 0 array_storage).1
    = Z.of_nat
        (length (queue (rspamd_kv_storage_insert "k" [x31] 1 0 10 0
                          array_storage).1)).
Proof.
  split; [reflexivity|]. split; [reflexivity|].
  apply (insert_new_key_keeps_count "k" [x31] 1 0 10 0 array_storage
           {[ "arr" := 0%nat ]} [0%nat]);
    [reflexivity | reflexivity | reflexivity | reflexivity
    | apply NoDup_singleton | | reflexivity | reflexivity].
  intros x Hx. apply elem_of_cons in Hx as [->|Hx]; [|inversion Hx].
  change (0 < 1)%nat. lia.
Defined.

(** A Delete of a queued element keeps count too: on such a storage the
    queue loses exactly the deleted record and [elts] is its length
    again. *)
Theorem delete_keeps_count `{Layout}
  (key : string) (st : rspamd_kv_storage) (a : addr) (q : list addr) :
  cache_lookup key st = Some a →
  expire st = Some (LruExpire q) →
  NoDup q →
  a ∈ q →
  elts st = Z.of_nat (length q) →
  elts st < 2 ^ 64 →
  let st' := (rspamd_kv_storage_delete key st).1 in
  queue st' = rspamd_lru_delete a q
  ∧ NoDup (queue st')
  ∧ elts st' = Z.of_nat (length (queue st')).
Proof.
  intros Hl Hq Hnd Hin He Hlt. cbv zeta.
  unfold rspamd_kv_storage_delete.
  pose proof (cache_delete_result key st) as Hr. rewrite Hl in Hr.
  destruct (cache_delete_frame key st) as (_ & _ & Hx & Hlim).
  destruct (cache_delete key st) as [st1 r]. simpl in *. subst r. simpl.
  change (queue (set_memory ?m (set_elts ?n ?s))) with (queue s).
  rewrite queue_expire_delete. unfold queue at 1 2 3. rewrite Hx, Hq.
  split; [done|]. split; [by apply NoDup_lru_delete|].
  destruct (same_limits_expire_delete a st1) as (-> & _).
  destruct Hlim as (-> & _).
  pose proof (length_lru_delete a q Hnd Hin) as Hlen.
  rewrite He. unfold to_gsize. rewrite He in Hlt.
  rewrite Z.mod_small; lia.
Qed.

Lemma delete_keeps_count_witness :
  cache_lookup "new" two_ages_storage = Some 1%nat
  ∧ expire two_ages_storage = Some (LruExpire [0%nat; 1%nat])
  ∧ queue (rspamd_kv_storage_delete "new" two_ages_storage).1
    = rspamd_lru_delete 1%nat [0%nat; 1%nat]
  ∧ NoDup (queue (rspamd_kv_storage_delete "new" two_ages_storage).1)
  ∧ elts (rspamd_kv_storage_delete "new" two_ages_storage).1
    = Z.of_nat
        (length (queue (rspamd_kv_storage_delete "new" two_ages_storage).1)).
Proof.
  split; [reflexivity|]. split; [reflexivity|].
  apply (delete_keeps_count "new" two_ages_storage 1%nat [0%nat; 1%nat]);
    [reflexivity | reflexivity | | | reflexivity | reflexivity].
  - apply NoDup_cons. split; [|apply NoDup_singleton].
    intros Hin. apply elem_of_cons in Hin as [Hin|Hin]; [discriminate Hin|].
    inversion Hin.
  - apply elem_of_cons. right. apply elem_of_cons. by left.
Defined.

(** ** The element bound, where it is enforced *)

Section BoundFacts.
Context `{Layout}.

Lemma limit_loop_true breach clock left steps st st1 :
  limit_loop breach clock left steps st = (st1, true) → breach st1 = false.
Proof.
  revert steps st. induction left as [|left IH]; intros steps st; simpl;
    destruct (breach st) eqn:Hb; try done.
  - by intros [= <-].
  - apply IH.
  - by intros [= <-].
Qed.

Lemma limit_loop_bounds breach clock left steps st :
  same_bounds st (limit_loop breach clock left steps st).1
  ∧ (0 ≤ elts st → 0 ≤ elts (limit_loop breach clock left steps st).1).
Proof.
  revert steps st. induction left as [|left IH]; intros steps st; simpl;
    destruct (breach st); simpl; try done.
  - apply expire_step_bounds.
  - destruct (expire_step_bounds clock steps st) as [Hb Hn].
    destruct (IH (steps + 1) (expire_step clock steps st)) as [Hb' Hn'].
    split; [by eapply same_bounds_trans | auto].
Qed.

End BoundFacts.

(** Under a memory bound the element bound holds after every Insert that
    returns [TRUE] on a hashed cache: the limits block only lets the
    Insert through with [elts < max_elts], so afterwards [elts] is at
    most [max_elts]. *)
Theorem insert_respects_max_elts `{Layout}
  (key : string) (data : list byte) (len flags lifetime clock : Z)
  (st st' : rspamd_kv_storage) (h : gmap string addr) :
  0 < max_memory st →
  cache st = HashCache h →
  0 ≤ elts st →
  max_elts st < 2 ^ 64 →
  rspamd_kv_storage_insert key data len flags lifetime clock st
  = (st', true) →
  max_elts st' = max_elts st ∧ 0 < elts st' ≤ max_elts st.
Proof.
  intros Hpos Hc He Hmax Hi.
  destruct (insert_true_inv _ _ _ _ _ _ _ _ Hi) as (st1 & Hcl & Hi1).
  destruct (check_limits_keeps_hash (insert_breach len) len clock st h Hc)
    as [h1 Hc1].
  rewrite Hcl in Hc1. simpl in Hc1.
  assert (Hb1 : insert_breach len st1 = false
                ∧ max_elts st1 = max_elts st ∧ 0 ≤ elts st1).
  { revert Hcl. unfold check_limits.
    replace (max_memory st >? 0) with true
      by (symmetry; rewrite Z.gtb_ltb; by apply Z.ltb_lt).
    destruct (len >? max_memory st); [done|].
    intros Hloop.
    destruct (limit_loop_bounds (insert_breach len) clock MAX_EXPIRE_STEPS 0
                st) as [(Hme & _) Hn].
    rewrite Hloop in Hme, Hn. simpl in Hme, Hn.
    split; [by eapply limit_loop_true|]. split; [done | by apply Hn]. }
  destruct Hb1 as (Hbr & Hme1 & He1).
  destruct (insert_after_limits_hash key data len flags lifetime clock st1 h1
              Hc1)
    as (st2 & res & a & e & h2 & Hi2 & Hel & _ & _ & Hme2 & _).
  rewrite Hi1 in Hi2. injection Hi2 as <- _.
  unfold insert_breach in Hbr. apply orb_false_iff in Hbr as [_ Hbr].
  rewrite Z.geb_leb in Hbr. apply Z.leb_gt in Hbr.
  rewrite Hme2, Hel, Hme1. split; [done|].
  unfold to_gsize. rewrite Z.mod_small; lia.
Qed.

Lemma insert_respects_max_elts_witness :
  rspamd_kv_storage_insert "x" [x76] 1 0 5 0 (hash_lru_storage 2 1000)
  = ((rspamd_kv_storage_insert "x" [x76] 1 0 5 0
        (hash_lru_storage 2 1000)).1, true)
  ∧ 0 < elts (rspamd_kv_storage_insert "x" [x76] 1 0 5 0
                (hash_lru_storage 2 1000)).1
      ≤ max_elts (hash_lru_storage 2 1000).
Proof.
  split; [reflexivity|].
  apply (insert_respects_max_elts "x" [x76] 1 0 5 0
           (hash_lru_storage 2 1000) _ ∅);
    [reflexivity | reflexivity | simpl; lia | reflexivity | reflexivity].
Defined.

(** ** Three Inserts and the element bound *)

Section ThreeInserts.
Context `{Layout}.

(** Past the limits block, Insert of a key the hashed cache does not hold,
    with no backend: the storage it leaves. *)
Lemma insert_after_limits_fresh c st h q :
  cache st = HashCache h →
  h !! strcase_fold (arg_key c) = None →
  backend st = None →
  expire st = Some (LruExpire q) →
  insert_after_limits (arg_key c) (arg_data c) (arg_len c) (arg_flags c)
    (arg_expire c) (arg_time c) st
  = (after_fresh_insert c h q st, true).
Proof.
  intros Hc Hk Hb Hq. unfold insert_after_limits.
  assert (Hl : cache_lookup (arg_key c) st = None).
  { unfold cache_lookup, rspamd_kv_hash_lookup. by rewrite Hc. }
  rewrite Hl, (cache_insert_hash_fresh _ _ _ _ st h Hc Hk).
  unfold update_elt. simpl.
  rewrite list_lookup_middle by done.
  unfold backend_insert. simpl. rewrite Hb.
  unfold expire_insert. simpl. rewrite Hq. simpl.
  unfold rspamd_lru_insert, after_fresh_insert, stored_element, insert_flags.
  rewrite insert_app_r_alt by done. rewrite Nat.sub_diag. simpl.
  unfold set_memory, set_elts, set_queue, set_heap, set_cache. simpl.
  rewrite Hb. by destruct (arg_expire c =? 0).
Qed.

Lemma to_gsize_small z : 0 ≤ z < 2 ^ 64 → to_gsize z = z.
Proof. intros Hz. unfold to_gsize. by apply Z.mod_small. Qed.

(** No breach: the value fits under the memory bound and the element
    bound is not reached. *)
Lemma insert_breach_false len st :
  0 ≤ memory st + len ≤ max_memory st → max_memory st < 2 ^ 64 →
  elts st < max_elts st →
  insert_breach len st = false.
Proof.
  intros Hm Hx He. unfold insert_breach.
  rewrite to_gsize_small by lia.
  apply orb_false_iff. split.
  - rewrite Z.gtb_ltb. apply Z.ltb_ge. lia.
  - rewrite Z.geb_leb. apply Z.leb_gt. lia.
Qed.

(** A stored element that has not run out is found with its value. *)
Lemma finds_stored c now clock st h a :
  cache st = HashCache h →
  h !! strcase_fold (arg_key c) = Some a →
  heap st !! a = Some (stored_element c) →
  live_at c now →
  finds c now clock st.
Proof.
  intros Hc Hk He Hlive. unfold finds, lookup_value.
  rewrite (lookup_live (arg_key c) now clock st a (stored_element c)).
  - by rewrite He.
  - unfold cache_lookup, rspamd_kv_hash_lookup. by rewrite Hc.
  - done.
  - simpl. destruct (decide (0 < arg_expire c)) as [Hpos|Hnpos].
    + right. right. by apply Hlive.
    + right. left. lia.
Qed.

(** A key the cache does not hold is absent when there is no backend. *)
Lemma lookup_value_absent key now clock st :
  cache_lookup key st = None → backend st = None →
  lookup_value key now clock st = None.
Proof.
  intros Hl Hb. unfold lookup_value, rspamd_kv_storage_lookup.
  by rewrite Hl, Hb.
Qed.

(** The same through the limits block, when the limits are off or met. *)
Lemma insert_with_unlimited c st h q :
  max_memory st = 0 →
  cache st = HashCache h →
  h !! strcase_fold (arg_key c) = None →
  backend st = None →
  expire st = Some (LruExpire q) →
  insert_with c st = (after_fresh_insert c h q st, true).
Proof.
  intros Hm Hc Hk Hb Hq. unfold insert_with, rspamd_kv_storage_insert.
  rewrite check_limits_disabled by done.
  by apply insert_after_limits_fresh.
Qed.

Lemma insert_with_in_bounds c st h q :
  0 < max_memory st < 2 ^ 64 →
  0 ≤ arg_len c →
  0 ≤ memory st →
  memory st + arg_len c ≤ max_memory st →
  elts st < max_elts st →
  cache st = HashCache h →
  h !! strcase_fold (arg_key c) = None →
  backend st = None →
  expire st = Some (LruExpire q) →
  insert_with c st = (after_fresh_insert c h q st, true).
Proof.
  intros Hx Hlen Hmem Hfit He Hc Hk Hb Hq. unfold insert_with.
  rewrite insert_within_limits; [by apply insert_after_limits_fresh|lia|lia|].
  apply insert_breach_false; lia.
Qed.

End ThreeInserts.

(** Lookups in an index given by its insertions and deletions. *)
Ltac index_lookup :=
  repeat first
    [ rewrite lookup_insert_eq
    | rewrite lookup_insert_ne by congruence
    | rewrite lookup_delete_eq
    | rewrite lookup_delete_ne by congruence
    | rewrite lookup_empty ];
  try reflexivity.

Section ThreeInsertsRun.
Context `{Layout}.

(** With the limits switched off, three Inserts of keys the hashed cache
    tells apart are all stored. *)
Lemma three_inserts_unlimited (c1 c2 c3 : insert_args) :
  distinct_keys c1 c2 → distinct_keys c1 c3 → distinct_keys c2 c3 →
  three_inserts 2 0 c1 c2 c3
  = ({| cache := HashCache
                   (<[strcase_fold (arg_key c3) := 2%nat]>
                      (<[strcase_fold (arg_key c2) := 1%nat]>
                         (<[strcase_fold (arg_key c1) := 0%nat]> ∅)));
        backend := None;
        expire := Some (LruExpire [0; 1; 2]%nat);
        elts := 3;
        memory :=
          to_gsize
            (to_gsize
               (to_gsize (0 + (arg_len c1 + sizeof_elt))
                + (arg_len c2 + sizeof_elt))
             + (arg_len c3 + sizeof_elt));
        max_elts := 2; max_memory := 0;
        heap := [stored_element c1; stored_element c2; stored_element c3];
        freed := [] |}, (true, true, true)).
Proof.
  unfold distinct_keys. intros D12 D13 D23.
  unfold three_inserts. cbv zeta.
  rewrite (insert_with_unlimited c1 (hash_lru_storage 2 0) ∅ []);
    [|reflexivity | reflexivity | apply lookup_empty | reflexivity
     | reflexivity].
  cbn [fst snd].
  rewrite (insert_with_unlimited c2 _
             (<[strcase_fold (arg_key c1) := 0%nat]> ∅) [0%nat]);
    [|reflexivity | reflexivity | index_lookup | reflexivity | reflexivity].
  cbn [fst snd].
  rewrite (insert_with_unlimited c3 _
             (<[strcase_fold (arg_key c2) := 1%nat]>
                (<[strcase_fold (arg_key c1) := 0%nat]> ∅)) [0; 1]%nat);
    [|reflexivity | reflexivity | index_lookup | reflexivity | reflexivity].
  reflexivity.
Qed.

End ThreeInsertsRun.

Section ThreeInsertsBounded.
Context `{Layout}.

(** The storage after the first two Inserts under a memory bound that
    both records fit. *)
Lemma two_inserts_in_bounds (m : Z) (c1 c2 : insert_args) :
  distinct_keys c1 c2 →
  0 < m < 2 ^ 64 →
  0 ≤ arg_len c1 → 0 ≤ arg_len c2 →
  arg_len c1 + arg_len c2 + 2 * sizeof_elt ≤ m →
  let i1 := insert_with c1 (hash_lru_storage 2 m) in
  i1.2 = true
  ∧ insert_with c2 i1.1
    = ({| cache := HashCache
                     (<[strcase_fold (arg_key c2) := 1%nat]>
                        (<[strcase_fold (arg_key c1) := 0%nat]> ∅));
          backend := None;
          expire := Some (LruExpire [0; 1]%nat);
          elts := 2;
          memory := arg_len c1 + arg_len c2 + 2 * sizeof_elt;
          max_elts := 2; max_memory := m;
          heap := [stored_element c1; stored_element c2];
          freed := [] |}, true).
Proof.
  unfold distinct_keys. intros D12 Hm Hn1 Hn2 Hfit. cbv zeta.
  pose proof sizeof_elt_range as Hs.
  rewrite (insert_with_in_bounds c1 (hash_lru_storage 2 m) ∅ []);
    [|simpl; lia | done | simpl; lia | simpl; lia | simpl; lia
     | reflexivity | apply lookup_empty | reflexivity | reflexivity].
  split; [reflexivity|]. cbn [fst].
  assert (Hm1 : memory (after_fresh_insert c1 ∅ [] (hash_lru_storage 2 m))
                = arg_len c1 + sizeof_elt).
  { simpl. rewrite to_gsize_small by lia. lia. }
  rewrite (insert_with_in_bounds c2 _
             (<[strcase_fold (arg_key c1) := 0%nat]> ∅) [0%nat]);
    [|simpl; lia | done | rewrite Hm1; lia
     | rewrite Hm1; simpl; lia | reflexivity
     | reflexivity | index_lookup | reflexivity | reflexivity].
  unfold after_fresh_insert at 1. rewrite Hm1.
  cbn [cache backend expire elts memory max_elts max_memory heap freed
       after_fresh_insert hash_lru_storage rspamd_kv_storage_new
       length app].
  rewrite (to_gsize_small (arg_len c1 + sizeof_elt + _)) by lia.
  f_equal. f_equal. lia.
Qed.

End ThreeInsertsBounded.

Section ThreeInsertsEvict.
Context `{Layout}.

Lemma land_pinned_dirty f :
  Z.land f (Z.lor KV_ELT_PERSISTENT KV_ELT_DIRTY) = 0 →
  Z.land f KV_ELT_DIRTY = 0.
Proof.
  intros Hf.
  replace KV_ELT_DIRTY
    with (Z.land (Z.lor KV_ELT_PERSISTENT KV_ELT_DIRTY) KV_ELT_DIRTY)
    by reflexivity.
  by rewrite Z.land_assoc, Hf.
Qed.

(** The element bound at work: with two elements under [max_elts = 2],
    the unforced step of the third Insert evicts the head, which is
    neither pinned nor expired. *)
Lemma third_insert_evicts_first (m : Z) (c1 c2 c3 : insert_args) :
  distinct_keys c1 c2 → distinct_keys c1 c3 → distinct_keys c2 c3 →
  0 < m < 2 ^ 64 →
  0 ≤ arg_len c1 → 0 ≤ arg_len c2 → 0 ≤ arg_len c3 →
  arg_len c1 + arg_len c2 + arg_len c3 + 3 * sizeof_elt ≤ m →
  Z.land (arg_flags c1) (Z.lor KV_ELT_PERSISTENT KV_ELT_DIRTY) = 0 →
  0 < arg_expire c1 →
  arg_time c3 - arg_time c1 < arg_expire c1 →
  to_guint (strlen (arg_key c1)) + 1 ≤ arg_len c2 + sizeof_elt →
  insert_with c3
    {| cache := HashCache
                  (<[strcase_fold (arg_key c2) := 1%nat]>
                     (<[strcase_fold (arg_key c1) := 0%nat]> ∅));
       backend := None;
       expire := Some (LruExpire [0; 1]%nat);
       elts := 2;
       memory := arg_len c1 + arg_len c2 + 2 * sizeof_elt;
       max_elts := 2; max_memory := m;
       heap := [stored_element c1; stored_element c2];
       freed := [] |}
  = ({| cache := HashCache
                   (<[strcase_fold (arg_key c3) := 2%nat]>
                      (delete (strcase_fold (arg_key c1))
                         (<[strcase_fold (arg_key c2) := 1%nat]>
                            (<[strcase_fold (arg_key c1) := 0%nat]> ∅))));
        backend := None;
        expire := Some (LruExpire [1; 2]%nat);
        elts := 2;
        memory := arg_len c2 + arg_len c3 + 2 * sizeof_elt
                  - (to_guint (strlen (arg_key c1)) + 1);
        max_elts := 2; max_memory := m;
        heap := [stored_element c1; stored_element c2; stored_element c3];
        freed := [0%nat] |}, true).
Proof.
  unfold distinct_keys.
  intros D12 D13 D23 Hm Hn1 Hn2 Hn3 Hfit Hflags Hlife Hnew Hkey.
  pose proof sizeof_elt_range as Hs.
  assert (Hkl : 0 ≤ to_guint (strlen (arg_key c1))).
  { unfold to_guint. apply Z.mod_pos_bound. done. }
  set (st2 := {| cache := _; heap := [stored_element c1; stored_element c2] |}).
  assert (Hf1 : elt_flags (stored_element c1) = arg_flags c1).
  { simpl. unfold insert_flags.
    replace (arg_expire c1 =? 0) with false; [done|].
    symmetry. apply Z.eqb_neq. lia. }
  assert (Hpin : pinned (stored_element c1) = false).
  { unfold pinned, has_flag. rewrite Hf1, Hflags. reflexivity. }
  assert (Hdirty : has_flag KV_ELT_DIRTY (stored_element c1) = false).
  { unfold has_flag. rewrite Hf1, land_pinned_dirty by done. reflexivity. }
  assert (Hsize : ELT_SIZE (stored_element c1)
                  = arg_len c1 + sizeof_elt
                    + to_guint (strlen (arg_key c1)) + 1).
  { unfold ELT_SIZE. simpl. apply to_gsize_small. lia. }
  assert (Hstep : expire_step (arg_time c3) 0 st2
    = {| cache := HashCache
                    (delete (strcase_fold (arg_key c1))
                       (<[strcase_fold (arg_key c2) := 1%nat]>
                          (<[strcase_fold (arg_key c1) := 0%nat]> ∅)));
         backend := None;
         expire := Some (LruExpire [1%nat]);
         elts := 1;
         memory := arg_len c2 + sizeof_elt
                   - (to_guint (strlen (arg_key c1)) + 1);
         max_elts := 2; max_memory := m;
         heap := [stored_element c1; stored_element c2];
         freed := [0%nat] |}).
  { rewrite (expire_step_evicts_head (arg_time c3) st2 0%nat [1%nat]
               (stored_element c1));
      [|reflexivity | reflexivity | exact Hpin | simpl; lia].
    rewrite Hsize.
    unfold dispose, expire_delete, cache_steal, rspamd_kv_hash_steal,
      g_hash_table_steal, g_slice_free1.
    cbn [cache backend expire elts memory max_elts max_memory heap freed
         set_elts set_memory set_cache set_queue set_freed st2 lookup
         list_lookup elt_key stored_element].
    rewrite Hdirty.
    cbn [cache backend expire elts memory max_elts max_memory heap freed
         set_elts set_memory set_cache set_queue set_freed].
    unfold set_freed, set_queue, set_cache, set_elts, set_memory.
    cbn [cache backend expire elts memory max_elts max_memory heap freed st2].
    rewrite (to_gsize_small (arg_len c1 + _ + _ - _)) by lia.
    f_equal; try reflexivity. lia. }
  unfold insert_with.
  rewrite insert_after_one_step;
    [|simpl; lia | simpl; lia
     | unfold insert_breach; apply orb_true_iff; right; reflexivity
     | rewrite Hstep; apply insert_breach_false; simpl; lia].
  rewrite Hstep.
  rewrite (insert_after_limits_fresh c3 _
             (delete (strcase_fold (arg_key c1))
                (<[strcase_fold (arg_key c2) := 1%nat]>
                   (<[strcase_fold (arg_key c1) := 0%nat]> ∅))) [1%nat]);
    [|reflexivity | index_lookup | reflexivity | reflexivity].
  unfold after_fresh_insert.
  cbn [cache backend expire elts memory max_elts max_memory heap freed
       length app].
  rewrite (to_gsize_small (arg_len c2 + _ - _ + _)) by lia.
  f_equal. f_equal; try reflexivity. lia.
Qed.

End ThreeInsertsEvict.

(** C3 (as amended): the limits block, element bound included, runs only
    under [max_memory > 0].  On the hashed cache with an LRU queue, no
    backend and [max_elts = 2], three Inserts of keys that differ even
    when letter case is ignored give the following.  With
    [max_memory = 0] all three succeed and nothing is evicted: [elts] is
    3 and each key is found with its value while its element has not run
    out.  With a memory bound below [2^64] that the three records
    together do not reach, a first element that carries neither
    [PERSISTENT] nor [DIRTY] and whose positive lifetime has not run out
    at the third Insert, and a second record at least as large as the
    first key with its NUL, all three succeed and the third evicts the
    first key through the expire step: [elts] is 2, the first key is
    absent and the other two are found while they have not run out. *)
Theorem element_bound_only_under_memory_bound `{Layout}
  (m : Z) (c1 c2 c3 : insert_args) :
  distinct_keys c1 c2 → distinct_keys c1 c3 → distinct_keys c2 c3 →
  (let '(st, rs) := three_inserts 2 0 c1 c2 c3 in
   rs = (true, true, true) ∧ elts st = 3
   ∧ ∀ now clock,
       (live_at c1 now → finds c1 now clock st)
       ∧ (live_at c2 now → finds c2 now clock st)
       ∧ (live_at c3 now → finds c3 now clock st))
  ∧ (0 < m < 2 ^ 64 →
     0 ≤ arg_len c1 → 0 ≤ arg_len c2 → 0 ≤ arg_len c3 →
     arg_len c1 + arg_len c2 + arg_len c3 + 3 * sizeof_elt ≤ m →
     Z.land (arg_flags c1) (Z.lor KV_ELT_PERSISTENT KV_ELT_DIRTY) = 0 →
     0 < arg_expire c1 →
     arg_time c3 - arg_time c1 < arg_expire c1 →
     to_guint (strlen (arg_key c1)) + 1 ≤ arg_len c2 + sizeof_elt →
     let '(st, rs) := three_inserts 2 m c1 c2 c3 in
     rs = (true, true, true) ∧ elts st = 2
     ∧ ∀ now clock,
         lookup_value (arg_key c1) now clock st = None
         ∧ (live_at c2 now → finds c2 now clock st)
         ∧ (live_at c3 now → finds c3 now clock st)).
Proof.
  intros D12 D13 D23. split.
  - rewrite three_inserts_unlimited by done.
    unfold distinct_keys in *.
    split; [reflexivity|]. split; [reflexivity|].
    intros now clock. repeat split; intros Hlive.
    + eapply (finds_stored c1 now clock _ _ 0%nat);
        [reflexivity | index_lookup | reflexivity | exact Hlive].
    + eapply (finds_stored c2 now clock _ _ 1%nat);
        [reflexivity | index_lookup | reflexivity | exact Hlive].
    + eapply (finds_stored c3 now clock _ _ 2%nat);
        [reflexivity | index_lookup | reflexivity | exact Hlive].
  - intros Hm Hn1 Hn2 Hn3 Hfit Hflags Hlife Hnew Hkey.
    pose proof sizeof_elt_range as Hs.
    destruct (two_inserts_in_bounds m c1 c2 D12 Hm Hn1 Hn2) as [E1 E2];
      [lia|].
    cbv zeta in E1, E2.
    unfold three_inserts. cbv zeta. rewrite E2, E1. cbn [fst snd].
    rewrite third_insert_evicts_first by assumption.
    unfold distinct_keys in *.
    split; [reflexivity|]. split; [reflexivity|].
    intros now clock. split; [|split; intros Hlive].
    + apply lookup_value_absent; [|reflexivity].
      unfold cache_lookup, rspamd_kv_hash_lookup. cbn [cache fst].
      index_lookup.
    + eapply (finds_stored c2 now clock _ _ 1%nat);
        [reflexivity | index_lookup | reflexivity | exact Hlive].
    + eapply (finds_stored c3 now clock _ _ 2%nat);
        [reflexivity | index_lookup | reflexivity | exact Hlive].
Qed.

Lemma element_bound_only_under_memory_bound_witness :
  (let '(st, rs) := three_inserts 2 0 scenario_a scenario_b scenario_c in
   rs = (true, true, true) ∧ elts st = 3
   ∧ ∀ now clock,
       (live_at scenario_a now → finds scenario_a now clock st)
       ∧ (live_at scenario_b now → finds scenario_b now clock st)
       ∧ (live_at scenario_c now → finds scenario_c now clock st))
  ∧ (let '(st, rs) := three_inserts 2 1000 scenario_a scenario_b scenario_c in
     rs = (true, true, true) ∧ elts st = 2
     ∧ ∀ now clock,
         lookup_value "a" now clock st = None
         ∧ (live_at scenario_b now → finds scenario_b now clock st)
         ∧ (live_at scenario_c now → finds scenario_c now clock st)).
Proof.
  destruct (element_bound_only_under_memory_bound 1000
              scenario_a scenario_b scenario_c)
    as [Hoff Hon]; [discriminate | discriminate | discriminate |].
  split; [exact Hoff|].
  apply Hon;
    [split; reflexivity | discriminate | discriminate | discriminate
    | discriminate | reflexivity | reflexivity | reflexivity | discriminate].
Defined.

(** C3 as stated fails on the code: with [max_elts = 2] and
    [max_memory = 0] the third Insert of scenario 1 evicts nothing. *)
Lemma element_bound_without_memory_bound_counterexample :
  ¬ (let '(st, rs) := three_inserts 2 0 scenario_a scenario_b scenario_c in
     rs = (true, true, true) ∧ elts st = 2
     ∧ lookup_value "a" 0 0 st = None
     ∧ lookup_value "b" 0 0 st = Some [x32]
     ∧ lookup_value "c" 0 0 st = Some [x33]).
Proof. vm_compute. intros (_ & Hn & _). discriminate Hn. Qed.
